(** * Dis-Snek client: a shallow embedding of [dis_snek/client.py]

    The development follows the layout of the [Snake] class:
    - [Events]     : [_queue_task], [dispatch] and [wait_for];
    - [Gateway]    : the reconnect loop [_ws_connect];
    - [Readiness]  : the guild-cache gate of [_on_websocket_ready];
    - [Reconciler] : [_cache_interactions] and [synchronise_interactions];
    - [Router]     : [get_context] and [_dispatch_msg_commands].

    Coroutines are embedded as functions that return the trace of the
    observable actions they perform (connection attempts, dispatched events,
    sleeps, HTTP calls, hook calls) together with their result. What the
    outside world answers (how a connection ends, what an HTTP call returns,
    what a listener does) is an input of these functions. *)

From stdpp Require Import gmap strings list.
From Stdlib Require Import ZArith Ascii Permutation.

Open Scope Z_scope.

(* ===================================================================== *)
(** ** Event dispatch and the wait registry *)
(* ===================================================================== *)

Module Events.

(** An event as [dispatch] sees it: its [resolved_name], the number of its
    attrs fields ([len(event.__attrs_attrs__)]) and its payload. *)
Record BaseEvent := {
  resolved_name : string;
  n_attrs : nat;
  payload : Z
}.

(** What awaiting a listener does. Exceptions are split the way
    [_async_wrap] splits them: [asyncio.CancelledError], the instances of
    [Exception], and the other instances of [BaseException], which no clause
    catches. Of the latter, asyncio lets [SystemExit] and [KeyboardInterrupt]
    leave the event loop ([exits]); any other one ends its task only. *)
Inductive Outcome :=
| Returns
| RaisesException (err : string)
| RaisesCancelled
| RaisesBaseException (err : string) (exits : bool).

(** A listener: a name that identifies it, and what it does when it is
    awaited with the event ([Some ev]) or with no argument ([None]). *)
Record Listener := {
  l_name : string;
  l_call : option BaseEvent → Outcome
}.

(** The result handle of a wait. *)
Inductive Future :=
| Pending
| Resolved (ev : BaseEvent)
| Cancelled.

(** [Wait(event, checks, future)]; [checks] is [None] for [MISSING], and
    the future is named by its position in the client's future store. *)
Record Wait := {
  w_event : string;
  w_checks : option (BaseEvent → bool);
  w_future : nat
}.

Record Client := {
  loop_running : bool;
  listeners : gmap string (list Listener);
  waits : gmap string (list Wait);
  futures : list Future
}.

Inductive Error :=
| BotException
| IndexError
| TimeoutError.

(** What a task does once the loop runs it. *)
Inductive TaskStep :=
| Called (name : string) (arg : option BaseEvent)
| OnError (source : BaseEvent) (err : string).

(** The coroutine [_async_wrap(coro, event)]. *)
Definition _async_wrap (l : Listener) (ev : BaseEvent) : list TaskStep :=
  let arg := if Nat.eqb (n_attrs ev) 1 then None else Some ev in
  Called (l_name l) arg ::
  match l_call l arg with
  | Returns => []
  | RaisesCancelled => []
  | RaisesException e => [OnError ev e]
  | RaisesBaseException _ _ => []
  end.

(** A task created by [asyncio.create_task]: the wrapped coroutine, not yet
    run. *)
Record Task := {
  t_listener : Listener;
  t_event : BaseEvent
}.

Definition run_task (t : Task) : list TaskStep :=
  _async_wrap (t_listener t) (t_event t).

(** [_queue_task]: [asyncio.create_task] raises when no loop is running. *)
Definition _queue_task (c : Client) (l : Listener) (ev : BaseEvent) : option Task :=
  if loop_running c then Some {| t_listener := l; t_event := ev |} else None.

(** The first loop of [dispatch]: one task per listener; a failure to queue
    is turned into [BotException]. *)
Fixpoint queue_all (c : Client) (ls : list Listener) (ev : BaseEvent)
  : list Task * option Error :=
  match ls with
  | [] => ([], None)
  | l :: rest =>
      match _queue_task c l ev with
      | None => ([], Some BotException)
      | Some t =>
          let '(ts, e) := queue_all c rest ev in (t :: ts, e)
      end
  end.

(** Modelled from the spec: [Wait.__call__] of [dis_snek/models/wait.py],
    which is not part of the sources at hand. A wait is satisfied when its
    predicate returns true for the event (a wait without a predicate is
    satisfied by every event); its result handle then resolves with that
    event. *)
Definition satisfied (w : Wait) (ev : BaseEvent) : bool :=
  match w_checks w with Some chk => chk ev | None => true end.

(** [_wait(event)]: the truth value it returns, and the futures after it. *)
Definition wait_call (w : Wait) (ev : BaseEvent) (futs : list Future)
  : bool * list Future :=
  if satisfied w ev then (true, <[w_future w := Resolved ev]> futs) else (false, futs).

(** [for i, _wait in enumerate(_waits): ...]: the positions of the
    satisfied waits, in increasing order. [i] is the position of the head of
    [ws]. *)
Fixpoint scan (ws : list Wait) (i : nat) (ev : BaseEvent) (futs : list Future)
  : list nat * list Future :=
  match ws with
  | [] => ([], futs)
  | w :: rest =>
      let '(r, futs1) := wait_call w ev futs in
      let '(idxs, futs2) := scan rest (S i) ev futs1 in
      (if r then i :: idxs else idxs, futs2)
  end.

(** [list.pop(idx)] for [0 <= idx]: [None] stands for [IndexError]. *)
Definition pop {A} (l : list A) (idx : nat) : option (list A) :=
  if decide (idx < length l)%nat then Some (delete idx l) else None.

(** [for idx in index_to_remove: _waits.pop(idx)], on the list as the
    previous pops left it. *)
Fixpoint pop_each {A} (l : list A) (idxs : list nat) : list A * option Error :=
  match idxs with
  | [] => (l, None)
  | idx :: rest =>
      match pop l idx with
      | Some l' => pop_each l' rest
      | None => (l, Some IndexError)
      end
  end.

Record Dispatched := {
  d_tasks : list Task;
  d_client : Client;
  d_raised : option Error
}.

Definition set_waits (c : Client) (w : gmap string (list Wait)) (f : list Future) : Client :=
  {| loop_running := loop_running c; listeners := listeners c;
     waits := w; futures := f |}.

(** [dispatch(event)]. [_waits] is the list stored in [self.waits] (the pops
    change it in place), or a new empty list when the name has no entry. *)
Definition dispatch (c : Client) (ev : BaseEvent) : Dispatched :=
  let ls := default [] (listeners c !! resolved_name ev) in
  match queue_all c ls ev with
  | (ts, Some e) => {| d_tasks := ts; d_client := c; d_raised := Some e |}
  | (ts, None) =>
      match waits c !! resolved_name ev with
      | None => {| d_tasks := ts; d_client := c; d_raised := None |}
      | Some _waits =>
          let '(index_to_remove, futs) := scan _waits 0 ev (futures c) in
          let '(remaining, err) := pop_each _waits index_to_remove in
          {| d_tasks := ts;
             d_client := set_waits c (<[resolved_name ev := remaining]> (waits c)) futs;
             d_raised := err |}
      end
  end.

(** The pending waits registered under a name, and the size of the table. *)
Definition pending (c : Client) (name : string) : list Wait :=
  default [] (waits c !! name).

Definition table_size (c : Client) : nat :=
  map_fold (λ _ l n, (length l + n)%nat) 0%nat (waits c).

(** [wait_for(event, checks, timeout)] up to the point where it returns the
    awaitable: the wait is appended to the list of its event name. The
    second component names the new future. *)
Definition wait_for (c : Client) (event : string) (checks : option (BaseEvent → bool))
  : Client * nat :=
  let future := length (futures c) in
  let w := {| w_event := event; w_checks := checks; w_future := future |} in
  (set_waits c (<[event := pending c event ++ [w]]> (waits c)) (futures c ++ [Pending]),
   future).

(** [asyncio.wait_for(future, timeout)] when the timeout elapses first: the
    future is cancelled and [TimeoutError] is raised to the caller. Nothing
    of the client is involved but the future. *)
Definition timed_out (c : Client) (future : nat) : Client * Error :=
  (set_waits c (waits c) (<[future := Cancelled]> (futures c)), TimeoutError).

(** Events dispatched one after the other. *)
Definition dispatch_all (c : Client) (evs : list BaseEvent) : Client :=
  foldl (λ c ev, d_client (dispatch c ev)) c evs.

(** A call of [wait_for] that times out, with the events [evs] dispatched
    while the caller is suspended. *)
Definition wait_for_timing_out (c : Client) (event : string)
    (checks : option (BaseEvent → bool)) (evs : list BaseEvent) : Client * Error :=
  let '(c1, future) := wait_for c event checks in
  timed_out (dispatch_all c1 evs) future.

(** The pending list with the satisfied waits filtered out: what removing
    exactly the satisfied waits leaves. *)
Definition unsatisfied_of (ws : list Wait) (ev : BaseEvent) : list Wait :=
  filter (λ w, satisfied w ev = false) ws.

(** The argument a listener receives for an event. *)
Definition listener_arg (ev : BaseEvent) : option BaseEvent :=
  if Nat.eqb (n_attrs ev) 1 then None else Some ev.

(** Does the listener raise what leaves the event loop? *)
Definition exits (l : Listener) (ev : BaseEvent) : bool :=
  match l_call l (listener_arg ev) with
  | RaisesBaseException _ true => true
  | _ => false
  end.

(** The steps of the tasks, run in the given order by the event loop: a task
    whose listener raises [SystemExit] or [KeyboardInterrupt] stops the
    loop, and the tasks after it do not run. *)
Fixpoint run_tasks (ts : list Task) : list TaskStep :=
  match ts with
  | [] => []
  | t :: rest =>
      run_task t ++ (if exits (t_listener t) (t_event t) then [] else run_tasks rest)
  end.

Definition is_on_error (s : TaskStep) : bool :=
  match s with OnError _ _ => true | _ => false end.

Definition is_called (s : TaskStep) : bool :=
  match s with Called _ _ => true | _ => false end.

Definition hook_calls (steps : list TaskStep) : nat :=
  length (filter (λ s, is_on_error s = true) steps).

Definition listener_calls (steps : list TaskStep) : nat :=
  length (filter (λ s, is_called s = true) steps).

Definition raises (l : Listener) (ev : BaseEvent) : bool :=
  match l_call l (listener_arg ev) with
  | Returns => false
  | _ => true
  end.

Definition raises_exception (l : Listener) (ev : BaseEvent) : bool :=
  match l_call l (listener_arg ev) with
  | RaisesException _ => true
  | _ => false
  end.

Definition count_listeners (f : Listener → bool) (ls : list Listener) : nat :=
  length (filter (λ l, f l = true) ls).

Definition without_listeners (c : Client) : Client :=
  {| loop_running := loop_running c; listeners := ∅;
     waits := waits c; futures := futures c |}.

(** *** Scenarios *)

Definition ev_x : BaseEvent := {| resolved_name := "x"; n_attrs := 2; payload := 7 |}.

Definition wait_yes (fut : nat) : Wait :=
  {| w_event := "x"; w_checks := Some (λ ev, payload ev =? 7); w_future := fut |}.

Definition wait_no (fut : nat) : Wait :=
  {| w_event := "x"; w_checks := Some (λ ev, payload ev =? 8); w_future := fut |}.

Definition empty_client : Client :=
  {| loop_running := true; listeners := ∅; waits := ∅; futures := [] |}.

(** Two waits that the event satisfies, followed by one it does not. *)
Definition three_waits : Client :=
  {| loop_running := true; listeners := ∅;
     waits := {[ "x" := [wait_yes 0; wait_yes 1; wait_no 2] ]};
     futures := [Pending; Pending; Pending] |}.

(** A listener that is cancelled while it runs. *)
Definition cancelled_listener : Listener :=
  {| l_name := "on_x"; l_call := λ _, RaisesCancelled |}.

Definition failing_listener : Listener :=
  {| l_name := "on_x_fail"; l_call := λ _, RaisesException "boom" |}.

Definition quiet_listener : Listener :=
  {| l_name := "on_x_ok"; l_call := λ _, Returns |}.

(** A listener that calls [sys.exit]. *)
Definition exiting_listener : Listener :=
  {| l_name := "on_x_exit"; l_call := λ _, RaisesBaseException "SystemExit" true |}.

Definition exit_then_quiet : Client :=
  {| loop_running := true;
     listeners := {[ "x" := [exiting_listener; quiet_listener] ]};
     waits := ∅; futures := [] |}.

Definition one_cancelled : Client :=
  {| loop_running := true; listeners := {[ "x" := [cancelled_listener] ]};
     waits := ∅; futures := [] |}.

Definition three_listeners : Client :=
  {| loop_running := true;
     listeners := {[ "x" := [failing_listener; quiet_listener; failing_listener] ]};
     waits := ∅; futures := [] |}.

End Events.

(* ===================================================================== *)
(** ** The reconnect loop *)
(* ===================================================================== *)

Module Gateway.

(** The keys of [params] that the loop updates. The other keys ([http],
    [dispatch], [intents], [presence]) are set once and never change. *)
Record Params := {
  resume : bool;
  session_id : option string;
  sequence : option Z
}.

(** What the loop reads of [self.ws] after an attempt has ended. When
    [WebsocketClient.connect] itself raises, [self.ws] is still the client of
    the attempt before. *)
Record WebsocketClient := {
  ws_session_id : option string;
  ws_sequence : option Z
}.

(** How [WebsocketClient.connect] followed by [ws.run()] can end by an
    exception, classified the way the [except] clauses tell them apart.
    [OSError] carries its [errno]; an [aiohttp.ClientError] that is also an
    [OSError] counts as [OSError]. [CancelledError] is the case that none of
    the clauses catches: since Python 3.8 it derives from [BaseException]. *)
Inductive Exc :=
| WebSocketRestart (ex_resume : bool)
| WebSocketClosed (code : Z)
| OSError (errno : option Z)
| GatewayNotFound
| ClientError
| TimeoutError
| OtherException
| CancelledError.

(** One connection attempt as the loop observes it: the state of the client
    when the attempt ends ([self.ws], [self._ready]), how it ended ([None]
    when [ws.run()] returned), what [self.dispatch(events.Disconnect())]
    raises when the handler calls it ([None] when it returns: it is
    [d_raised] of [Events.dispatch] on the listener and wait tables of that
    moment), and the value [self.is_closed] has at the next test of the
    [while] condition. *)
Record Attempt := {
  att_ws : WebsocketClient;
  att_ready : bool;
  att_end : option Exc;
  att_dispatch : option Events.Error;
  att_closed : bool
}.

Inductive Event := Disconnect.

Inductive Action :=
| Connect (p : Params)
| Dispatch (e : Event)
| Sleep (secs : Z).

(** What leaves [_ws_connect]. *)
Inductive Raised :=
| SnakeException (msg : string)
| Reraised (e : Exc)
| FromDispatch (e : Events.Error).

Inductive Final :=
| Returned
| Failed (r : Raised)
| Running.

(** [params.update(resume=True, session_id=self.ws.session_id,
    sequence=self.ws.sequence)] *)
Definition resumed (ws : WebsocketClient) : Params :=
  {| resume := true; session_id := ws_session_id ws; sequence := ws_sequence ws |}.

(** [params.update(resume=False, session_id=None, sequence=None)] *)
Definition fresh : Params :=
  {| resume := false; session_id := None; sequence := None |}.

(** Where control goes after the [try] statement of one iteration. *)
Inductive Control :=
| Continue (p : Params)      (* [continue]: straight to the loop head *)
| FallThrough (p : Params)   (* leaves the [try]: reaches [asyncio.sleep(5)] *)
| Return
| Raise (r : Raised).

(** [ex.errno in (54, 10054)] *)
Definition is_reset (errno : option Z) : bool :=
  match errno with
  | Some n => (n =? 54) || (n =? 10054)
  | None => false
  end.

(** [self.dispatch(events.Disconnect())] as the first statement of an
    [except] clause, followed by the rest of the clause. What the dispatch
    raises is raised inside the handler: no sibling clause catches it, and
    it leaves [_ws_connect]. *)
Definition after_disconnect (a : Attempt) (ctl : Control) : list Action * Control :=
  ([Dispatch Disconnect],
   match att_dispatch a with
   | Some e => Raise (FromDispatch e)
   | None => ctl
   end).

(** The [except] clauses of [_ws_connect]: the events dispatched and where
    control goes. Log calls are left out. *)
Definition handle (p : Params) (a : Attempt) : list Action * Control :=
  match att_end a with
  | None => ([], FallThrough p)
  | Some (WebSocketRestart r) =>
      after_disconnect a
        (if r then Continue (resumed (att_ws a)) else FallThrough fresh)
  | Some (WebSocketClosed code) =>
      after_disconnect a
        (if code =? 1000 then
           if att_ready a then Continue (resumed (att_ws a)) else Return
         else if code =? 4011 then
           Raise (SnakeException "Your bot is too large, you must use shards")
         else if code =? 4013 then
           Raise (SnakeException "Invalid Intents have been passed")
         else if code =? 4014 then
           Raise (SnakeException "You have requested privileged intents that have not been enabled or approved. Check the developer dashboard")
         else Raise (Reraised (WebSocketClosed code)))
  | Some (OSError errno) =>
      after_disconnect a
        (if is_reset errno then Continue (resumed (att_ws a)) else FallThrough fresh)
  | Some GatewayNotFound | Some ClientError | Some TimeoutError =>
      after_disconnect a (FallThrough fresh)
  | Some OtherException =>
      after_disconnect a (FallThrough fresh)
  | Some CancelledError => ([], Raise (Reraised CancelledError))
  end.

(** How one iteration of the [while] loop ends. *)
Inductive Next :=
| Again (p : Params)
| Stop (f : Final).

(** One iteration of the [while] body: the connection attempt, the handler,
    and the [await asyncio.sleep(5)] that closes the body. *)
Definition iteration (p : Params) (a : Attempt) : list Action * Next :=
  let '(acts, ctl) := handle p a in
  match ctl with
  | Continue p' => (Connect p :: acts, Again p')
  | FallThrough p' => (Connect p :: acts ++ [Sleep 5], Again p')
  | Return => (Connect p :: acts, Stop Returned)
  | Raise r => (Connect p :: acts, Stop (Failed r))
  end.

(** [while not self.is_closed: ...], run against the attempts of [script].
    [closed] is the value of [self.is_closed] at the loop head. When the
    script is used up the last attempt is still running. *)
Fixpoint ws_connect_loop (closed : bool) (p : Params) (script : list Attempt)
  : list Action * Final :=
  if closed then ([], Returned)
  else
    match script with
    | [] => ([Connect p], Running)
    | a :: rest =>
        let '(acts, nxt) := iteration p a in
        match nxt with
        | Again p' =>
            let '(t, f) := ws_connect_loop (att_closed a) p' rest in
            (acts ++ t, f)
        | Stop f => (acts, f)
        end
    end.

(** [_ws_connect]: the loop started from the initial [params]. *)
Definition _ws_connect (closed : bool) (script : list Attempt) : list Action * Final :=
  ws_connect_loop closed fresh script.

(** Does the iteration sleep before the next attempt? *)
Definition is_sleep (x : Action) : bool :=
  match x with Sleep _ => true | _ => false end.

Definition delayed (acts : list Action) : bool := existsb is_sleep acts.

Definition is_dispatch (x : Action) : bool :=
  match x with Dispatch _ => true | _ => false end.

(** The [Disconnect] event as [dispatch] sees it, and what dispatching it
    raises on given listener and wait tables. *)
Definition disconnect_event : Events.BaseEvent :=
  {| Events.resolved_name := "disconnect"; Events.n_attrs := 1; Events.payload := 0 |}.

Definition dispatch_disconnect (c : Events.Client) : option Events.Error :=
  Events.d_raised (Events.dispatch c disconnect_event).

(** *** Scenarios *)

Definition ws0 : WebsocketClient :=
  {| ws_session_id := Some "s-1"; ws_sequence := Some 42 |}.

(** An internal restart request that does not ask to resume. *)
Definition restart_fresh : Attempt :=
  {| att_ws := ws0; att_ready := true;
     att_end := Some (WebSocketRestart false); att_dispatch := None;
     att_closed := false |}.

(** A clean close (code 1000) after readiness was reached. *)
Definition clean_close_ready : Attempt :=
  {| att_ws := ws0; att_ready := true;
     att_end := Some (WebSocketClosed 1000); att_dispatch := None;
     att_closed := false |}.

(** Connection reset by peer. *)
Definition transport_reset : Attempt :=
  {| att_ws := ws0; att_ready := true;
     att_end := Some (OSError (Some 54)); att_dispatch := None;
     att_closed := false |}.

(** The delay rule as the failure table words it: every retried failure
    branch waits, the internal restart requests apart. *)
Definition delay_as_tabled (e : Exc) : bool :=
  match e with
  | WebSocketRestart _ => false
  | _ => true
  end.

(** Two coroutines wait for the next disconnect, without a predicate. *)
Definition two_disconnect_waits : Events.Client :=
  {| Events.loop_running := true; Events.listeners := ∅;
     Events.waits :=
       {[ "disconnect" :=
            [ {| Events.w_event := "disconnect"; Events.w_checks := None;
                 Events.w_future := 0 |};
              {| Events.w_event := "disconnect"; Events.w_checks := None;
                 Events.w_future := 1 |} ] ]};
     Events.futures := [Events.Pending; Events.Pending] |}.

(** The clean close after readiness, with these two waits pending. *)
Definition clean_close_with_waits : Attempt :=
  {| att_ws := ws0; att_ready := true;
     att_end := Some (WebSocketClosed 1000);
     att_dispatch := dispatch_disconnect two_disconnect_waits;
     att_closed := false |}.

End Gateway.

(* ===================================================================== *)
(** ** The cache readiness gate *)
(* ===================================================================== *)

Module Readiness.

Record Guild := {
  guild_name : string;
  member_count : Z
}.

(** [set(to_snowflake(guild["id"]) for guild in data["guilds"])]: the ids of
    the handshake payload, already converted to integers, as a set. *)
Definition expected_guilds (data_guilds : list Z) : gset Z :=
  list_to_set data_guilds.

(** One pass through [asyncio.wait_for(self._guild_event.wait(), timeout)]:
    either the wait times out, or the guild event was set and the waiter
    wakes up with [self.cache.guild_cache] as it is at that moment. *)
Inductive Wake :=
| TimedOut
| Signalled (guild_cache : gmap Z Guild).

(** How the [while True] loop is left; [Waiting] when the wake-ups at hand
    are used up and the loop is suspended on the next wait. *)
Inductive Exit :=
| FullCache       (* [break] under the comment "all guilds cached" *)
| PartialCache    (* [break] of the timeout handler *)
| Waiting.

(** The [while True] loop of [_on_websocket_ready]. *)
Fixpoint wait_for_guilds (expected : gset Z) (wakes : list Wake) : Exit :=
  match wakes with
  | [] => Waiting
  | TimedOut :: _ => PartialCache
  | Signalled guild_cache :: rest =>
      if Nat.eqb (size guild_cache) (size expected) then FullCache
      else wait_for_guilds expected rest
  end.

Inductive Step :=
| AddGuilds (ids : gset Z)
| InitInteractions
| DispatchReady.

(** [_on_websocket_ready]: what it does and the value of [self._ready]
    afterwards ([ready0] before). *)
Definition _on_websocket_ready (ready0 : bool) (data_guilds : list Z) (wakes : list Wake)
  : list Step * bool :=
  let expected := expected_guilds data_guilds in
  match wait_for_guilds expected wakes with
  | Waiting => ([AddGuilds expected], ready0)
  | _ => ([AddGuilds expected; InitInteractions; DispatchReady], true)
  end.

(** The wake-ups after which the loop goes round again. *)
Definition goes_on (expected : gset Z) (w : Wake) : Prop :=
  match w with
  | TimedOut => False
  | Signalled guild_cache => size guild_cache ≠ size expected
  end.

(** *** Scenarios *)

(** The handshake announces guild 7; the cache holds guild 5 (say, a guild
    joined in the meantime) when the first guild event wakes the gate. *)
Definition other_guild_cached : list Wake :=
  [Signalled {[ 5 := {| guild_name := "five"; member_count := 3 |} ]}].

End Readiness.

(* ===================================================================== *)
(** ** The command router: contexts and message commands *)
(* ===================================================================== *)

Module Router.

(** Protocol constants ([InteractionTypes], [OptionTypes]). *)
Definition PING : Z := 1.
Definition APPLICATION_COMMAND : Z := 2.
Definition MESSAGE_COMPONENT : Z := 3.
Definition AUTOCOMPLETE : Z := 4.

Definition SUB_COMMAND : Z := 1.
Definition SUB_COMMAND_GROUP : Z := 2.
Definition USER : Z := 6.
Definition CHANNEL : Z := 7.
Definition ROLE : Z := 8.
Definition MENTIONABLE : Z := 9.

(** Cached entities, as far as the router handles them. *)
Record Member := { member_nick : string }.
Record User := { user_tag : string }.
Record Channel := { channel_name : string }.
Record Role := { role_name : string }.

(** The value of an option: what the payload carries ([VNone] for an absent
    value), or the cached object that replaces it. *)
Inductive Value :=
| VNone
| VStr (s : string)
| VInt (n : Z)
| VBool (b : bool)
| VMember (m : Member)
| VUser (u : User)
| VChannel (c : Channel)
| VRole (r : Role).

(** An entry of an [options] list of the payload. *)
#[local] Unset Elimination Schemes.
Inductive Opt :=
| MkOpt (o_type : Z) (o_name : string) (o_value : Value) (o_focused : bool)
        (o_options : option (list Opt)).
#[local] Set Elimination Schemes.

Definition o_type (o : Opt) : Z := let 'MkOpt t _ _ _ _ := o in t.
Definition o_name (o : Opt) : string := let 'MkOpt _ n _ _ _ := o in n.
Definition o_value (o : Opt) : Value := let 'MkOpt _ _ v _ _ := o in v.
Definition o_focused (o : Opt) : bool := let 'MkOpt _ _ _ f _ := o in f.
Definition o_options (o : Opt) : option (list Opt) := let 'MkOpt _ _ _ _ os := o in os.

(** The interaction payload: [data["type"]], [data.get("guild_id")],
    [data["data"]["name"]] and [data["data"].get("options")]. *)
Record Interaction := {
  i_type : Z;
  i_guild_id : option Value;
  i_name : string;
  i_options : option (list Opt)
}.

(** [self.cache]: the member cache is keyed by (guild id, user id). *)
Record GlobalCache := {
  member_cache : gmap (Z * Z) Member;
  user_cache : gmap Z User;
  channel_cache : gmap Z Channel;
  role_cache : gmap Z Role
}.

Inductive ContextKind :=
| ComponentContext
| AutocompleteContext
| InteractionContext.

Record Context := {
  ctx_kind : ContextKind;
  invoked_name : string;
  kwargs : list (string * Value);
  args : list Value;
  focussed_option : option string
}.

Inductive Error :=
| KeyError
| StopIteration
| SnowflakeError
| FromDictError (err : string).

(** [str.lower], on ASCII letters. *)
Definition lower_ascii (c : ascii) : ascii :=
  let n := nat_of_ascii c in
  if (Nat.leb 65 n && Nat.leb n 90)%bool then ascii_of_nat (n + 32) else c.

Fixpoint lower (s : string) : string :=
  match s with
  | EmptyString => EmptyString
  | String c rest => String (lower_ascii c) (lower rest)
  end.

(** [kwargs[key] = value] on an insertion-ordered dict: a key that is
    present keeps its place. *)
Fixpoint dict_set (key : string) (value : Value) (kw : list (string * Value))
  : list (string * Value) :=
  match kw with
  | [] => [(key, value)]
  | (k, v) :: rest =>
      if String.eqb k key then (k, value) :: rest
      else (k, v) :: dict_set key value rest
  end.

Fixpoint dict_get (key : string) (kw : list (string * Value)) : option Value :=
  match kw with
  | [] => None
  | (k, v) :: rest => if String.eqb k key then Some v else dict_get key rest
  end.

Section WithSnowflakes.

(** [to_snowflake] of [dis_snek.models] is not among the sources: it
    converts an id to an integer and raises on what is not an id ([None]). *)
Variable to_snowflake : Value → option Z.

(** [ComponentContext.from_dict], [AutocompleteContext.from_dict] and
    [InteractionContext.from_dict] of [dis_snek.models] are not among the
    sources. They build the context object from the payload, reading keys of
    it that [get_context] itself does not read, and may raise:
    [from_dict kind data] is [Some err] when the class method of [kind]
    raises [err] on [data], and [None] when it returns the context. *)
Variable from_dict : ContextKind → Interaction → option string.

(** The cache lookups of one option. Cached objects are truthy, so
    [a or b] is [a] whenever the lookup [a] hits. For [MENTIONABLE] the
    member cache is asked for the bare id, which is not a key of it. *)
Definition resolve_option (cache : GlobalCache) (guild_id : option Value) (o : Opt)
  : Error + Value :=
  let value := o_value o in
  if o_type o =? USER then
    match to_snowflake (default (VInt 0) guild_id), to_snowflake value with
    | Some gid, Some uid =>
        inr match member_cache cache !! (gid, uid) with
            | Some m => VMember m
            | None =>
                match user_cache cache !! uid with
                | Some u => VUser u
                | None => value
                end
            end
    | _, _ => inl SnowflakeError
    end
  else if o_type o =? CHANNEL then
    match to_snowflake value with
    | Some cid => inr (from_option VChannel value (channel_cache cache !! cid))
    | None => inl SnowflakeError
    end
  else if o_type o =? ROLE then
    match to_snowflake value with
    | Some rid => inr (from_option VRole value (role_cache cache !! rid))
    | None => inl SnowflakeError
    end
  else if o_type o =? MENTIONABLE then
    match to_snowflake value with
    | Some snow =>
        inr match user_cache cache !! snow with
            | Some u => VUser u
            | None => from_option VRole value (role_cache cache !! snow)
            end
    | None => inl SnowflakeError
    end
  else inr value.

(** [for option in options: ...]: the keyword arguments and the focused
    option, threaded through the loop. *)
Fixpoint resolve_options (cache : GlobalCache) (guild_id : option Value)
    (options : list Opt) (kw : list (string * Value)) (foc : option string)
  : Error + (list (string * Value) * option string) :=
  match options with
  | [] => inr (kw, foc)
  | o :: rest =>
      match resolve_option cache guild_id o with
      | inl e => inl e
      | inr value =>
          let foc' := if o_focused o then Some (o_name o) else foc in
          resolve_options cache guild_id rest (dict_set (lower (o_name o)) value kw) foc'
      end
  end.

(** The walk into a sub-command or a sub-command group: the invoked name
    and the options that carry the arguments. *)
Definition descend (name : string) (options : list Opt) : Error + (string * list Opt) :=
  match options with
  | [] => inr (name, [])
  | first :: _ =>
      if o_type first =? SUB_COMMAND then
        inr (name +:+ " " +:+ o_name first, default [] (o_options first))
      else if o_type first =? SUB_COMMAND_GROUP then
        match o_options first with
        | None => inl KeyError
        | Some subs =>
            match List.find (λ x, o_type x =? SUB_COMMAND) subs, subs with
            | Some sub, s0 :: _ =>
                inr (name +:+ " " +:+ o_name first +:+ " " +:+ o_name sub,
                     default [] (o_options s0))
            | _, _ => inl StopIteration
            end
        end
      else inr (name, options)
  end.

(** The context class that [get_context] picks for a payload. *)
Definition kind_of (type : Z) : ContextKind :=
  if type =? MESSAGE_COMPONENT then ComponentContext
  else if type =? AUTOCOMPLETE then AutocompleteContext
  else InteractionContext.

(** [get_context(data, interaction=True)]. *)
Definition get_context (cache : GlobalCache) (data : Interaction) : Error + Context :=
  match from_dict (kind_of (i_type data)) data with
  | Some err => inl (FromDictError err)
  | None =>
      if i_type data =? MESSAGE_COMPONENT then
        inr {| ctx_kind := ComponentContext; invoked_name := ""; kwargs := [];
               args := []; focussed_option := None |}
      else
        let kind := if i_type data =? AUTOCOMPLETE then AutocompleteContext
                    else InteractionContext in
        match descend (i_name data) (default [] (i_options data)) with
        | inl e => inl e
        | inr (name, options) =>
            match resolve_options cache (i_guild_id data) options [] None with
            | inl e => inl e
            | inr (kw, foc) =>
                inr {| ctx_kind := kind; invoked_name := name; kwargs := kw;
                       args := kw.*2; focussed_option := foc |}
            end
        end
  end.

End WithSnowflakes.

(** What a USER option with user id [uid], sent from guild [gid], is
    expected to resolve to: the cached member, else the cached user, else the
    value as sent. *)
Definition user_lookup (cache : GlobalCache) (gid uid : Z) (value : Value) : Value :=
  match member_cache cache !! (gid, uid) with
  | Some m => VMember m
  | None =>
      match user_cache cache !! uid with
      | Some u => VUser u
      | None => value
      end
  end.

(** *** Message commands *)

Record Author := { author_id : Z; bot : bool }.

Record Message := {
  author : Author;
  content : string
}.

Record MessageContext := {
  mc_message : Message;
  mc_invoked_name : string;
  mc_prefix : string;
  mc_args : list string
}.

(** A message command: its [enabled] flag and what awaiting its callback
    does ([Some err] when it raises). *)
Record MessageCommand := {
  enabled : bool;
  callback : MessageContext → option string
}.

(** The part of the client that the message path reads: the prefix
    resolver, the compiled mention pattern (its [search], giving the matched
    text) and the command table. *)
Record Client := {
  get_prefix : Message → string;
  _mention_reg : string → option string;
  commands : gmap string MessageCommand
}.

Inductive Step :=
| GetPrefix (m : Message)
| Invoke (name : string) (ctx : MessageContext)
| OnCommandError (source : string) (err : string)
| OnCommand (ctx : MessageContext).

(** [str.startswith] and [str.removeprefix]. *)
Definition startswith (s p : string) : bool := String.prefix p s.

Definition removeprefix (s p : string) : string :=
  if String.prefix p s
  then String.substring (String.length p) (String.length s - String.length p) s
  else s.

Section WithInputUtils.

(** [MENTION_PREFIX] of [dis_snek.const], [get_first_word] and [get_args]
    of [dis_snek.utils.input_utils], and the [content_parameters] property of
    the context are not among the sources. *)
Variable MENTION_PREFIX : string.
Variable get_first_word : string → option string.
Variable get_args : string → list string.
Variable content_parameters : Message → string → string → string.

(** The part of [_dispatch_msg_commands] below the prefix resolution. *)
Definition run_command (c : Client) (message : Message) (prefix : string) : list Step :=
  if startswith (content message) prefix then
    match get_first_word (removeprefix (content message) prefix) with
    | None => []
    | Some name =>
        match commands c !! name with
        | Some command =>
            if enabled command then
              let context :=
                {| mc_message := message; mc_invoked_name := name; mc_prefix := prefix;
                   mc_args := get_args (content_parameters message prefix name) |} in
              Invoke name context ::
              match callback command context with
              | Some err => [OnCommandError ("cmd `" +:+ name +:+ "`") err; OnCommand context]
              | None => [OnCommand context]
              end
            else []
        | None => []
        end
    end
  else [].

(** [_dispatch_msg_commands(event)], on [event.message]. *)
Definition _dispatch_msg_commands (c : Client) (message : Message) : list Step :=
  if negb (bot (author message)) then
    let prefix := get_prefix c message in
    GetPrefix message ::
    (if String.eqb prefix MENTION_PREFIX then
       match _mention_reg c (content message) with
       | Some mention => run_command c message mention
       | None => []
       end
     else run_command c message prefix)
  else [].

End WithInputUtils.

Definition is_get_prefix (s : Step) : bool :=
  match s with GetPrefix _ => true | _ => false end.

Definition is_invoke (s : Step) : bool :=
  match s with Invoke _ _ => true | _ => false end.

(** *** Scenarios *)

(** A [to_snowflake] for which ids are integers or strings of decimal
    digits; it raises on everything else. *)
Definition digit_of (c : ascii) : option Z :=
  let n := nat_of_ascii c in
  if (Nat.leb 48 n && Nat.leb n 57)%bool then Some (Z.of_nat n - 48) else None.

Fixpoint digits_to_Z (s : string) (acc : Z) : option Z :=
  match s with
  | EmptyString => Some acc
  | String c rest =>
      match digit_of c with
      | Some d => digits_to_Z rest (10 * acc + d)
      | None => None
      end
  end.

Definition snowflake_of (v : Value) : option Z :=
  match v with
  | VInt n => Some n
  | VStr EmptyString => None
  | VStr s => digits_to_Z s 0
  | _ => None
  end.

(** A [from_dict] that builds the context of a payload sent from a guild,
    and raises on a payload without guild id. *)
Definition from_guild (kind : ContextKind) (data : Interaction) : option string :=
  match i_guild_id data with
  | Some _ => None
  | None => Some "TypeError"
  end.

(** User 42 is cached as a user, and as a member of guild 1 only. *)
Definition cache0 : GlobalCache :=
  {| member_cache := {[ (1, 42) := {| member_nick := "ann" |} ]};
     user_cache := {[ 42 := {| user_tag := "ann#0001" |} ]};
     channel_cache := ∅;
     role_cache := ∅ |}.

Definition user_option (name id : string) : Opt :=
  MkOpt USER name (VStr id) false None.

(** A slash command "/greet Target:<id>" invoked in guild 2. *)
Definition greet (id : string) : Interaction :=
  {| i_type := APPLICATION_COMMAND; i_guild_id := Some (VStr "2");
     i_name := "greet"; i_options := Some [user_option "Target" id] |}.

(** A client with the command "ping", prefix "!". *)
Definition bot_client : Client :=
  {| get_prefix := λ _, "!";
     _mention_reg := λ _, None;
     commands := {[ "ping" := {| enabled := true; callback := λ _, None |} ]} |}.

Definition first_word (s : string) : option string :=
  if String.eqb s "" then None else Some s.

Definition from_other_bot : Message :=
  {| author := {| author_id := 99; bot := true |}; content := "!ping" |}.

Definition from_human : Message :=
  {| author := {| author_id := 5; bot := false |}; content := "!ping" |}.

End Router.

(* ===================================================================== *)
(** ** Command reconciliation *)
(* ===================================================================== *)

Module Reconciler.

(** A registration scope: the global marker or a guild id. *)
Inductive Scope :=
| GLOBAL_SCOPE
| Guild (id : Z).

#[global] Instance Scope_eq_dec : EqDecision Scope.
Proof. solve_decision. Defined.

(** A command payload of the remote registry: the keys the client reads
    ([id], [name], [guild_id], [options] with their [type], [name] and nested
    [options]) and the rest of the payload as [r_body]. *)
Record SubCommand := { sc_name : string }.

#[global] Instance SubCommand_eq_dec : EqDecision SubCommand.
Proof. solve_decision. Defined.

Record CmdOption := {
  opt_type : Z;
  opt_name : string;
  opt_options : option (list SubCommand)
}.

#[global] Instance CmdOption_eq_dec : EqDecision CmdOption.
Proof. solve_decision. Defined.

Record RemoteCmd := {
  r_id : string;
  r_name : string;
  r_guild_id : option Z;
  r_options : option (list CmdOption);
  r_body : string
}.

#[global] Instance RemoteCmd_eq_dec : EqDecision RemoteCmd.
Proof. solve_decision. Defined.

(** The serialized form of a local top-level command. *)
Record CmdJson := {
  j_name : string;
  j_body : string
}.

#[global] Instance CmdJson_eq_dec : EqDecision CmdJson.
Proof. solve_decision. Defined.

Record Permission := {
  perm_guild_id : Z;
  perm_dict : string      (* [perm.to_dict()] *)
}.

(** A command object. [ref] is its identity: the same object may be
    registered under several scopes. Its [cmd_id] attribute is mutable and
    lives in the client's store, keyed by [ref]. *)
Record InteractionCommand := {
  ref : nat;
  name : string;
  permissions : list Permission
}.

(** [{"id": local_cmd.cmd_id, "permissions": [...]}] *)
Record PermEntry := {
  pe_id : option string;
  pe_permissions : list string
}.

Record Client := {
  interactions : list (Scope * list (string * InteractionCommand));
  cmd_id : gmap nat string;
  _interaction_scopes : gmap string Scope;
  guild_cache : list Z;
  _guild_ids : list Z;
  del_unused_app_cmd : bool
}.

(** Lookup in an insertion-ordered dict. *)
Fixpoint assoc {K V} `{EqDecision K} (key : K) (d : list (K * V)) : option V :=
  match d with
  | [] => None
  | (k, v) :: rest => if decide (k = key) then Some v else assoc key rest
  end.

Definition set_cmd_id (r : nat) (id : string) (c : Client) : Client :=
  {| interactions := interactions c; cmd_id := <[r := id]> (cmd_id c);
     _interaction_scopes := _interaction_scopes c; guild_cache := guild_cache c;
     _guild_ids := _guild_ids c; del_unused_app_cmd := del_unused_app_cmd c |}.

Definition set_scope (id : string) (scope : Scope) (c : Client) : Client :=
  {| interactions := interactions c; cmd_id := cmd_id c;
     _interaction_scopes := <[id := scope]> (_interaction_scopes c);
     guild_cache := guild_cache c;
     _guild_ids := _guild_ids c; del_unused_app_cmd := del_unused_app_cmd c |}.

(** The calls of the HTTP client. *)
Inductive Request :=
| Get (scope : Scope)
| Post (scope : Scope) (cmds : list CmdJson)
| SetPermissions (guild : Z) (data : list PermEntry)
| Delete (scope : Scope) (id : string).

Definition is_write (r : Request) : bool :=
  match r with Get _ => false | _ => true end.

Definition is_set_permissions (r : Request) : bool :=
  match r with SetPermissions _ _ => true | _ => false end.

Inductive Response (A : Type) :=
| ROk (a : A)
| RForbidden
| RError.
Arguments ROk {A} a.
Arguments RForbidden {A}.
Arguments RError {A}.

(** The remote side: what each call answers, given the calls made so far. *)
Record Http := {
  get_interaction_element : list Request → Scope → Response (list RemoteCmd);
  post_interaction_element :
    list Request → Scope → list CmdJson → Response (list RemoteCmd);
  batch_edit_application_command_permissions :
    list Request → Z → list PermEntry → Response unit;
  delete_interaction_element : list Request → Scope → string → Response unit
}.

Inductive Exn :=
| Forbidden
| InteractionMissingAccess (scope : Scope)
| KeyError
| StopIteration
| HTTPException.

(** The state a coroutine runs in: the client and the calls made so far. *)
Record St := {
  cl : Client;
  hist : list Request
}.

Definition M (A : Type) : Type := St → (Exn + A) * St.

Definition ret {A} (a : A) : M A := λ s, (inr a, s).

Definition raise {A} (e : Exn) : M A := λ s, (inl e, s).

Definition bind {A B} (m : M A) (k : A → M B) : M B :=
  λ s, match m s with
       | (inl e, s') => (inl e, s')
       | (inr a, s') => k a s'
       end.

Notation "'do' x <- m ; k" := (bind m (λ x, k))
  (at level 10, x name, m at level 100, k at level 200, only parsing).
Notation "'exec' m ; k" := (bind m (λ _, k))
  (at level 10, m at level 100, k at level 200, only parsing).

Definition modify (f : Client → Client) : M unit :=
  λ s, (inr tt, {| cl := f (cl s); hist := hist s |}).

Definition get_client : M Client := λ s, (inr (cl s), s).

(** [for x in l: body(x)] *)
Fixpoint for_each {A} (l : list A) (body : A → M unit) : M unit :=
  match l with
  | [] => ret tt
  | x :: rest => exec body x; for_each rest body
  end.

(** [try: m except Forbidden: raise InteractionMissingAccess(scope)] *)
Definition missing_access_on_forbidden {A} (scope : Scope) (m : M A) : M A :=
  λ s, match m s with
       | (inl Forbidden, s') => (inl (InteractionMissingAccess scope), s')
       | r => r
       end.

Definition answer {A} (r : Response A) : Exn + A :=
  match r with
  | ROk a => inr a
  | RForbidden => inl Forbidden
  | RError => inl HTTPException
  end.

Definition call {A} (req : Request) (resp : list Request → Response A) : M A :=
  λ s, (answer (resp (hist s)), {| cl := cl s; hist := hist s ++ [req] |}).

(** [{cmd_data["name"]: cmd_data for cmd_data in remote_cmds}.get(name)]:
    of two payloads of one name the dict keeps the later. *)
Definition remote_by_name (remote_cmds : list RemoteCmd) (n : string) : option RemoteCmd :=
  List.find (λ r, String.eqb (r_name r) n) (rev remote_cmds).

(** [cmd.get("guild_id", GLOBAL_SCOPE)] *)
Definition scope_of (cmd : RemoteCmd) : Scope :=
  match r_guild_id cmd with
  | Some g => Guild g
  | None => GLOBAL_SCOPE
  end.

(** [guild_perms[g].append(entry)], creating the list when [g] is new. *)
Fixpoint add_perm (guild_perms : list (Z * list PermEntry)) (g : Z) (entry : PermEntry)
  : list (Z * list PermEntry) :=
  match guild_perms with
  | [] => [(g, [entry])]
  | (k, es) :: rest =>
      if decide (k = g) then (k, es ++ [entry]) :: rest
      else (k, es) :: add_perm rest g entry
  end.

(** The permission loop over the local commands of one scope. *)
Definition collect_perms (c : Client) (locals : list InteractionCommand)
    (guild_perms : list (Z * list PermEntry)) : list (Z * list PermEntry) :=
  foldl (λ gp local_cmd,
           foldl (λ gp perm,
                    add_perm gp (perm_guild_id perm)
                      {| pe_id := cmd_id c !! ref local_cmd;
                         pe_permissions := map perm_dict (permissions local_cmd) |})
                 gp (permissions local_cmd))
        guild_perms locals.

(** The state of the comparison loop. *)
Record Scan := {
  need_to_sync : bool;
  cmds_to_sync : list CmdJson;
  found : list (option RemoteCmd)
}.

Section WithEnvironment.

Variable http : Http.

(** [sync_needed] and [application_commands_to_dict] of [dis_snek.models]
    are not among the sources. The latter maps the registered commands to
    their serialized forms per scope ([None]: the scope is no key of the
    result). *)
Variable sync_needed : CmdJson → option RemoteCmd → bool.
Variable application_commands_to_dict :
  list (Scope * list (string * InteractionCommand)) → Scope → option (list CmdJson).

Definition http_get (scope : Scope) : M (list RemoteCmd) :=
  call (Get scope) (λ h, get_interaction_element http h scope).

Definition http_post (scope : Scope) (cmds : list CmdJson) : M (list RemoteCmd) :=
  call (Post scope cmds) (λ h, post_interaction_element http h scope cmds).

Definition http_set_permissions (g : Z) (data : list PermEntry) : M unit :=
  call (SetPermissions g data)
       (λ h, batch_edit_application_command_permissions http h g data).

Definition http_delete (scope : Scope) (id : string) : M unit :=
  call (Delete scope id) (λ h, delete_interaction_element http h scope id).

(** *** [_cache_interactions] *)

(** The inner loop over the commands registered under [scope]. *)
Definition cache_cmd (scope : Scope) (remote_cmds : list RemoteCmd)
    (cmd : InteractionCommand) : M unit :=
  match remote_by_name remote_cmds (name cmd) with
  | None => ret tt
  | Some cmd_data =>
      modify (λ c, set_cmd_id (ref cmd) (r_id cmd_data)
                     (set_scope (r_id cmd_data) scope c))
  end.

(** The body of the first loop: a forbidden answer is raised as
    [InteractionMissingAccess(scope)]. *)
Definition cache_registered (entry : Scope * list (string * InteractionCommand)) : M unit :=
  let scope := fst entry in
  do remote_cmds <- missing_access_on_forbidden scope (http_get scope);
  for_each (map snd (snd entry)) (cache_cmd scope remote_cmds).

(** The body of the second loop: a forbidden answer is skipped. *)
Definition cache_unregistered (scope : Scope) : M unit :=
  λ s, match http_get scope s with
       | (inl Forbidden, s') => (inr tt, s')
       | (inl e, s') => (inl e, s')
       | (inr remote_cmds, s') =>
           for_each remote_cmds (λ cmd_data, modify (set_scope (r_id cmd_data) scope)) s'
       end.

(** The scopes the bot is in that have no registered interaction. Python
    iterates this set in an order of its own; here it is the order of the
    guild cache, the global scope last. *)
Definition bot_scopes (c : Client) : list Scope :=
  filter (λ scope, scope ∉ map fst (interactions c))
         (remove_dups (map Guild (guild_cache c) ++ [GLOBAL_SCOPE])).

Definition _cache_interactions : M unit :=
  do c <- get_client;
  exec for_each (interactions c) cache_registered;
  for_each (bot_scopes c) cache_unregistered.

(** *** [synchronise_interactions] *)

(** The comparison loop over the local commands of a scope. *)
Fixpoint compare (c : Client) (json : option (list CmdJson))
    (cmds_resp_data : list RemoteCmd) (locals : list InteractionCommand) (acc : Scan)
  : Exn + Scan :=
  match locals with
  | [] => inr acc
  | local_cmd :: rest =>
      let remote_cmd :=
        List.find (λ v, bool_decide (Some (r_id v) = cmd_id c !! ref local_cmd))
                  cmds_resp_data in
      match json with
      | None => inl KeyError
      | Some js =>
          match List.find (λ j, String.eqb (j_name j) (name local_cmd)) js with
          | None => inl StopIteration
          | Some local_json =>
              compare c json cmds_resp_data rest
                {| need_to_sync := need_to_sync acc || sync_needed local_json remote_cmd;
                   cmds_to_sync :=
                     if bool_decide (local_json ∈ cmds_to_sync acc)
                     then cmds_to_sync acc else cmds_to_sync acc ++ [local_json];
                   found :=
                     if bool_decide (remote_cmd ∈ found acc)
                     then found acc else found acc ++ [remote_cmd] |}
          end
      end
  end.

Definition lift {A} (r : Exn + A) : M A := λ s, (r, s).

(** [if key in self.interactions[cmd_scope]: ....cmd_id = id] *)
Definition set_id_if_registered (scope : Scope) (key : string) (id : string) : M unit :=
  do c <- get_client;
  match assoc scope (interactions c) with
  | None => raise KeyError
  | Some locals =>
      match assoc key locals with
      | Some cmd => modify (set_cmd_id (ref cmd) id)
      | None => ret tt
      end
  end.

(** The id caching for one payload of the bulk answer. *)
Definition cache_posted (scope : Scope) (cmd_data : RemoteCmd) : M unit :=
  exec modify (set_scope (r_id cmd_data) scope);
  do c <- get_client;
  match assoc scope (interactions c) with
  | None => raise KeyError
  | Some locals =>
      match assoc (r_name cmd_data) locals with
      | Some cmd => modify (set_cmd_id (ref cmd) (r_id cmd_data))
      | None =>
          match r_options cmd_data with
          | None => raise KeyError
          | Some options =>
              for_each options (λ sc,
                if opt_type sc =? Router.SUB_COMMAND then
                  set_id_if_registered scope
                    (r_name cmd_data +:+ " " +:+ opt_name sc) (r_id cmd_data)
                else if opt_type sc =? Router.SUB_COMMAND_GROUP then
                  match opt_options sc with
                  | None => raise KeyError
                  | Some subs =>
                      for_each subs (λ _sc,
                        set_id_if_registered scope
                          (r_name cmd_data +:+ " " +:+ opt_name sc +:+ " " +:+ sc_name _sc)
                          (r_id cmd_data))
                  end
                else ret tt)
          end
      end
  end.

(** The remote commands that no local command was matched with. *)
Definition unmatched (cmds_resp_data : list RemoteCmd) (fnd : list (option RemoteCmd))
  : list RemoteCmd :=
  filter (λ c, Some c ∉ fnd) cmds_resp_data.

(** The body of the [try] for one scope; [guild_perms] is the dict that
    the whole pass shares. *)
Definition sync_body (cmds_json : Scope → option (list CmdJson)) (cmd_scope : Scope)
    (guild_perms : list (Z * list PermEntry)) : M (list (Z * list PermEntry)) :=
  do cmds_resp_data <- http_get cmd_scope;
  do c <- get_client;
  let locals := map snd (default [] (assoc cmd_scope (interactions c))) in
  do scan <- lift (compare c (cmds_json cmd_scope) cmds_resp_data locals
                     {| need_to_sync := false; cmds_to_sync := []; found := [] |});
  exec (if need_to_sync scan then
          do cmd_sync_resp <- http_post cmd_scope (cmds_to_sync scan);
          for_each cmd_sync_resp (cache_posted cmd_scope)
        else ret tt);
  do c' <- get_client;
  let guild_perms' := collect_perms c' locals guild_perms in
  exec for_each guild_perms' (λ entry, http_set_permissions (fst entry) (snd entry));
  exec (if del_unused_app_cmd c' then
          for_each (unmatched cmds_resp_data (found scan))
                   (λ cmd, http_delete (scope_of cmd) (r_id cmd))
        else ret tt);
  ret guild_perms'.

(** [for cmd_scope in cmd_scopes: try: ... except Forbidden: raise ...];
    the result is [guild_perms] as the loop leaves it. *)
Fixpoint sync_scopes (cmds_json : Scope → option (list CmdJson)) (cmd_scopes : list Scope)
    (guild_perms : list (Z * list PermEntry)) : M (list (Z * list PermEntry)) :=
  match cmd_scopes with
  | [] => ret guild_perms
  | cmd_scope :: rest =>
      do guild_perms' <- missing_access_on_forbidden cmd_scope
                           (sync_body cmds_json cmd_scope guild_perms);
      sync_scopes cmds_json rest guild_perms'
  end.

Definition cmd_scopes_of (c : Client) : list Scope :=
  map Guild (_guild_ids c) ++ [GLOBAL_SCOPE].

Definition synchronise_interactions : M unit :=
  exec _cache_interactions;
  do c <- get_client;
  exec sync_scopes (application_commands_to_dict (interactions c)) (cmd_scopes_of c) [];
  ret tt.

End WithEnvironment.

(** The local commands registered under a scope. *)
Definition locals_of (c : Client) (scope : Scope) : list InteractionCommand :=
  map snd (default [] (assoc scope (interactions c))).

(** [appends P m]: running [m] only adds calls that satisfy [P] to the
    history, and leaves the table of registered commands as it is. *)
Definition appends {A} (P : Request → Prop) (m : M A) : Prop :=
  ∀ s r s', m s = (r, s') →
    interactions (cl s') = interactions (cl s)
    ∧ ∃ new, hist s' = hist s ++ new ∧ Forall P new.

(** The calls that a run adds to the history, and the writes among them. *)
Definition run {A} (m : M A) (c : Client) (h : list Request) : (Exn + A) * St :=
  m {| cl := c; hist := h |}.

Definition writes (h : list Request) : list Request :=
  filter (λ r, is_write r = true) h.

(** *** Scenarios *)

Definition ping : InteractionCommand :=
  {| ref := 0; name := "ping";
     permissions := [{| perm_guild_id := 1; perm_dict := "role 5: allow" |}] |}.

Definition ping_remote : RemoteCmd :=
  {| r_id := "900"; r_name := "ping"; r_guild_id := None; r_options := None;
     r_body := "" |}.

(** Serialization by name, and a comparison that finds a difference when
    there is no remote entry or the names differ. *)
Definition to_dict_by_name (table : list (Scope * list (string * InteractionCommand)))
    (scope : Scope) : option (list CmdJson) :=
  (λ cmds, map (λ e, {| j_name := name (snd e); j_body := "" |}) cmds) <$> assoc scope table.

Definition differs (local_cmd : CmdJson) (remote_cmd : option RemoteCmd) : bool :=
  match remote_cmd with
  | None => true
  | Some r => negb (String.eqb (j_name local_cmd) (r_name r))
  end.

(** A remote side whose global registry holds "ping" and stays as it is. *)
Definition steady_remote : Http :=
  {| get_interaction_element := λ _ scope,
       match scope with GLOBAL_SCOPE => ROk [ping_remote] | Guild _ => ROk [] end;
     post_interaction_element := λ _ _ _, ROk [];
     batch_edit_application_command_permissions := λ _ _ _, ROk tt;
     delete_interaction_element := λ _ _ _, ROk tt |}.


(** The same command without permission overwrites. *)
Definition plain_ping : InteractionCommand :=
  {| ref := 0; name := "ping"; permissions := [] |}.

Definition plain_client : Client :=
  {| interactions := [(GLOBAL_SCOPE, [("ping", plain_ping)])];
     cmd_id := {[ 0%nat := "900" ]};
     _interaction_scopes := {[ "900" := GLOBAL_SCOPE ]};
     guild_cache := []; _guild_ids := []; del_unused_app_cmd := true |}.

(** A remote side that refuses guild 1 and has no global command yet. *)
Definition guild_1_forbidden : Http :=
  {| get_interaction_element := λ _ scope,
       match scope with GLOBAL_SCOPE => ROk [] | Guild _ => RForbidden end;
     post_interaction_element := λ _ _ _, ROk [ping_remote];
     batch_edit_application_command_permissions := λ _ _ _, ROk tt;
     delete_interaction_element := λ _ _ _, ROk tt |}.

(** The same remote side when every guild answers. *)
Definition all_allowed : Http :=
  {| get_interaction_element := λ _ _, ROk [];
     post_interaction_element := λ _ _ _, ROk [ping_remote];
     batch_edit_application_command_permissions := λ _ _ _, ROk tt;
     delete_interaction_element := λ _ _ _, ROk tt |}.

(** A client in guild 1 with the global command "ping", not yet synced. *)
Definition fresh_client : Client :=
  {| interactions := [(GLOBAL_SCOPE, [("ping", plain_ping)])];
     cmd_id := ∅;
     _interaction_scopes := ∅;
     guild_cache := [1]; _guild_ids := [1]; del_unused_app_cmd := false |}.


(** A remote side that holds no command until the global commands are
    posted, and "ping" from then on. *)
Definition global_posted (h : list Request) : bool :=
  existsb (λ q, match q with Post GLOBAL_SCOPE _ => true | _ => false end) h.

Definition registering_remote : Http :=
  {| get_interaction_element := λ h scope,
       match scope with
       | GLOBAL_SCOPE => ROk (if global_posted h then [ping_remote] else [])
       | Guild _ => ROk []
       end;
     post_interaction_element := λ _ _ _, ROk [ping_remote];
     batch_edit_application_command_permissions := λ _ _ _, ROk tt;
     delete_interaction_element := λ _ _ _, ROk tt |}.

(** The client of [synced_client] before its first pass: no id is cached
    yet. *)
Definition unsynced_client : Client :=
  {| interactions := [(GLOBAL_SCOPE, [("ping", ping)])];
     cmd_id := ∅;
     _interaction_scopes := ∅;
     guild_cache := []; _guild_ids := []; del_unused_app_cmd := true |}.

(** The command "ping" as a guild holds it. *)
Definition guild_ping (id : string) (guild : Z) : RemoteCmd :=
  {| r_id := id; r_name := "ping"; r_guild_id := Some guild; r_options := None;
     r_body := "" |}.

(** A remote side on which the guilds 1 and 2 each hold "ping", under an id
    of their own, and which stays as it is. *)
Definition two_guilds : Http :=
  let held scope :=
    match scope with
    | Guild 1 => [guild_ping "901" 1]
    | Guild 2 => [guild_ping "902" 2]
    | _ => []
    end in
  {| get_interaction_element := λ _ scope, ROk (held scope);
     post_interaction_element := λ _ scope _, ROk (held scope);
     batch_edit_application_command_permissions := λ _ _ _, ROk tt;
     delete_interaction_element := λ _ _ _, ROk tt |}.

(** A client on which one command object, with the scopes 1 and 2, is
    registered under both guilds, as [add_interaction] does. *)
Definition shared_client : Client :=
  {| interactions := [(Guild 1, [("ping", plain_ping)]); (Guild 2, [("ping", plain_ping)])];
     cmd_id := ∅;
     _interaction_scopes := ∅;
     guild_cache := [1; 2]; _guild_ids := [1; 2]; del_unused_app_cmd := false |}.

End Reconciler.

(* ===================================================================== *)
(** ** Notions used to state properties of the router *)
(* ===================================================================== *)

Module RouterNotions.
Import Router.

(** The options of a kind other than those whose value the cache may
    replace. *)
Definition plain (o : Opt) : Prop :=
  o_type o ≠ USER ∧ o_type o ≠ CHANNEL ∧ o_type o ≠ ROLE ∧ o_type o ≠ MENTIONABLE.

(** The context with another invoked name. *)
Definition renamed (n : string) (r : Error + Context) : Error + Context :=
  match r with
  | inl e => inl e
  | inr ctx =>
      inr {| ctx_kind := ctx_kind ctx; invoked_name := n; kwargs := kwargs ctx;
             args := args ctx; focussed_option := focussed_option ctx |}
  end.

End RouterNotions.

(* ===================================================================== *)
(** ** Notions used to state properties of the reconciliation *)
(* ===================================================================== *)

Module ReconcilerNotions.
Import Reconciler.

Definition is_post (r : Request) : bool :=
  match r with Post _ _ => true | _ => false end.

Definition is_delete (r : Request) : bool :=
  match r with Delete _ _ => true | _ => false end.

(** [keeps I P m]: started on a client that satisfies [I], the computation
    [m] ends on a client that satisfies [I], and the calls it adds to the
    history all satisfy [P]. *)
Definition keeps {A} (I : Client → Prop) (P : Request → Prop) (m : M A) : Prop :=
  ∀ s r s', I (cl s) → m s = (r, s') →
    I (cl s') ∧ ∃ new, hist s' = hist s ++ new ∧ Forall P new.

(** The bulk posts among the calls. *)
Definition posts (h : list Request) : list Request :=
  filter (λ r, is_post r = true) h.





End ReconcilerNotions.

(* ===================================================================== *)
(** ** Registration of listeners, commands and component callbacks *)
(* ===================================================================== *)

Module Registry.

Inductive Error := ValueError.

(** A [Listener] object: the event it listens to and the coroutine. *)
Record Listener := {
  event : string;
  handler : Events.Listener
}.

(** A message command as it is registered: its name and the command. *)
Record MessageCommand := {
  name : string;
  command : Router.MessageCommand
}.

(** A component command: the custom ids it listens for, and a tag that
    tells the commands apart. *)
Record ComponentCommand := {
  listeners_of : list string;
  tag : nat
}.

(** An entry of [command.checks]: a check of the user's, or the command's
    own [_permission_enforcer]. *)
Inductive Check :=
| UserCheck (n : nat)
| PermissionEnforcer.

(** The attributes of an interaction command that registration reads and
    writes. *)
Record InteractionCommand := {
  resolved_name : string;
  scopes : list Reconciler.Scope;
  checks : list Check
}.

(** The client during registration. Interaction commands are objects, named
    by their key in [objects]; [interactions] holds those keys, so that a
    command registered under several scopes is one object. *)
Record State := {
  debug_scope : option Reconciler.Scope;
  enforce_interaction_perms : bool;
  objects : gmap nat InteractionCommand;
  interactions : list (Reconciler.Scope * list (string * nat));
  commands : gmap string Router.MessageCommand;
  _component_callbacks : gmap string ComponentCommand;
  listeners : gmap string (list Events.Listener)
}.

Definition set_objects (st : State) (o : gmap nat InteractionCommand) : State :=
  {| debug_scope := debug_scope st;
     enforce_interaction_perms := enforce_interaction_perms st;
     objects := o; interactions := interactions st; commands := commands st;
     _component_callbacks := _component_callbacks st; listeners := listeners st |}.

Definition set_interactions (st : State)
    (i : list (Reconciler.Scope * list (string * nat))) : State :=
  {| debug_scope := debug_scope st;
     enforce_interaction_perms := enforce_interaction_perms st;
     objects := objects st; interactions := i; commands := commands st;
     _component_callbacks := _component_callbacks st; listeners := listeners st |}.

Definition set_commands (st : State) (m : gmap string Router.MessageCommand) : State :=
  {| debug_scope := debug_scope st;
     enforce_interaction_perms := enforce_interaction_perms st;
     objects := objects st; interactions := interactions st; commands := m;
     _component_callbacks := _component_callbacks st; listeners := listeners st |}.

Definition set_component_callbacks (st : State) (m : gmap string ComponentCommand)
  : State :=
  {| debug_scope := debug_scope st;
     enforce_interaction_perms := enforce_interaction_perms st;
     objects := objects st; interactions := interactions st; commands := commands st;
     _component_callbacks := m; listeners := listeners st |}.

Definition set_listeners (st : State) (m : gmap string (list Events.Listener)) : State :=
  {| debug_scope := debug_scope st;
     enforce_interaction_perms := enforce_interaction_perms st;
     objects := objects st; interactions := interactions st; commands := commands st;
     _component_callbacks := _component_callbacks st; listeners := m |}.

(** [d[key] = value] on an insertion-ordered dict. *)
Fixpoint dict_put {K V} `{EqDecision K} (key : K) (value : V) (d : list (K * V))
  : list (K * V) :=
  match d with
  | [] => [(key, value)]
  | (k, v) :: rest =>
      if decide (k = key) then (k, value) :: rest
      else (k, v) :: dict_put key value rest
  end.

(** [add_listener]: the listener goes to the end of the list of its
    event. *)
Definition add_listener (table : gmap string (list Events.Listener)) (listener : Listener)
  : gmap string (list Events.Listener) :=
  <[event listener := default [] (table !! event listener) ++ [handler listener]]> table.

(** [add_message_command] *)
Definition add_message_command (table : gmap string Router.MessageCommand)
    (cmd : MessageCommand) : Error + gmap string Router.MessageCommand :=
  match table !! name cmd with
  | None => inr (<[name cmd := command cmd]> table)
  | Some _ => inl ValueError
  end.

(** [add_component_callback]: the loop over [command.listeners]. The table
    is returned as the loop leaves it, also when it raises. *)
Fixpoint add_component_listeners (table : gmap string ComponentCommand)
    (cmd : ComponentCommand) (ids : list string)
  : gmap string ComponentCommand * option Error :=
  match ids with
  | [] => (table, None)
  | listener :: rest =>
      match table !! listener with
      | None => add_component_listeners (<[listener := cmd]> table) cmd rest
      | Some _ => (table, Some ValueError)
      end
  end.

Definition add_component_callback (table : gmap string ComponentCommand)
    (cmd : ComponentCommand) : gmap string ComponentCommand * option Error :=
  add_component_listeners table cmd (listeners_of cmd).

(** [command.checks.append(command._permission_enforcer)] *)
Definition append_enforcer (cmd : InteractionCommand) : InteractionCommand :=
  {| resolved_name := resolved_name cmd; scopes := scopes cmd;
     checks := checks cmd ++ [PermissionEnforcer] |}.

(** [command.scopes = [self.debug_scope]] *)
Definition with_scopes (cmd : InteractionCommand) (l : list Reconciler.Scope)
  : InteractionCommand :=
  {| resolved_name := resolved_name cmd; scopes := l; checks := checks cmd |}.

(** The loop of [add_interaction] over [command.scopes], for the command
    object [r] whose resolved name is [key]. *)
Fixpoint register_scopes (st : State) (r : nat) (key : string)
    (l : list Reconciler.Scope) : State * option Error :=
  match l with
  | [] => (st, None)
  | scope :: rest =>
      let table := Reconciler.assoc scope (interactions st) in
      if bool_decide (is_Some (table ≫= Reconciler.assoc key)) then
        (st, Some ValueError)
      else
        let st1 :=
          if enforce_interaction_perms st
          then set_objects st (alter append_enforcer r (objects st))
          else st in
        let st2 :=
          set_interactions st1
            (dict_put scope (dict_put key r (default [] table)) (interactions st1)) in
        register_scopes st2 r key rest
  end.

(** [add_interaction(command)], for the command object [r]. *)
Definition add_interaction (st : State) (r : nat) : State * option Error :=
  match objects st !! r with
  | None => (st, None)
  | Some cmd =>
      match debug_scope st with
      | Some d =>
          register_scopes (set_objects st (<[r := with_scopes cmd [d]]> (objects st)))
                          r (resolved_name cmd) [d]
      | None => register_scopes st r (resolved_name cmd) (scopes cmd)
      end
  end.

(** What [_gather_commands] finds: commands and listeners. *)
Inductive Registrable :=
| RComponent (c : ComponentCommand)
| RInteraction (r : nat)
| RMessage (m : MessageCommand)
| RListener (l : Listener).

(** [process(_cmds)] of [_gather_commands]: the first failure ends it. *)
Fixpoint process (st : State) (cmds : list Registrable) : State * option Error :=
  match cmds with
  | [] => (st, None)
  | func :: rest =>
      let '(st1, err) :=
        match func with
        | RComponent c =>
            let '(t, e) := add_component_callback (_component_callbacks st) c in
            (set_component_callbacks st t, e)
        | RInteraction r => add_interaction st r
        | RMessage m =>
            match add_message_command (commands st) m with
            | inr t => (set_commands st t, None)
            | inl e => (st, Some e)
            end
        | RListener l => (set_listeners st (add_listener (listeners st) l), None)
        end in
      match err with
      | Some e => (st1, Some e)
      | None => process st1 rest
      end
  end.

(** [_gather_commands]: the members of [__main__], then those of the
    client. *)
Definition _gather_commands (st : State) (main_members self_members : list Registrable)
  : State * option Error :=
  match process st main_members with
  | (st1, Some e) => (st1, Some e)
  | (st1, None) => process st1 self_members
  end.

(** The names of the message commands among what is registered. *)
Definition message_names (cmds : list Registrable) : list string :=
  omap (λ f, match f with RMessage m => Some (name m) | _ => None end) cmds.

(** The command registered for a name under a scope. *)
Definition registered (st : State) (scope : Reconciler.Scope) (key : string)
  : option nat :=
  Reconciler.assoc scope (interactions st) ≫= Reconciler.assoc key.

(** The state after one round of the loop of [add_interaction]. *)
Definition round (st : State) (r : nat) (key : string) (scope : Reconciler.Scope)
  : State :=
  let st1 := if enforce_interaction_perms st
             then set_objects st (alter append_enforcer r (objects st)) else st in
  set_interactions st1
    (dict_put scope
       (dict_put key r (default [] (Reconciler.assoc scope (interactions st))))
       (interactions st1)).

(** [add_listener] on the client that [dispatch] runs on. *)
Definition client_add_listener (c : Events.Client) (listener : Listener) : Events.Client :=
  {| Events.loop_running := Events.loop_running c;
     Events.listeners := add_listener (Events.listeners c) listener;
     Events.waits := Events.waits c;
     Events.futures := Events.futures c |}.

(** The scopes [add_interaction] registers a command under. *)
Definition effective_scopes (st : State) (cmd : InteractionCommand)
  : list Reconciler.Scope :=
  match debug_scope st with
  | Some d => [d]
  | None => scopes cmd
  end.

(** *** Scenarios *)

Definition empty_state : State :=
  {| debug_scope := None; enforce_interaction_perms := true;
     objects := {[ 0%nat := {| resolved_name := "ping";
                               scopes := [Reconciler.GLOBAL_SCOPE; Reconciler.Guild 1];
                               checks := [UserCheck 0] |} ]};
     interactions := []; commands := ∅; _component_callbacks := ∅; listeners := ∅ |}.

Definition ping_command : MessageCommand :=
  {| name := "ping";
     command := {| Router.enabled := true; Router.callback := λ _, None |} |}.

Definition pong_command : MessageCommand :=
  {| name := "pong";
     command := {| Router.enabled := true; Router.callback := λ _, None |} |}.

Definition two_buttons : ComponentCommand :=
  {| listeners_of := ["ok"; "cancel"; "ok"; "help"]; tag := 1 |}.

End Registry.

(* ===================================================================== *)
(** ** Dispatch of interactions *)
(* ===================================================================== *)

Module InteractionDispatch.

(** The raw payload: what [get_context] reads of it, and the keys that
    [_dispatch_interaction] reads itself ([data["data"]["id"]] as a string,
    the custom id of the component context, [data["data"]["component_type"]]). *)
Record RawInteraction := {
  data : Router.Interaction;
  interaction_id : string;
  custom_id : string;
  component_type : Z
}.

(** A slash command: what awaiting the command, or one of its autocomplete
    callbacks, does with a context. *)
Record SlashCommand := {
  call : Router.Context → Events.Outcome;
  autocomplete_callbacks : gmap string (Router.Context → Events.Outcome)
}.

Record Client := {
  interactions : list (Reconciler.Scope * list (string * SlashCommand));
  _interaction_scopes : gmap string Reconciler.Scope;
  _component_callbacks : gmap string (Router.Context → Events.Outcome)
}.

Inductive Event := Component | Button | Select.

Inductive Error :=
| NotImplementedError
| KeyError
| ContextError (e : Router.Error)
| DispatchError (msg : string)
| CancelledError
| BaseExceptionRaised (err : string).

Inductive Step :=
| LogUnknown (id : string)
| Command (name : string)
| OnCommandError (name : string) (err : string)
| OnCommand (name : string)
| Autocomplete (name opt : string)
| OnAutocompleteError (name opt : string) (err : string)
| OnAutocomplete (name : string)
| Dispatch (e : Event)
| Callback (id : string)
| OnComponentError (id : string) (err : string)
| OnComponent (id : string).

(** [try: await handler except Exception as e: await on_error(ctx, e)
    finally: await after(ctx)]. A cancellation, like every other
    [BaseException], is no [Exception]: the [finally] clause runs and the
    exception goes on. *)
Definition guarded (handler : Step) (on_error : string → Step) (after : Step)
    (outcome : Events.Outcome) : list Step * option Error :=
  match outcome with
  | Events.Returns => ([handler; after], None)
  | Events.RaisesException err => ([handler; on_error err; after], None)
  | Events.RaisesCancelled => ([handler; after], Some CancelledError)
  | Events.RaisesBaseException err _ => ([handler; after], Some (BaseExceptionRaised err))
  end.

Section WithEnvironment.

Variable to_snowflake : Router.Value → option Z.
Variable from_dict : Router.ContextKind → Router.Interaction → option string.
Variable cache : Router.GlobalCache.

(** [ComponentTypes.BUTTON] and [ComponentTypes.SELECT] of
    [dis_snek.models.enums] are not among the sources. *)
Variable BUTTON : Z.
Variable SELECT : Z.

(** [self.dispatch(event)] as this coroutine sees it: whether it raises. *)
Variable dispatch : Event → option string.

Definition dispatch_event (e : Event) : list Step * option Error :=
  match dispatch e with
  | None => ([Dispatch e], None)
  | Some msg => ([Dispatch e], Some (DispatchError msg))
  end.

(** Sequencing of two parts of the coroutine. *)
Definition and_then (a : list Step * option Error) (b : list Step * option Error)
  : list Step * option Error :=
  match a with
  | (steps, Some e) => (steps, Some e)
  | (steps, None) => (steps ++ b.1, b.2)
  end.

(** The branch for PING, APPLICATION_COMMAND and AUTOCOMPLETE once the
    scope is known to have registered commands. A context on which no
    option was flagged carries no focussed option (the context classes are
    not among the sources). *)
Definition run_command (table : list (string * SlashCommand)) (i : RawInteraction)
  : list Step * option Error :=
  match Router.get_context to_snowflake from_dict cache (data i) with
  | inl e => ([], Some (ContextError e))
  | inr ctx =>
      let name := Router.invoked_name ctx in
      match Reconciler.assoc name table with
      | None => ([], Some KeyError)
      | Some command =>
          match Router.focussed_option ctx with
          | Some auto_opt =>
              if String.eqb auto_opt "" then
                guarded (Command name) (OnCommandError name) (OnCommand name)
                        (call command ctx)
              else
                match autocomplete_callbacks command !! auto_opt with
                | Some callback =>
                    guarded (Autocomplete name auto_opt)
                            (OnAutocompleteError name auto_opt) (OnAutocomplete name)
                            (callback ctx)
                | None =>
                    ([OnAutocompleteError name auto_opt "KeyError"; OnAutocomplete name],
                     None)
                end
          | None =>
              guarded (Command name) (OnCommandError name) (OnCommand name)
                      (call command ctx)
          end
      end
  end.

(** The branch for MESSAGE_COMPONENT. *)
Definition run_component (c : Client) (i : RawInteraction) : list Step * option Error :=
  match Router.get_context to_snowflake from_dict cache (data i) with
  | inl e => ([], Some (ContextError e))
  | inr ctx =>
      and_then (dispatch_event Component)
        (and_then
           match _component_callbacks c !! custom_id i with
           | Some callback =>
               guarded (Callback (custom_id i)) (OnComponentError (custom_id i))
                       (OnComponent (custom_id i)) (callback ctx)
           | None => ([], None)
           end
           (and_then
              (if component_type i =? BUTTON then dispatch_event Button else ([], None))
              (if component_type i =? SELECT then dispatch_event Select else ([], None))))
  end.

(** [_dispatch_interaction(event)], on [event.data]. *)
Definition _dispatch_interaction (c : Client) (i : RawInteraction)
  : list Step * option Error :=
  let type := Router.i_type (data i) in
  if (type =? Router.PING) || (type =? Router.APPLICATION_COMMAND)
     || (type =? Router.AUTOCOMPLETE) then
    match _interaction_scopes c !! interaction_id i
          ≫= (λ scope, Reconciler.assoc scope (interactions c)) with
    | Some table => run_command table i
    | None => ([LogUnknown (interaction_id i)], None)
    end
  else if type =? Router.MESSAGE_COMPONENT then run_component c i
  else ([], Some NotImplementedError).

End WithEnvironment.

(** The steps that run code of the user: a command, an autocomplete
    callback or a component callback. *)
Definition is_handler (s : Step) : bool :=
  match s with
  | Command _ | Autocomplete _ _ | Callback _ => true
  | _ => false
  end.

Definition is_error_hook (s : Step) : bool :=
  match s with
  | OnCommandError _ _ | OnAutocompleteError _ _ _ | OnComponentError _ _ => true
  | _ => false
  end.

Definition is_after_hook (s : Step) : bool :=
  match s with
  | OnCommand _ | OnAutocomplete _ | OnComponent _ => true
  | _ => false
  end.

(** A step that runs neither a handler nor a hook. *)
Definition plain (s : Step) : Prop :=
  is_handler s = false ∧ is_error_hook s = false ∧ is_after_hook s = false.


(** *** Scenarios *)

Definition echo : SlashCommand :=
  {| call := λ _, Events.RaisesException "boom"; autocomplete_callbacks := ∅ |}.

Definition one_command : Client :=
  {| interactions := [(Reconciler.GLOBAL_SCOPE, [("greet", echo)])];
     _interaction_scopes := {[ "900" := Reconciler.GLOBAL_SCOPE ]};
     _component_callbacks := {[ "ok" := λ _, Events.Returns ]} |}.

Definition greet_payload (id : string) : RawInteraction :=
  {| data := Router.greet "42"; interaction_id := id; custom_id := "";
     component_type := 0 |}.

Definition click (id : string) (kind : Z) : RawInteraction :=
  {| data := {| Router.i_type := Router.MESSAGE_COMPONENT;
                Router.i_guild_id := Some (Router.VStr "2");
                Router.i_name := ""; Router.i_options := None |};
     interaction_id := "1"; custom_id := id; component_type := kind |}.

End InteractionDispatch.

(* ===================================================================== *)
(** ** Waiting for a component *)
(* ===================================================================== *)

Module Components.

(** The [messages] argument: [None], a message object (with its id), an
    integer, or a list, given by the ids that [to_snowflake_list] makes of
    it. [to_snowflake] and [to_snowflake_list] are not among the sources:
    the ids are taken as they convert. *)
Inductive Messages :=
| NoMessages
| MessageObject (id : Z)
| MessageId (id : Z)
| ManyMessages (ids : list Z).

(** Python's truth value of the argument. *)
Definition messages_given (m : Messages) : bool :=
  match m with
  | NoMessages => false
  | MessageObject _ => true
  | MessageId id => negb (id =? 0)
  | ManyMessages ids => negb (bool_decide (ids = []))
  end.

(** [message_ids]: [None], one id, or a list of ids. *)
Inductive MessageIds :=
| NoIds
| OneId (id : Z)
| ManyIds (ids : list Z).

Definition message_ids_of (m : Messages) : MessageIds :=
  match m with
  | ManyMessages ids => ManyIds ids
  | MessageObject id => OneId id
  | MessageId id => if id =? 0 then NoIds else OneId id
  | NoMessages => NoIds
  end.

(** The [components] argument: [None] when it is missing or empty, else the
    custom ids that [get_components_ids] finds in it, as strings. *)
Definition components_given (c : option (list string)) : bool :=
  match c with Some _ => true | None => false end.

Inductive Error := ValueError.

Section WithContext.

(** [event.context.message.id] and [event.context.custom_id]. *)
Variable message_id : Events.BaseEvent → Z.
Variable custom_id : Events.BaseEvent → string.

(** [wanted_message]: [not message_ids or ctx.message.id in ...] *)
Definition wanted_message (m : Messages) (ev : Events.BaseEvent) : bool :=
  match message_ids_of m with
  | NoIds => true
  | OneId id => (id =? 0) || bool_decide (message_id ev ∈ [id])
  | ManyIds ids => bool_decide (ids = []) || bool_decide (message_id ev ∈ ids)
  end.

(** [wanted_component]: [not custom_ids or ctx.custom_id in custom_ids] *)
Definition wanted_component (c : option (list string)) (ev : Events.BaseEvent) : bool :=
  match c with
  | None => true
  | Some ids => bool_decide (ids = []) || bool_decide (custom_id ev ∈ ids)
  end.

(** The predicate [_check] that [wait_for_component] builds. *)
Definition _check (m : Messages) (c : option (list string))
    (check : option (Events.BaseEvent → bool)) (ev : Events.BaseEvent) : bool :=
  if wanted_message m ev && wanted_component c ev then
    match check with
    | None => true
    | Some chk => chk ev
    end
  else false.

(** [wait_for_component] up to the point where it awaits the wait. *)
Definition wait_for_component (cl : Events.Client) (m : Messages)
    (c : option (list string)) (check : option (Events.BaseEvent → bool))
  : Error + Events.Client * nat :=
  if negb (messages_given m || components_given c) then inl ValueError
  else inr (Events.wait_for cl "component" (Some (_check m c check))).

End WithContext.

End Components.

(* ===================================================================== *)
(** ** Start-up of the interactions *)
(* ===================================================================== *)

Module Startup.

(** A call of the [on_error] hook. *)
Inductive Hook := OnError (source : string) (error : Reconciler.Exn).

(** [_init_interactions]: every exception of the pass goes to [on_error].
    With [warn_missing] the cache pass only logs more. *)
Definition _init_interactions (http : Reconciler.Http)
    (sync_needed : Reconciler.CmdJson → option Reconciler.RemoteCmd → bool)
    (application_commands_to_dict :
       list (Reconciler.Scope * list (string * Reconciler.InteractionCommand)) →
       Reconciler.Scope → option (list Reconciler.CmdJson))
    (sync_interactions : bool) : Reconciler.M (list Hook) :=
  λ s,
    match (if sync_interactions
           then Reconciler.synchronise_interactions http sync_needed
                  application_commands_to_dict
           else Reconciler._cache_interactions http) s with
    | (inl e, s') => (inr [OnError "Interaction Syncing" e], s')
    | (inr _, s') => (inr [], s')
    end.

(** A coroutine that raises only errors of a given kind. *)
Definition raises_only {A} (E : Reconciler.Exn → Prop) (m : Reconciler.M A) : Prop :=
  ∀ s e s', m s = (inl e, s') → E e.

End Startup.

(* ===================================================================== *)
(** ** Presence *)
(* ===================================================================== *)

Module Presence.

Inductive Error := ValueError.

Section WithEnums.

(** [str.upper]. *)
Variable upper : string → string.

(** [Status] of [dis_snek.models.enums] and [Activity] of
    [dis_snek.models] are not among the sources: the status members, the
    lookup of a member by name ([Status[name]]), the activities and
    [Activity.create(name=...)]. Members and activities are truthy, and the
    type of an activity is one that [ActivityType] knows, so that the
    checks on it only log. *)
Variable Status : Type.
Variable Status_by_name : string → option Status.
Variable ONLINE : Status.
Variable Activity : Type.
Variable Activity_create : string → Activity.

(** The [status] argument: [None], a string or a member of the enum. *)
Inductive StatusArg :=
| StatusNone
| StatusName (s : string)
| StatusMember (st : Status).

(** The [activity] argument: [None], a string or an activity. *)
Inductive ActivityArg :=
| ActivityNone
| ActivityName (s : string)
| ActivityObject (a : Activity).

(** [self._activity]: [None], the empty list that [change_presence] stores
    when there is nothing to keep, or an activity. *)
Inductive Stored :=
| StoredNone
| StoredEmpty
| StoredActivity (a : Activity).

Record Client := {
  _status : option Status;
  _activity : Stored
}.

(** What is handed to [self.ws.change_presence]: [activity.to_dict()] or
    [None], and the status. *)
Record Sent := {
  sent_activity : option Activity;
  sent_status : Status
}.

Definition resolve_activity (c : Client) (activity : ActivityArg) : Stored :=
  match activity with
  | ActivityObject a => StoredActivity a
  | ActivityName s =>
      if String.eqb s "" then
        match _activity c with StoredActivity a => StoredActivity a | _ => StoredEmpty end
      else StoredActivity (Activity_create s)
  | ActivityNone =>
      match _activity c with StoredActivity a => StoredActivity a | _ => StoredEmpty end
  end.

Definition kept_status (c : Client) : Status :=
  match _status c with
  | Some st => st
  | None => ONLINE
  end.

Definition resolve_status (c : Client) (status : StatusArg) : Error + Status :=
  match status with
  | StatusMember st => inr st
  | StatusName s =>
      if String.eqb s "" then inr (kept_status c)
      else
        match Status_by_name (upper s) with
        | Some st => inr st
        | None => inl ValueError
        end
  | StatusNone => inr (kept_status c)
  end.

(** [change_presence(status, activity)]: the client afterwards, and what
    was sent, or the error raised before anything was stored or sent. *)
Definition change_presence (c : Client) (status : StatusArg) (activity : ActivityArg)
  : Error + Client * Sent :=
  let stored := resolve_activity c activity in
  match resolve_status c status with
  | inl e => inl e
  | inr st =>
      inr ({| _status := Some st; _activity := stored |},
           {| sent_activity := match stored with StoredActivity a => Some a | _ => None end;
              sent_status := st |})
  end.

End WithEnums.

Arguments StatusNone {Status}.
Arguments StatusName {Status} s.
Arguments StatusMember {Status} st.
Arguments ActivityNone {Activity}.
Arguments ActivityName {Activity} s.
Arguments ActivityObject {Activity} a.
Arguments StoredNone {Activity}.
Arguments StoredEmpty {Activity}.
Arguments StoredActivity {Activity} a.

(** *** Scenarios *)

(** [str.upper] on ASCII letters. *)
Definition upper_ascii (c : ascii) : ascii :=
  let n := nat_of_ascii c in
  if (Nat.leb 97 n && Nat.leb n 122)%bool then ascii_of_nat (n - 32) else c.

Fixpoint ascii_upper (s : string) : string :=
  match s with
  | EmptyString => EmptyString
  | String c rest => String (upper_ascii c) (ascii_upper rest)
  end.

(** An enum with the members IDLE and ONLINE, given by their values. *)
Definition two_statuses (name : string) : option string :=
  if String.eqb name "IDLE" then Some "idle"
  else if String.eqb name "ONLINE" then Some "online"
  else None.

Definition new_client : Client string string :=
  {| _status := None; _activity := StoredNone |}.

End Presence.

(* ##################################################################### *)
(** * Properties *)
(* ##################################################################### *)

(* ===================================================================== *)
(** ** Properties of the reconnect loop *)
(* ===================================================================== *)

Module GatewaySpec.
Import Gateway.

(** The loop head: an open client always starts with a connection attempt
    that uses the current parameters. *)
Lemma loop_starts_with_connect p script :
  ∃ t, (ws_connect_loop false p script).1 = Connect p :: t.
Proof.
  destruct script as [|a rest]; simpl; [by eexists|].
  unfold iteration. destruct (handle p a) as [acts ctl].
  destruct ctl as [p'|p'| |r]; simpl;
    try destruct (ws_connect_loop (att_closed a) p' rest) as [t f];
    simpl; by eexists.
Qed.

(** [ex.errno in (54, 10054)] *)
Lemma is_reset_spec errno :
  is_reset errno = true ↔ errno = Some 54 ∨ errno = Some 10054.
Proof.
  unfold is_reset. destruct errno as [n|]; [|split; [done|by intros [|]]].
  rewrite orb_true_iff, !Z.eqb_eq. split; intros [H|H]; (left + right); congruence.
Qed.

(** C1, as amended. When the dispatch of the Disconnect event returns, the
    failure branches that lead to another connection attempt are these, and
    no other: an internal restart request with resume=false, a transport
    error that is no connection reset, a missing gateway, a client error, a
    timeout and any other [Exception] make the next attempt with a fresh
    session, after the 5-unit delay; an internal restart request with
    resume=true, a clean close with code 1000 after readiness and a
    connection reset (errno 54 or 10054) make the next attempt in resume
    mode, with the session id and sequence number of the connection that
    ended, and with no delay. *)
Theorem delay_iff_fresh_reconnect p a e :
  att_end a = Some e →
  att_dispatch a = None →
  let waits_then_fresh :=
    e = WebSocketRestart false
    ∨ (∃ errno, e = OSError errno ∧ errno ≠ Some 54 ∧ errno ≠ Some 10054)
    ∨ e = GatewayNotFound ∨ e = ClientError ∨ e = TimeoutError ∨ e = OtherException in
  let resumes_at_once :=
    e = WebSocketRestart true
    ∨ (e = WebSocketClosed 1000 ∧ att_ready a = true)
    ∨ (∃ errno, e = OSError errno ∧ (errno = Some 54 ∨ errno = Some 10054)) in
  (waits_then_fresh →
     iteration p a = ([Connect p; Dispatch Disconnect; Sleep 5], Again fresh))
  ∧ (resumes_at_once →
     iteration p a = ([Connect p; Dispatch Disconnect], Again (resumed (att_ws a))))
  ∧ (∀ acts p', iteration p a = (acts, Again p') →
       (waits_then_fresh ∨ resumes_at_once)
       ∧ delayed acts = negb (resume p')).
Proof.
  intros He Hd. cbv zeta. unfold iteration, handle, after_disconnect.
  rewrite He, Hd. split_and!.
  - intros [->|[(errno & -> & H54 & H10054)|[->|[->|[->| ->]]]]]; try done.
    destruct (is_reset errno) eqn:Hr; [|done].
    apply is_reset_spec in Hr as [->| ->]; done.
  - intros [->|[[-> ->]|(errno & -> & Hr)]]; try done.
    apply is_reset_spec in Hr. by rewrite Hr.
  - intros acts p' Hit.
    destruct e as [[]|code|errno| | | | |]; simpl in Hit.
    + injection Hit as <- <-. split; [right; by left|done].
    + injection Hit as <- <-. split; [left; by left|done].
    + destruct (Z.eqb_spec code 1000) as [->|Hc].
      * destruct (att_ready a) eqn:Hready; [|done].
        injection Hit as <- <-. split; [right; right; by left|done].
      * destruct (code =? 4011); [done|].
        destruct (code =? 4013); [done|].
        by destruct (code =? 4014).
    + destruct (is_reset errno) eqn:Hr; injection Hit as <- <-.
      * split; [|done]. right. right. right. exists errno.
        split; [done|]. by apply is_reset_spec.
      * split; [|done]. left. right. left. exists errno. split; [done|].
        split; intros ->; by rewrite (proj2 (is_reset_spec _)) in Hr; eauto.
    + injection Hit as <- <-. split; [|done]. left. do 2 right. by left.
    + injection Hit as <- <-. split; [|done]. left. do 3 right. by left.
    + injection Hit as <- <-. split; [|done]. left. do 4 right. by left.
    + injection Hit as <- <-. split; [|done]. left. do 5 right. done.
    + done.
Qed.

Lemma delay_iff_fresh_reconnect_witness :
  iteration fresh restart_fresh
  = ([Connect fresh; Dispatch Disconnect; Sleep 5], Again fresh)
  ∧ iteration (resumed ws0) transport_reset
    = ([Connect (resumed ws0); Dispatch Disconnect], Again (resumed ws0)).
Proof.
  split.
  - apply (delay_iff_fresh_reconnect fresh restart_fresh (WebSocketRestart false));
      [reflexivity|reflexivity|]. by left.
  - apply (delay_iff_fresh_reconnect (resumed ws0) transport_reset (OSError (Some 54)));
      [reflexivity|reflexivity|]. right. right. exists (Some 54). split; [done|by left].
Defined.

(** C1 as stated fails on both sides: an internal restart request with
    resume=false does wait 5 units before the next attempt, and the clean
    close after readiness and the transport reset do not. *)
Lemma tabled_delay_rule_fails :
  (∃ acts p', iteration fresh restart_fresh = (acts, Again p')
              ∧ Sleep 5 ∈ acts
              ∧ delayed acts ≠ delay_as_tabled (WebSocketRestart false))
  ∧ (∃ acts p', iteration fresh clean_close_ready = (acts, Again p')
              ∧ delayed acts ≠ delay_as_tabled (WebSocketClosed 1000))
  ∧ (∃ acts p', iteration fresh transport_reset = (acts, Again p')
              ∧ delayed acts ≠ delay_as_tabled (OSError (Some 54))).
Proof.
  split_and!.
  - eexists _, _. split; [reflexivity|]. split; [set_solver|done].
  - eexists _, _. split; [reflexivity|done].
  - eexists _, _. split; [reflexivity|done].
Qed.

(** The clean close after readiness, when the dispatch of the Disconnect
    event returns: one Disconnect event, then at once the connection attempt
    in resume mode with the session id and the sequence number of the
    connection that ended. *)
Lemma clean_close_after_ready_resumes p a rest :
  att_end a = Some (WebSocketClosed 1000) →
  att_ready a = true →
  att_dispatch a = None →
  att_closed a = false →
  iteration p a = ([Connect p; Dispatch Disconnect], Again (resumed (att_ws a)))
  ∧ ∃ t, (ws_connect_loop false p (a :: rest)).1
         = Connect p :: Dispatch Disconnect :: Connect (resumed (att_ws a)) :: t.
Proof.
  intros He Hr Hd Hc.
  assert (Hit : iteration p a
                = ([Connect p; Dispatch Disconnect], Again (resumed (att_ws a)))).
  { unfold iteration, handle, after_disconnect. rewrite He, Hr, Hd. reflexivity. }
  split; [done|].
  simpl. rewrite Hit, Hc.
  destruct (loop_starts_with_connect (resumed (att_ws a)) rest) as [t Ht].
  destruct (ws_connect_loop false (resumed (att_ws a)) rest) as [t' f].
  simpl in Ht. subst t'. by eexists.
Qed.

(** C3 fails on the code. The handler of the clean close after readiness
    does what the claim says whenever the dispatch of the Disconnect event
    returns: one Disconnect event, then at once the attempt in resume mode
    with the session id and sequence number of the connection that ended.
    But the dispatch is made inside the handler, and it raises [IndexError]
    when two waits pending for the event are satisfied (the index shift of
    [dispatch]): with two coroutines waiting for "disconnect" the exception
    leaves [_ws_connect] after the first attempt, and no reconnect is
    attempted. *)
Theorem clean_close_with_pending_waits_ends_the_loop :
  (∀ p a rest,
     att_end a = Some (WebSocketClosed 1000) →
     att_ready a = true →
     att_dispatch a = None →
     att_closed a = false →
     ∃ t, (ws_connect_loop false p (a :: rest)).1
          = Connect p :: Dispatch Disconnect :: Connect (resumed (att_ws a)) :: t)
  ∧ map (λ w, Events.satisfied w disconnect_event)
        (Events.pending two_disconnect_waits "disconnect") = [true; true]
  ∧ dispatch_disconnect two_disconnect_waits = Some Events.IndexError
  ∧ _ws_connect false [clean_close_with_waits; restart_fresh]
    = ([Connect fresh; Dispatch Disconnect], Failed (FromDispatch Events.IndexError)).
Proof.
  split_and!.
  - intros p a rest He Hr Hd Hc.
    by destruct (clean_close_after_ready_resumes p a rest He Hr Hd Hc) as [_ Ht].
  - reflexivity.
  - reflexivity.
  - reflexivity.
Qed.

End GatewaySpec.

(* ===================================================================== *)
(** ** Properties of dispatch and of the wait registry *)
(* ===================================================================== *)

Module EventsSpec.
Import Events.

(** *** Listener tasks *)

Lemma queue_all_running c ls ev :
  loop_running c = true →
  queue_all c ls ev = (map (λ l, {| t_listener := l; t_event := ev |}) ls, None).
Proof.
  intros Hrun. induction ls as [|l rest IH]; simpl; [done|].
  unfold _queue_task. rewrite Hrun, IH. done.
Qed.

Lemma steps_app (f : TaskStep → bool) xs ys :
  length (filter (λ s, f s = true) (xs ++ ys))
  = (length (filter (λ s, f s = true) xs) + length (filter (λ s, f s = true) ys))%nat.
Proof. by rewrite filter_app, length_app. Qed.

(** When no task stops the loop, all of them run. *)
Lemma run_tasks_all ts :
  Forall (λ t, exits (t_listener t) (t_event t) = false) ts →
  run_tasks ts = concat (map run_task ts).
Proof.
  induction 1 as [|t rest Ht _ IH]; [done|].
  simpl. by rewrite Ht, IH.
Qed.

Lemma hook_calls_cons t ts :
  hook_calls (concat (map run_task (t :: ts)))
  = (hook_calls (run_task t) + hook_calls (concat (map run_task ts)))%nat.
Proof. unfold hook_calls. rewrite map_cons, concat_cons. apply steps_app. Qed.

Lemma listener_calls_cons t ts :
  listener_calls (concat (map run_task (t :: ts)))
  = (listener_calls (run_task t) + listener_calls (concat (map run_task ts)))%nat.
Proof. unfold listener_calls. rewrite map_cons, concat_cons. apply steps_app. Qed.

(** The counts do not depend on the order in which the loop runs the
    tasks. *)
Lemma hook_calls_perm ts ts' :
  Permutation ts ts' →
  hook_calls (concat (map run_task ts)) = hook_calls (concat (map run_task ts')).
Proof.
  induction 1 as [|x l l' _ IH|x y l|l l' l'' _ IH1 _ IH2].
  - done.
  - rewrite !hook_calls_cons. by rewrite IH.
  - rewrite !hook_calls_cons. lia.
  - congruence.
Qed.

Lemma listener_calls_perm ts ts' :
  Permutation ts ts' →
  listener_calls (concat (map run_task ts))
  = listener_calls (concat (map run_task ts')).
Proof.
  induction 1 as [|x l l' _ IH|x y l|l l' l'' _ IH1 _ IH2].
  - done.
  - rewrite !listener_calls_cons. by rewrite IH.
  - rewrite !listener_calls_cons. lia.
  - congruence.
Qed.

Lemma run_task_counts l ev :
  let t := {| t_listener := l; t_event := ev |} in
  listener_calls (run_task t) = 1%nat
  ∧ hook_calls (run_task t) = (if raises_exception l ev then 1 else 0)%nat.
Proof.
  unfold run_task, _async_wrap, raises_exception, listener_arg; simpl.
  destruct (l_call l _); done.
Qed.

Lemma tasks_counts ls ev :
  let ts := map (λ l, {| t_listener := l; t_event := ev |}) ls in
  listener_calls (concat (map run_task ts)) = length ls
  ∧ hook_calls (concat (map run_task ts))
    = count_listeners (λ l, raises_exception l ev) ls.
Proof.
  induction ls as [|l rest [IH1 IH2]]; [done|].
  cbn zeta. rewrite (map_cons _ l rest), listener_calls_cons, hook_calls_cons.
  destruct (run_task_counts l ev) as [-> ->].
  cbn zeta in IH1, IH2. rewrite IH1, IH2. split; [done|].
  unfold count_listeners. rewrite filter_cons.
  destruct (raises_exception l ev); simpl; done.
Qed.

Lemma run_task_sources l ev s :
  s ∈ run_task {| t_listener := l; t_event := ev |} →
  is_on_error s = true →
  ∃ err, s = OnError ev err ∧ l_call l (listener_arg ev) = RaisesException err.
Proof.
  unfold run_task, _async_wrap, listener_arg; simpl.
  destruct (l_call l _) eqn:Hc; intros Hin Hs;
    repeat (apply elem_of_cons in Hin as [->|Hin]); try done;
    try (by apply elem_of_nil in Hin).
  by eexists.
Qed.

(** C7, as amended. With N listeners registered for the event, none of
    which raises [SystemExit] or [KeyboardInterrupt], and of which K raise
    an instance of [Exception], dispatch creates N tasks, one per listener;
    in whatever order the tasks run, each listener is called once, the
    error hook is called exactly K times, each time with the dispatched
    event as its source; what a listener raises that is no instance of
    [Exception] (a cancellation, another [BaseException]) reaches no hook.
    What dispatch hands to its caller (the exception it raises, if any, and
    the wait table) is what it would be with no listener registered at
    all. *)
Theorem listener_failures_stay_in_their_task c ev order :
  loop_running c = true →
  Permutation order (d_tasks (dispatch c ev)) →
  (∀ l, l ∈ default [] (listeners c !! resolved_name ev) → exits l ev = false) →
  let ls := default [] (listeners c !! resolved_name ev) in
  d_tasks (dispatch c ev) = map (λ l, {| t_listener := l; t_event := ev |}) ls
  ∧ listener_calls (run_tasks order) = length ls
  ∧ hook_calls (run_tasks order) = count_listeners (λ l, raises_exception l ev) ls
  ∧ (∀ s, s ∈ run_tasks order → is_on_error s = true → ∃ err, s = OnError ev err)
  ∧ d_raised (dispatch c ev) = d_raised (dispatch (without_listeners c) ev)
  ∧ waits (d_client (dispatch c ev))
    = waits (d_client (dispatch (without_listeners c) ev)).
Proof.
  intros Hrun Hperm Hexits ls.
  assert (Hts : d_tasks (dispatch c ev)
                = map (λ l, {| t_listener := l; t_event := ev |}) ls).
  { unfold dispatch. fold ls. rewrite (queue_all_running c ls ev Hrun).
    destruct (waits c !! resolved_name ev) as [ws|]; [|done].
    destruct (scan ws 0 ev (futures c)) as [idxs futs].
    by destruct (pop_each ws idxs). }
  rewrite Hts in Hperm.
  assert (Hall : run_tasks order = concat (map run_task order)).
  { apply run_tasks_all, Forall_forall. intros t Ht. rewrite Hperm in Ht.
    apply list_elem_of_fmap in Ht as (l & -> & Hl). by apply Hexits. }
  rewrite Hall.
  destruct (tasks_counts ls ev) as [Hn Hk]. cbn zeta in Hn, Hk.
  split_and!.
  - done.
  - by rewrite (listener_calls_perm _ _ Hperm).
  - by rewrite (hook_calls_perm _ _ Hperm).
  - intros s Hs Herr.
    apply list_elem_of_In, in_concat in Hs as (steps & Hsteps & Hs).
    apply in_map_iff in Hsteps as (t & <- & Ht).
    apply list_elem_of_In in Ht. rewrite Hperm in Ht.
    apply list_elem_of_In, in_map_iff in Ht as (l & <- & _).
    apply list_elem_of_In in Hs.
    destruct (run_task_sources l ev s Hs Herr) as (err & -> & _). by eexists.
  - unfold dispatch. fold ls. rewrite (queue_all_running c ls ev Hrun).
    simpl. rewrite lookup_empty. simpl.
    destruct (waits c !! resolved_name ev) as [ws|]; [|done].
    destruct (scan ws 0 ev (futures c)) as [idxs futs].
    by destruct (pop_each ws idxs).
  - unfold dispatch. fold ls. rewrite (queue_all_running c ls ev Hrun).
    simpl. rewrite lookup_empty. simpl.
    destruct (waits c !! resolved_name ev) as [ws|]; [|done].
    destruct (scan ws 0 ev (futures c)) as [idxs futs].
    by destruct (pop_each ws idxs).
Qed.

Lemma listener_failures_stay_in_their_task_witness :
  hook_calls (run_tasks (reverse (d_tasks (dispatch three_listeners ev_x)))) = 2%nat
  ∧ listener_calls (run_tasks (reverse (d_tasks (dispatch three_listeners ev_x)))) = 3%nat.
Proof.
  destruct (listener_failures_stay_in_their_task three_listeners ev_x
              (reverse (d_tasks (dispatch three_listeners ev_x))))
    as (_ & Hn & Hk & _).
  - reflexivity.
  - apply reverse_Permutation.
  - intros l Hl. vm_compute in Hl.
    repeat (apply elem_of_cons in Hl as [->|Hl]; [reflexivity|]).
    by apply elem_of_nil in Hl.
  - split; [exact Hk | exact Hn].
Defined.

(** C7 as stated fails in two ways. When the exception a listener raises
    is a cancellation, one listener of one raises and the hook is not
    called. When a listener raises [SystemExit], which [_async_wrap] does
    not catch, the loop stops with it: of two listeners the second one is
    never invoked. *)
Lemma cancelled_listener_reaches_no_hook :
  (let ls := default [] (listeners one_cancelled !! resolved_name ev_x) in
   count_listeners (λ l, raises l ev_x) ls = 1%nat
   ∧ hook_calls (run_tasks (d_tasks (dispatch one_cancelled ev_x))) = 0%nat)
  ∧ (let ls := default [] (listeners exit_then_quiet !! resolved_name ev_x) in
     length ls = 2%nat
     ∧ listener_calls (run_tasks (d_tasks (dispatch exit_then_quiet ev_x))) = 1%nat
     ∧ hook_calls (run_tasks (d_tasks (dispatch exit_then_quiet ev_x))) = 0%nat).
Proof. split; split_and!; reflexivity. Qed.

(** *** Removal of satisfied waits *)

(** C2 fails on the code. With two satisfied waits followed by an
    unsatisfied one, the positions recorded are 0 and 1; popping position 0
    shifts the list, so the second pop removes the unsatisfied wait: the
    second satisfied wait stays pending and the unsatisfied one is gone.
    Removing exactly the satisfied waits would leave the third wait alone. *)
Theorem dispatch_two_matches_removes_wrong_wait :
  let d := dispatch three_waits ev_x in
  pending three_waits "x" = [wait_yes 0; wait_yes 1; wait_no 2]
  ∧ map (λ w, satisfied w ev_x) (pending three_waits "x") = [true; true; false]
  ∧ pending (d_client d) "x" = [wait_yes 1]
  ∧ unsatisfied_of (pending three_waits "x") ev_x = [wait_no 2]
  ∧ d_raised d = None.
Proof. cbv zeta. split_and!; reflexivity. Qed.

(** When the two satisfied waits are the last ones the second pop is out of
    range: dispatch raises [IndexError] and the last satisfied wait stays. *)
Lemma dispatch_two_matches_at_end_raises :
  let c := {| loop_running := true; listeners := ∅;
              waits := {[ "x" := [wait_no 0; wait_yes 1; wait_yes 2] ]};
              futures := [Pending; Pending; Pending] |} in
  let d := dispatch c ev_x in
  d_raised d = Some IndexError
  ∧ pending (d_client d) "x" = [wait_no 0; wait_yes 2].
Proof. cbv zeta. split; reflexivity. Qed.

(** *** Waits that time out *)

Lemma scan_none_satisfied ws i ev futs :
  (∀ w, w ∈ ws → satisfied w ev = false) →
  scan ws i ev futs = ([], futs).
Proof.
  revert i futs. induction ws as [|w rest IH]; intros i futs Hall; simpl; [done|].
  unfold wait_call. rewrite (Hall w) by set_solver.
  rewrite IH; [done|]. intros w' Hw'. apply Hall. set_solver.
Qed.

(** A dispatch changes only the list of its own event name, and leaves
    that list as it is when the event satisfies none of its waits. *)
Lemma dispatch_pending_unchanged c ev name :
  (resolved_name ev = name → ∀ w, w ∈ pending c name → satisfied w ev = false) →
  pending (d_client (dispatch c ev)) name = pending c name.
Proof.
  intros Hun. unfold dispatch.
  destruct (queue_all c _ ev) as [ts [e|]]; [done|].
  destruct (waits c !! resolved_name ev) as [ws|] eqn:Hws; [|done].
  destruct (decide (resolved_name ev = name)) as [Heq|Hne].
  - rewrite scan_none_satisfied.
    + simpl. unfold pending. simpl. subst name.
      by rewrite lookup_insert_eq, Hws.
    + intros w Hw. apply (Hun Heq). unfold pending. rewrite <- Heq, Hws. done.
  - destruct (scan ws 0 ev (futures c)) as [idxs futs].
    destruct (pop_each ws idxs) as [remaining err].
    unfold pending. simpl. by rewrite lookup_insert_ne.
Qed.

Lemma dispatch_all_pending_unchanged evs c name :
  (∀ ev w, ev ∈ evs → resolved_name ev = name →
           w ∈ pending c name → satisfied w ev = false) →
  pending (dispatch_all c evs) name = pending c name.
Proof.
  revert c. induction evs as [|ev rest IH]; intros c Hun; [done|].
  simpl.
  assert (Hstep : pending (d_client (dispatch c ev)) name = pending c name).
  { apply dispatch_pending_unchanged. intros Hn w Hw.
    apply (Hun ev w); [set_solver|done|done]. }
  unfold dispatch_all in IH. rewrite IH; [done|].
  intros ev' w Hev' Hn Hw. rewrite Hstep in Hw.
  apply (Hun ev' w); [set_solver|done|done].
Qed.

(** C6, as amended. A call of [wait_for] during which no dispatched event
    satisfies a wait pending under its event name fails with a timeout
    error when the timeout elapses, and the timeout removes nothing from the
    wait table: the wait that the call registered is still the last entry
    under its event name, so that list is one entry longer than before the
    call. *)
Theorem wait_for_timeout_leaves_entry c event checks evs :
  (∀ ev w, ev ∈ evs → resolved_name ev = event →
           w ∈ pending (wait_for c event checks).1 event →
           satisfied w ev = false) →
  let c' := (wait_for_timing_out c event checks evs).1 in
  (wait_for_timing_out c event checks evs).2 = TimeoutError
  ∧ pending c' event
    = pending c event
      ++ [{| w_event := event; w_checks := checks; w_future := length (futures c) |}]
  ∧ length (pending c' event) = S (length (pending c event)).
Proof.
  intros Hun. unfold wait_for_timing_out.
  destruct (wait_for c event checks) as [c1 fut] eqn:Hwf. simpl in Hun.
  assert (Hc1 : pending c1 event
                = pending c event
                  ++ [{| w_event := event; w_checks := checks;
                         w_future := length (futures c) |}]).
  { unfold wait_for in Hwf. inversion Hwf. unfold pending at 1. simpl.
    by rewrite lookup_insert_eq. }
  assert (Hend : pending (timed_out (dispatch_all c1 evs) fut).1 event
                 = pending c1 event).
  { unfold timed_out, pending at 1. simpl.
    apply (dispatch_all_pending_unchanged evs c1 event Hun). }
  cbv zeta. split_and!.
  - done.
  - by rewrite Hend, Hc1.
  - rewrite Hend, Hc1, length_app. simpl. lia.
Qed.

Lemma wait_for_timeout_leaves_entry_witness :
  length (pending (wait_for_timing_out three_waits "x"
                     (Some (λ ev, payload ev =? 9))
                     [{| resolved_name := "x"; n_attrs := 2; payload := 1 |}]).1 "x")
  = 4%nat.
Proof.
  apply (wait_for_timeout_leaves_entry three_waits "x" (Some (λ ev, payload ev =? 9))
           [{| resolved_name := "x"; n_attrs := 2; payload := 1 |}]).
  intros ev w Hev _ Hw.
  apply list_elem_of_singleton in Hev as ->.
  vm_compute in Hw.
  repeat (apply elem_of_cons in Hw as [->|Hw]; [reflexivity|]).
  by apply elem_of_nil in Hw.
Defined.

(** C6 as stated fails: after a call that times out the wait table holds
    the wait that the call registered, and is one entry larger than it
    was. *)
Lemma timed_out_wait_stays_in_table :
  let r := wait_for_timing_out empty_client "x" (Some (λ ev, payload ev =? 7)) [] in
  r.2 = TimeoutError
  ∧ table_size empty_client = 0%nat
  ∧ table_size r.1 = 1%nat
  ∧ length (pending r.1 "x") = 1%nat.
Proof. cbv zeta. split_and!; reflexivity. Qed.

End EventsSpec.

(* ===================================================================== *)
(** ** Properties of the readiness gate *)
(* ===================================================================== *)

Module ReadinessSpec.
Import Readiness.

Lemma full_cache_inv expected wakes :
  wait_for_guilds expected wakes = FullCache →
  ∃ before guild_cache after,
    wakes = before ++ Signalled guild_cache :: after
    ∧ Forall (goes_on expected) before
    ∧ size guild_cache = size expected.
Proof.
  induction wakes as [|w rest IH]; simpl; [done|].
  destruct w as [|gc]; [done|].
  destruct (Nat.eqb (size gc) (size expected)) eqn:Hsz.
  - intros _. exists [], gc, rest. split_and!; [done|constructor|].
    by apply Nat.eqb_eq.
  - intros H. destruct (IH H) as (before & gc' & after & -> & Hb & Hs).
    exists (Signalled gc :: before), gc', after. split_and!; [done| |done].
    constructor; [|done]. simpl. by apply Nat.eqb_neq.
Qed.

Lemma partial_cache_inv expected wakes :
  wait_for_guilds expected wakes = PartialCache →
  ∃ before after,
    wakes = before ++ TimedOut :: after ∧ Forall (goes_on expected) before.
Proof.
  induction wakes as [|w rest IH]; simpl; [done|].
  destruct w as [|gc].
  - intros _. exists [], rest. split; [done|constructor].
  - destruct (Nat.eqb (size gc) (size expected)) eqn:Hsz; [done|].
    intros H. destruct (IH H) as (before & after & -> & Hb).
    exists (Signalled gc :: before), after. split; [done|].
    constructor; [|done]. simpl. by apply Nat.eqb_neq.
Qed.

Lemma goes_on_skips expected before rest :
  Forall (goes_on expected) before →
  wait_for_guilds expected (before ++ rest) = wait_for_guilds expected rest.
Proof.
  induction 1 as [|w before Hw _ IH]; [done|].
  destruct w as [|gc]; [done|]. simpl in *.
  apply Nat.eqb_neq in Hw. by rewrite Hw.
Qed.

(** The gate leaves its wait loop with a full cache only at a wake-up at
    which the number of cached guilds equals the number of expected guild
    ids (which is the case whenever the cached id set equals the expected
    set); every other exit of the loop is the timeout of the bounded
    wait. *)
Lemma gate_exits_on_equal_counts_or_timeout expected wakes :
  (wait_for_guilds expected wakes = FullCache →
     ∃ before guild_cache after,
       wakes = before ++ Signalled guild_cache :: after
       ∧ Forall (goes_on expected) before
       ∧ size (dom guild_cache) = size expected)
  ∧ (wait_for_guilds expected wakes ≠ FullCache →
     wait_for_guilds expected wakes ≠ Waiting →
     wait_for_guilds expected wakes = PartialCache
     ∧ ∃ before after,
         wakes = before ++ TimedOut :: after ∧ Forall (goes_on expected) before)
  ∧ (∀ before guild_cache after,
       wakes = before ++ Signalled guild_cache :: after →
       Forall (goes_on expected) before →
       dom guild_cache = expected →
       wait_for_guilds expected wakes = FullCache).
Proof.
  split_and!.
  - intros H. destruct (full_cache_inv _ _ H) as (b & gc & a & -> & Hb & Hs).
    exists b, gc, a. by rewrite size_dom.
  - intros Hf Hw.
    destruct (wait_for_guilds expected wakes) eqn:Hx; [done| |done].
    split; [done|]. by apply partial_cache_inv.
  - intros b gc a -> Hb Hdom. rewrite goes_on_skips by done. simpl.
    rewrite <- Hdom, size_dom, Nat.eqb_refl. done.
Qed.

(** C8 fails on the code. The handshake announces guild 7, and the guild
    event wakes the gate while the cache holds guild 5 alone. The loop is
    left by the [break] for a full cache, without a timeout, although the
    cached id set differs from the expected one, and the handler goes on to
    mark the client ready. *)
Theorem gate_exits_on_different_sets :
  let expected := expected_guilds [7] in
  wait_for_guilds expected other_guild_cached = FullCache
  ∧ _on_websocket_ready false [7] other_guild_cached
    = ([AddGuilds expected; InitInteractions; DispatchReady], true)
  ∧ (TimedOut ∉ other_guild_cached)
  ∧ ∀ guild_cache, Signalled guild_cache ∈ other_guild_cached →
                   dom guild_cache ≠ expected.
Proof.
  split; [reflexivity|]. split; [reflexivity|]. split.
  { intros Hin. apply list_elem_of_singleton in Hin. discriminate. }
  intros gc Hin. apply list_elem_of_singleton in Hin. inversion Hin; subst.
  intros Heq.
  assert (H5 : (5 : Z) ∈ expected_guilds [7]).
  { rewrite <- Heq. rewrite dom_singleton_L. set_solver. }
  unfold expected_guilds in H5. set_solver.
Qed.

End ReadinessSpec.

(* ===================================================================== *)
(** ** Properties of the command router *)
(* ===================================================================== *)

Module RouterSpec.
Import Router.

(** *** Keyword arguments *)

Lemma dict_get_set_eq key value kw :
  dict_get key (dict_set key value kw) = Some value.
Proof.
  induction kw as [|[k v] rest IH]; simpl.
  - by rewrite String.eqb_refl.
  - destruct (String.eqb k key) eqn:Hk; simpl; by rewrite Hk.
Qed.

Lemma dict_get_set_ne key key' value kw :
  key ≠ key' → dict_get key' (dict_set key value kw) = dict_get key' kw.
Proof.
  intros Hne. induction kw as [|[k v] rest IH]; simpl.
  - destruct (String.eqb key key') eqn:Hk; [|done].
    by apply String.eqb_eq in Hk.
  - destruct (String.eqb k key) eqn:Hk; simpl.
    + apply String.eqb_eq in Hk as ->.
      destruct (String.eqb key key') eqn:Hk'; [|done].
      by apply String.eqb_eq in Hk'.
    + by rewrite IH.
Qed.

Section Resolution.

Variable to_snowflake : Value → option Z.
Variable from_dict : ContextKind → Interaction → option string.
Variable cache : GlobalCache.

Lemma resolve_user_option guild o gid uid :
  o_type o = USER →
  to_snowflake (default (VInt 0) guild) = Some gid →
  to_snowflake (o_value o) = Some uid →
  resolve_option to_snowflake cache guild o = inr (user_lookup cache gid uid (o_value o)).
Proof.
  intros Ht Hg Hu. unfold resolve_option, user_lookup.
  rewrite Ht, Hg, Hu. reflexivity.
Qed.

(** Options that come later leave a keyword argument alone unless they
    carry its name. *)
Lemma resolve_options_keeps guild key options :
  ∀ kw foc kw' foc',
    (∀ o', o' ∈ options → lower (o_name o') ≠ key) →
    resolve_options to_snowflake cache guild options kw foc = inr (kw', foc') →
    dict_get key kw' = dict_get key kw.
Proof.
  induction options as [|o rest IH]; intros kw foc kw' foc' Hne Hres; simpl in Hres.
  - by inversion Hres.
  - destruct (resolve_option to_snowflake cache guild o) as [e|v]; [done|].
    rewrite (IH _ _ _ _ (λ o' Ho', Hne o' (list_elem_of_further _ _ _ Ho')) Hres).
    apply dict_get_set_ne, Hne. apply list_elem_of_here.
Qed.

Lemma resolve_options_binds guild before o after :
  ∀ kw foc kw' foc',
    (∀ o', o' ∈ after → lower (o_name o') ≠ lower (o_name o)) →
    resolve_options to_snowflake cache guild (before ++ o :: after) kw foc
    = inr (kw', foc') →
    ∃ value, resolve_option to_snowflake cache guild o = inr value
             ∧ dict_get (lower (o_name o)) kw' = Some value.
Proof.
  induction before as [|b before IH]; intros kw foc kw' foc' Hne Hres; simpl in Hres.
  - destruct (resolve_option to_snowflake cache guild o) as [e|v]; [done|].
    exists v. split; [done|].
    rewrite (resolve_options_keeps _ _ _ _ _ _ _ Hne Hres).
    apply dict_get_set_eq.
  - destruct (resolve_option to_snowflake cache guild b) as [e|v]; [done|].
    by apply (IH _ _ _ _ Hne Hres).
Qed.

(** C9, as amended. A USER option whose value and guild id are ids (the
    two conversions of [to_snowflake] succeed) resolves without failing: to
    the member cached under (guild id, value) if there is one, else to the
    user cached under the value, else the value stays the raw id. A payload
    whose only option is such a USER option, and whose context [from_dict]
    builds, yields a context that binds the lower-cased option name to that
    result; and whenever [get_context] returns a context for a payload
    without sub-commands, the keyword argument of each such USER option (the
    last one of its name) is that result. *)
Theorem user_option_resolves_through_caches guild o gid uid :
  o_type o = USER →
  to_snowflake (default (VInt 0) guild) = Some gid →
  to_snowflake (o_value o) = Some uid →
  resolve_option to_snowflake cache guild o = inr (user_lookup cache gid uid (o_value o))
  ∧ (∀ m, member_cache cache !! (gid, uid) = Some m →
          resolve_option to_snowflake cache guild o = inr (VMember m))
  ∧ (∀ u, member_cache cache !! (gid, uid) = None →
          user_cache cache !! uid = Some u →
          resolve_option to_snowflake cache guild o = inr (VUser u))
  ∧ (member_cache cache !! (gid, uid) = None →
     user_cache cache !! uid = None →
     resolve_option to_snowflake cache guild o = inr (o_value o))
  ∧ (∀ type name,
       type ≠ MESSAGE_COMPONENT →
       from_dict (kind_of type)
         {| i_type := type; i_guild_id := guild; i_name := name;
            i_options := Some [o] |} = None →
       get_context to_snowflake from_dict cache
         {| i_type := type; i_guild_id := guild; i_name := name;
            i_options := Some [o] |}
       = inr {| ctx_kind := if type =? AUTOCOMPLETE then AutocompleteContext
                            else InteractionContext;
                invoked_name := name;
                kwargs := [(lower (o_name o), user_lookup cache gid uid (o_value o))];
                args := [user_lookup cache gid uid (o_value o)];
                focussed_option := if o_focused o then Some (o_name o) else None |})
  ∧ (∀ type name before after ctx,
       type ≠ MESSAGE_COMPONENT →
       (∀ first, head (before ++ o :: after) = Some first →
                 o_type first ≠ SUB_COMMAND ∧ o_type first ≠ SUB_COMMAND_GROUP) →
       (∀ o', o' ∈ after → lower (o_name o') ≠ lower (o_name o)) →
       get_context to_snowflake from_dict cache
         {| i_type := type; i_guild_id := guild; i_name := name;
            i_options := Some (before ++ o :: after) |} = inr ctx →
       dict_get (lower (o_name o)) (kwargs ctx)
       = Some (user_lookup cache gid uid (o_value o))).
Proof.
  intros Ht Hg Hu.
  pose proof (resolve_user_option guild o gid uid Ht Hg Hu) as Hres.
  split_and!.
  - done.
  - intros m Hm. rewrite Hres. unfold user_lookup. by rewrite Hm.
  - intros u Hm Hus. rewrite Hres. unfold user_lookup. by rewrite Hm, Hus.
  - intros Hm Hus. rewrite Hres. unfold user_lookup. by rewrite Hm, Hus.
  - intros type name Hty Hfd. unfold get_context.
    cbn [i_type i_options i_guild_id i_name default from_option id].
    rewrite Hfd.
    apply Z.eqb_neq in Hty. rewrite Hty.
    unfold descend. rewrite Ht. cbn [Z.eqb USER SUB_COMMAND SUB_COMMAND_GROUP Pos.eqb].
    cbn [resolve_options]. rewrite Hres. reflexivity.
  - intros type name before after ctx Hty Hfirst Hlast. unfold get_context.
    cbn [i_type i_options i_guild_id i_name default from_option id].
    destruct (from_dict _ _) as [err|]; [done|].
    apply Z.eqb_neq in Hty. rewrite Hty.
    assert (Hd : descend name (before ++ o :: after)
                 = inr (name, before ++ o :: after)).
    { unfold descend. destruct (before ++ o :: after) as [|first rest] eqn:Hl; [done|].
      destruct (Hfirst first eq_refl) as [H1 H2].
      apply Z.eqb_neq in H1, H2. by rewrite H1, H2. }
    rewrite Hd.
    destruct (resolve_options to_snowflake cache guild (before ++ o :: after) [] None)
      as [e|[kw foc]] eqn:Hr; [done|].
    intros Hctx. inversion Hctx; subst ctx; simpl.
    destruct (resolve_options_binds _ _ _ _ _ _ _ _ Hlast Hr) as (v & Hv & Hget).
    rewrite Hres in Hv. inversion Hv; subst v. done.
Qed.

End Resolution.

Lemma user_option_resolves_through_caches_witness :
  (* cached as a user only: not a member of guild 2 *)
  resolve_option snowflake_of cache0 (Some (VStr "2")) (user_option "Target" "42")
  = inr (VUser {| user_tag := "ann#0001" |})
  (* cached nowhere: the raw id *)
  ∧ resolve_option snowflake_of cache0 (Some (VStr "2")) (user_option "Target" "77")
    = inr (VStr "77").
Proof.
  split.
  - apply (user_option_resolves_through_caches snowflake_of from_guild cache0
             (Some (VStr "2")) (user_option "Target" "42") 2 42);
      reflexivity.
  - apply (user_option_resolves_through_caches snowflake_of from_guild cache0
             (Some (VStr "2")) (user_option "Target" "77") 2 77);
      reflexivity.
Defined.

(** C9 as stated fails: resolving a USER option does fail when its value
    is not an id. The conversion of the value raises before any cache is
    asked, and [get_context] raises with it: no context is built for the
    command "/greet Target:ann". *)
Lemma user_option_that_is_no_id_fails :
  o_type (user_option "Target" "ann") = USER
  ∧ snowflake_of (VStr "ann") = None
  ∧ resolve_option snowflake_of cache0 (Some (VStr "2")) (user_option "Target" "ann")
    = inl SnowflakeError
  ∧ get_context snowflake_of from_guild cache0 (greet "ann") = inl SnowflakeError.
Proof. split_and!; reflexivity. Qed.

(** The context of "/greet Target:42" sent from guild 2. *)
Example greet_context :
  get_context snowflake_of from_guild cache0 (greet "42")
  = inr {| ctx_kind := InteractionContext; invoked_name := "greet";
           kwargs := [("target", VUser {| user_tag := "ann#0001" |})];
           args := [VUser {| user_tag := "ann#0001" |}];
           focussed_option := None |}.
Proof. reflexivity. Qed.

(** *** Message commands *)

Section MessageCommands.

Variable MENTION_PREFIX : string.
Variable get_first_word : string → option string.
Variable get_args : string → list string.
Variable content_parameters : Message → string → string → string.

(** C10. A message whose author is flagged as a bot, whichever bot it is,
    makes the message-command path do nothing: the prefix is not resolved
    and no command handler is invoked. *)
Theorem bot_messages_are_ignored c message :
  bot (author message) = true →
  let steps := _dispatch_msg_commands MENTION_PREFIX get_first_word get_args
                 content_parameters c message in
  steps = []
  ∧ existsb is_get_prefix steps = false
  ∧ existsb is_invoke steps = false.
Proof.
  intros Hbot. unfold _dispatch_msg_commands. rewrite Hbot. simpl. done.
Qed.

End MessageCommands.

Lemma bot_messages_are_ignored_witness :
  _dispatch_msg_commands "<mention>" first_word (λ _, []) (λ _ _ _, "")
    bot_client from_other_bot = [].
Proof.
  apply (bot_messages_are_ignored "<mention>" first_word (λ _, []) (λ _ _ _, "")
           bot_client from_other_bot).
  reflexivity.
Defined.

(** The same text from an account that is not a bot runs the command. *)
Example human_message_runs_command :
  map is_invoke
    (_dispatch_msg_commands "<mention>" first_word (λ _, []) (λ _ _ _, "")
       bot_client from_human)
  = [false; true; false].
Proof. reflexivity. Qed.

End RouterSpec.

(* ===================================================================== *)
(** ** Properties of command reconciliation *)
(* ===================================================================== *)

Module ReconcilerSpec.
Import Reconciler.

(** *** The calls a computation makes *)

Lemma appends_ret {A} P (a : A) : appends P (ret a).
Proof.
  intros s r s' H. inversion H; subst. split; [done|].
  exists []. by rewrite app_nil_r.
Qed.

Lemma appends_raise {A} P e : appends P (@raise A e).
Proof.
  intros s r s' H. inversion H; subst. split; [done|].
  exists []. by rewrite app_nil_r.
Qed.

Lemma appends_lift {A} P (x : Exn + A) : appends P (lift x).
Proof.
  intros s r s' H. inversion H; subst. split; [done|].
  exists []. by rewrite app_nil_r.
Qed.

Lemma appends_get_client P : appends P get_client.
Proof.
  intros s r s' H. inversion H; subst. split; [done|].
  exists []. by rewrite app_nil_r.
Qed.

Lemma appends_modify P f :
  (∀ c, interactions (f c) = interactions c) → appends P (modify f).
Proof.
  intros Hf s r s' H. inversion H; subst. simpl. split; [apply Hf|].
  exists []. by rewrite app_nil_r.
Qed.

Lemma appends_call {A} (P : Request → Prop) req (resp : list Request → Response A) :
  P req → appends P (call req resp).
Proof.
  intros HP s r s' H. inversion H; subst. simpl. split; [done|].
  exists [req]. split; [done|]. by constructor.
Qed.

Lemma bind_inv {A B} (m : M A) (k : A → M B) s r s' :
  bind m k s = (r, s') →
  (∃ e, m s = (inl e, s') ∧ r = inl e)
  ∨ (∃ a s1, m s = (inr a, s1) ∧ k a s1 = (r, s')).
Proof.
  unfold bind. destruct (m s) as [[e|a] s1]; intros H.
  - left. inversion H; subst. by exists e.
  - right. by exists a, s1.
Qed.

Lemma appends_bind {A B} P (m : M A) (k : A → M B) :
  appends P m → (∀ a, appends P (k a)) → appends P (bind m k).
Proof.
  intros Hm Hk s r s' H.
  apply bind_inv in H as [(e & H & ->)|(a & s1 & H1 & H2)].
  - by apply (Hm _ _ _ H).
  - destruct (Hm _ _ _ H1) as (Hi1 & new1 & Hh1 & HP1).
    destruct (Hk a _ _ _ H2) as (Hi2 & new2 & Hh2 & HP2).
    split; [congruence|].
    exists (new1 ++ new2). split.
    + by rewrite Hh2, Hh1, app_assoc.
    + by apply Forall_app.
Qed.

Lemma appends_for_each {A} P (l : list A) (body : A → M unit) :
  (∀ x, appends P (body x)) → appends P (for_each l body).
Proof.
  intros Hb. induction l as [|x rest IH]; simpl.
  - apply appends_ret.
  - apply appends_bind; [apply Hb|]. intros _. apply IH.
Qed.

Lemma appends_missing_access {A} P scope (m : M A) :
  appends P m → appends P (missing_access_on_forbidden scope m).
Proof.
  intros Hm s r s' H. unfold missing_access_on_forbidden in H.
  destruct (m s) as [[e|a] s1] eqn:Hms.
  - destruct (Hm _ _ _ Hms) as [Hi Hn].
    destruct e; inversion H; subst; done.
  - inversion H; subst. by apply (Hm _ _ _ Hms).
Qed.

Lemma appends_weaken {A} (P Q : Request → Prop) (m : M A) :
  (∀ q, P q → Q q) → appends P m → appends Q m.
Proof.
  intros HPQ Hm s r s' H. destruct (Hm _ _ _ H) as (Hi & new & Hh & HP).
  split; [done|]. exists new. split; [done|].
  by apply (Forall_impl _ _ _ HP).
Qed.

(** *** [_cache_interactions] only reads *)

Lemma cache_registered_reads http entry :
  appends (λ q, is_write q = false) (cache_registered http entry).
Proof.
  unfold cache_registered. apply appends_bind.
  - apply appends_missing_access. by apply appends_call.
  - intros remote_cmds. apply appends_for_each. intros cmd.
    unfold cache_cmd. destruct (remote_by_name remote_cmds (name cmd)).
    + by apply appends_modify.
    + apply appends_ret.
Qed.

Lemma cache_unregistered_reads http scope :
  appends (λ q, is_write q = false) (cache_unregistered http scope).
Proof.
  intros s r s' H. unfold cache_unregistered in H.
  destruct (http_get http scope s) as [[e|remote_cmds] s1] eqn:Hget.
  - assert (Hg : appends (λ q, is_write q = false) (http_get http scope))
      by (by apply appends_call).
    destruct (Hg _ _ _ Hget) as [Hi Hn].
    destruct e; inversion H; subst; done.
  - assert (Hg : appends (λ q, is_write q = false) (http_get http scope))
      by (by apply appends_call).
    destruct (Hg _ _ _ Hget) as (Hi1 & new1 & Hh1 & HP1).
    assert (Hf : appends (λ q, is_write q = false)
                   (for_each remote_cmds
                      (λ cmd_data, modify (set_scope (r_id cmd_data) scope)))).
    { apply appends_for_each. intros x. by apply appends_modify. }
    destruct (Hf _ _ _ H) as (Hi2 & new2 & Hh2 & HP2).
    split; [congruence|]. exists (new1 ++ new2). split.
    + by rewrite Hh2, Hh1, app_assoc.
    + by apply Forall_app.
Qed.

Lemma cache_interactions_reads http :
  appends (λ q, is_write q = false) (_cache_interactions http).
Proof.
  unfold _cache_interactions. apply appends_bind; [apply appends_get_client|].
  intros c. apply appends_bind.
  - apply appends_for_each, cache_registered_reads.
  - intros _. apply appends_for_each, cache_unregistered_reads.
Qed.

(** *** The loop over the scopes *)

Lemma call_inv {A} req (resp : list Request → Response A) s r s' :
  call req resp s = (r, s') →
  r = answer (resp (hist s)) ∧ s' = {| cl := cl s; hist := hist s ++ [req] |}.
Proof. unfold call. intros H. by inversion H. Qed.

Lemma answer_ok {A} (x : Response A) a : answer x = inr a → x = ROk a.
Proof. destruct x; simpl; intros H; by inversion H. Qed.

Lemma sync_scopes_app http sync_needed cmds_json before after :
  ∀ guild_perms s,
    sync_scopes http sync_needed cmds_json (before ++ after) guild_perms s
    = match sync_scopes http sync_needed cmds_json before guild_perms s with
      | (inl e, s1) => (inl e, s1)
      | (inr guild_perms1, s1) =>
          sync_scopes http sync_needed cmds_json after guild_perms1 s1
      end.
Proof.
  induction before as [|scope before IH]; intros guild_perms s; [done|].
  simpl. unfold bind.
  destruct (missing_access_on_forbidden scope _ s) as [[e|gp1] s1]; [done|].
  apply IH.
Qed.

(** A forbidden response while a scope is processed surfaces as a
    missing-access error that names that scope, and it ends the loop there:
    what was done for the scopes before it stays done, the state and the
    calls made are those at the point of the refusal, and no scope that
    comes after it is reconciled, whatever those scopes are. *)
Lemma forbidden_scope_ends_the_pass http sync_needed cmds_json
    before scope after guild_perms s guild_perms1 s1 s2 :
  sync_scopes http sync_needed cmds_json before guild_perms s = (inr guild_perms1, s1) →
  sync_body http sync_needed cmds_json scope guild_perms1 s1 = (inl Forbidden, s2) →
  sync_scopes http sync_needed cmds_json (before ++ scope :: after) guild_perms s
  = (inl (InteractionMissingAccess scope), s2)
  ∧ sync_scopes http sync_needed cmds_json (before ++ scope :: after) guild_perms s
    = sync_scopes http sync_needed cmds_json (before ++ [scope]) guild_perms s.
Proof.
  intros Hbefore Hbody.
  assert (Hany : ∀ rest,
            sync_scopes http sync_needed cmds_json (before ++ scope :: rest) guild_perms s
            = (inl (InteractionMissingAccess scope), s2)).
  { intros rest. rewrite sync_scopes_app, Hbefore. simpl.
    unfold bind, missing_access_on_forbidden. by rewrite Hbody. }
  split; [apply Hany|]. by rewrite !Hany.
Qed.

Example forbidden_scope_ends_the_pass_at_guild_1 :
  let json := to_dict_by_name (interactions fresh_client) in
  sync_scopes guild_1_forbidden differs json ([] ++ Guild 1 :: [GLOBAL_SCOPE]) []
    {| cl := fresh_client; hist := [] |}
  = (inl (InteractionMissingAccess (Guild 1)),
     {| cl := fresh_client; hist := [Get (Guild 1)] |}).
Proof.
  apply (forbidden_scope_ends_the_pass guild_1_forbidden differs
           (to_dict_by_name (interactions fresh_client))
           [] (Guild 1) [GLOBAL_SCOPE] []
           {| cl := fresh_client; hist := [] |} []
           {| cl := fresh_client; hist := [] |}
           {| cl := fresh_client; hist := [Get (Guild 1)] |});
    reflexivity.
Defined.

(** C5 fails on the code. The client is in guild 1, under which no command
    is registered, and guild 1 answers the fetch of its commands with a
    forbidden response. [_cache_interactions] skips the guild and returns.
    The loop of [synchronise_interactions] raises the missing-access error
    for guild 1 out of the pass, and the global scope, which comes next and
    whose command "ping" is not registered remotely yet, is never
    reconciled: no call is made for it. With guild 1 answering, the same
    pass goes on to the global scope and posts the command. *)
Theorem forbidden_guild_stops_global_scope :
  let cached := run (_cache_interactions guild_1_forbidden) fresh_client [] in
  let refused := run (synchronise_interactions guild_1_forbidden differs to_dict_by_name)
                     fresh_client [] in
  let allowed := run (synchronise_interactions all_allowed differs to_dict_by_name)
                     fresh_client [] in
  locals_of fresh_client (Guild 1) = []
  ∧ cached.1 = inr tt
  ∧ hist cached.2 = [Get GLOBAL_SCOPE; Get (Guild 1)]
  ∧ cmd_scopes_of fresh_client = [Guild 1; GLOBAL_SCOPE]
  ∧ refused.1 = inl (InteractionMissingAccess (Guild 1))
  ∧ hist refused.2 = [Get GLOBAL_SCOPE; Get (Guild 1); Get (Guild 1)]
  ∧ writes (hist refused.2) = []
  ∧ allowed.1 = inr tt
  ∧ writes (hist allowed.2)
    = [Post GLOBAL_SCOPE [{| j_name := "ping"; j_body := "" |}]].
Proof. cbv zeta. split_and!; reflexivity. Qed.

(** *** Passes that find nothing to change *)

Lemma set_permissions_calls http (l : list (Z * list PermEntry)) :
  ∀ s r s',
    for_each l (λ entry, http_set_permissions http (fst entry) (snd entry)) s = (r, s') →
    cl s' = cl s
    ∧ ∃ calls, hist s' = hist s ++ calls
               ∧ Forall (λ q, is_set_permissions q = true) calls
               ∧ (l = [] → calls = []).
Proof.
  induction l as [|[g data] rest IH]; intros s r s' H; simpl in H.
  - inversion H; subst. split; [done|]. exists []. by rewrite app_nil_r.
  - apply bind_inv in H as [(e & H & ->)|(a & s1 & H1 & H2)].
    + apply call_inv in H as [_ ->]. simpl. split; [done|].
      exists [SetPermissions g data]. split_and!; [done|by constructor|done].
    + apply call_inv in H1 as [_ ->].
      destruct (IH _ _ _ H2) as (Hc & calls & Hh & HP & _). simpl in *.
      split; [done|]. exists (SetPermissions g data :: calls).
      split_and!; [by rewrite Hh, <- app_assoc|by constructor|done].
Qed.





(** Without permission overwrites the second pass is silent. *)
Example plain_pass_is_silent :
  writes (hist (run (synchronise_interactions steady_remote differs to_dict_by_name)
                    plain_client []).2) = [].
Proof. reflexivity. Qed.

End ReconcilerSpec.

#[global] Set Warnings "-clear-no-such-hyp".

(* ===================================================================== *)
(** ** Further properties of the reconnect loop *)
(* ===================================================================== *)

Module GatewayFacts.
Import Gateway.

Lemma handle_shape p a :
  (∀ q, Connect q ∉ (handle p a).1)
  ∧ (∀ p', (handle p a).2 = Continue p' ∨ (handle p a).2 = FallThrough p' →
           p' = p ∨ p' = fresh ∨ p' = resumed (att_ws a)).
Proof.
  unfold handle, after_disconnect.
  destruct (att_end a) as [[r|code|errno| | | | |]|], (att_dispatch a) as [err|]; simpl;
    repeat match goal with
           | |- context [if ?b then _ else _] => destruct b
           end;
    (split;
     [intros q Hq;
      repeat (apply elem_of_cons in Hq as [Hq|Hq]; [discriminate Hq|]);
      by apply elem_of_nil in Hq|]);
    intros p' [Hp|Hp]; try discriminate Hp; injection Hp as <-; auto.
Qed.

Lemma iteration_shape p a acts nxt :
  iteration p a = (acts, nxt) →
  (∃ tl, acts = Connect p :: tl ∧ ∀ q, Connect q ∉ tl)
  ∧ (∀ p', nxt = Again p' → p' = p ∨ p' = fresh ∨ p' = resumed (att_ws a)).
Proof.
  unfold iteration. destruct (handle_shape p a) as [Hno Hctl].
  destruct (handle p a) as [hacts ctl]. simpl in Hno, Hctl.
  destruct ctl as [p1|p1| |r]; intros H; injection H as <- <-.
  - split; [by eexists|]. intros p' Hp. injection Hp as <-. apply Hctl. by left.
  - split.
    + eexists. split; [done|]. intros q Hq.
      apply elem_of_app in Hq as [Hq|Hq]; [by apply Hno in Hq|].
      apply list_elem_of_singleton in Hq. discriminate Hq.
    + intros p' Hp. injection Hp as <-. apply Hctl. by right.
  - split; [by eexists|]. intros p' Hp. discriminate Hp.
  - split; [by eexists|]. intros p' Hp. discriminate Hp.
Qed.




(** X2. A close that the loop does not recover from ends it at once, with
    one Disconnect dispatched and no further connection attempt, whatever
    would have followed. When the dispatch of the Disconnect event raises,
    what it raises leaves [_ws_connect]. When it returns: code 1000 before
    readiness makes [_ws_connect] return; codes 4011, 4013 and 4014 raise a
    [SnakeException]; any other code but 1000 is raised again unchanged. *)
Theorem unrecoverable_close_ends_the_loop p a rest code :
  att_end a = Some (WebSocketClosed code) →
  (code = 1000 → att_ready a = false) →
  ∃ final,
    ws_connect_loop false p (a :: rest) = ([Connect p; Dispatch Disconnect], final)
    ∧ (∀ e, att_dispatch a = Some e → final = Failed (FromDispatch e))
    ∧ (att_dispatch a = None →
       (code = 1000 → final = Returned)
       ∧ (code = 4011 ∨ code = 4013 ∨ code = 4014 →
          ∃ msg, final = Failed (SnakeException msg))
       ∧ (code ≠ 1000 → code ≠ 4011 → code ≠ 4013 → code ≠ 4014 →
          final = Failed (Reraised (WebSocketClosed code)))).
Proof.
  intros He Hready. simpl. unfold iteration, handle, after_disconnect. rewrite He.
  destruct (att_dispatch a) as [err|]; simpl.
  { eexists. split; [done|]. split; [|done]. intros e He'. by injection He' as <-. }
  destruct (code =? 1000) eqn:H0.
  - apply Z.eqb_eq in H0. rewrite (Hready H0). simpl.
    eexists. split; [done|]. split; [done|]. intros _. split_and!; [done|lia|lia].
  - apply Z.eqb_neq in H0.
    destruct (code =? 4011) eqn:H1; [apply Z.eqb_eq in H1|apply Z.eqb_neq in H1].
    { simpl. eexists. split; [done|]. split; [done|]. intros _.
      split_and!; [lia|by eexists|lia]. }
    destruct (code =? 4013) eqn:H3; [apply Z.eqb_eq in H3|apply Z.eqb_neq in H3].
    { simpl. eexists. split; [done|]. split; [done|]. intros _.
      split_and!; [lia|by eexists|lia]. }
    destruct (code =? 4014) eqn:H4; [apply Z.eqb_eq in H4|apply Z.eqb_neq in H4].
    { simpl. eexists. split; [done|]. split; [done|]. intros _.
      split_and!; [lia|by eexists|lia]. }
    simpl. eexists. split; [done|]. split; [done|]. intros _.
    split_and!; [lia|lia|done].
Qed.

Lemma unrecoverable_close_ends_the_loop_witness :
  ∃ final,
    ws_connect_loop false fresh
      ({| att_ws := ws0; att_ready := true;
          att_end := Some (WebSocketClosed 4011); att_dispatch := None;
          att_closed := false |}
       :: [clean_close_ready])
    = ([Connect fresh; Dispatch Disconnect], final)
    ∧ (∃ msg, final = Failed (SnakeException msg)).
Proof.
  destruct (unrecoverable_close_ends_the_loop fresh
              {| att_ws := ws0; att_ready := true;
                 att_end := Some (WebSocketClosed 4011); att_dispatch := None;
                 att_closed := false |}
              [clean_close_ready] 4011) as (final & Hloop & _ & Hreturns).
  - reflexivity.
  - lia.
  - exists final. split; [exact Hloop|].
    destruct (Hreturns eq_refl) as (_ & Hsnake & _). apply Hsnake. by left.
Defined.

(** X3. The closed flag is looked at before every attempt: when the client
    is closed at the loop test that follows an attempt, [_ws_connect]
    returns without another connection attempt, whatever that attempt asked
    for (resume, fresh start) and whether or not it slept. *)
Theorem closed_client_makes_no_further_attempt p a rest acts p' :
  iteration p a = (acts, Again p') →
  att_closed a = true →
  ws_connect_loop false p (a :: rest) = (acts, Returned)
  ∧ ∃ tl, acts = Connect p :: tl ∧ ∀ q, Connect q ∉ tl.
Proof.
  intros Hit Hc. split.
  - simpl. rewrite Hit, Hc. destruct rest; simpl; by rewrite app_nil_r.
  - by destruct (iteration_shape _ _ _ _ Hit) as [Hshape _].
Qed.

Lemma closed_client_makes_no_further_attempt_witness :
  ws_connect_loop false fresh
    ({| att_ws := ws0; att_ready := true;
        att_end := Some (WebSocketRestart true); att_dispatch := None;
        att_closed := true |}
     :: [clean_close_ready])
  = ([Connect fresh; Dispatch Disconnect], Returned).
Proof.
  apply (closed_client_makes_no_further_attempt fresh
           {| att_ws := ws0; att_ready := true;
              att_end := Some (WebSocketRestart true); att_dispatch := None;
              att_closed := true |}
           [clean_close_ready] [Connect fresh; Dispatch Disconnect] (resumed ws0));
    reflexivity.
Defined.

End GatewayFacts.

(* ===================================================================== *)
(** ** Further properties of dispatch and of the wait registry *)
(* ===================================================================== *)

Module EventsFacts.
Import Events.

Lemma scan_count ws ev :
  ∀ i futs,
    length (scan ws i ev futs).1 = length (filter (λ w, satisfied w ev = true) ws).
Proof.
  induction ws as [|w rest IH]; intros i futs; simpl; [done|].
  unfold wait_call.
  destruct (satisfied w ev) eqn:Hs.
  - rewrite filter_cons_True by done.
    specialize (IH (S i) (<[w_future w := Resolved ev]> futs)).
    destruct (scan rest (S i) ev _) as [idxs futs2]. simpl in *. by rewrite IH.
  - rewrite filter_cons_False by (by rewrite Hs).
    specialize (IH (S i) futs).
    by destruct (scan rest (S i) ev futs) as [idxs futs2].
Qed.

Lemma pop_each_length {A} (idxs : list nat) :
  ∀ (l l' : list A),
    pop_each l idxs = (l', None) → (length l' + length idxs = length l)%nat.
Proof.
  induction idxs as [|idx rest IH]; intros l l' H; simpl in H.
  - injection H as <-. simpl. lia.
  - unfold pop in H. destruct (decide (idx < length l)%nat) as [Hlt|]; [|done].
    apply IH in H. simpl. rewrite length_delete in H.
    + lia.
    + by apply lookup_lt_is_Some.
Qed.

(** X4. A dispatch leaves everything but the waits of its own event name
    alone: the listener table, and the pending waits registered under every
    other event name, are the same before and after, also when the dispatch
    raises. *)
Theorem dispatch_touches_only_its_own_waits c ev :
  listeners (d_client (dispatch c ev)) = listeners c
  ∧ ∀ name, name ≠ resolved_name ev →
            waits (d_client (dispatch c ev)) !! name = waits c !! name.
Proof.
  unfold dispatch.
  destruct (queue_all c _ ev) as [ts [e|]]; [done|].
  destruct (waits c !! resolved_name ev) as [ws|]; [|done].
  destruct (scan ws 0 ev (futures c)) as [idxs futs].
  destruct (pop_each ws idxs) as [remaining err]. simpl.
  split; [done|]. intros name Hne. by rewrite lookup_insert_ne.
Qed.

(** X5. When a dispatch returns without raising, the pending list of the
    event has lost exactly as many entries as there were waits that the
    event satisfied. *)
Theorem dispatch_removes_as_many_waits_as_matched c ev :
  d_raised (dispatch c ev) = None →
  (length (pending (d_client (dispatch c ev)) (resolved_name ev))
   + length (filter (λ w, satisfied w ev = true) (pending c (resolved_name ev)))
   = length (pending c (resolved_name ev)))%nat.
Proof.
  unfold dispatch, pending.
  destruct (queue_all c _ ev) as [ts [e|]]; [done|].
  destruct (waits c !! resolved_name ev) as [ws|] eqn:Hws; simpl.
  - pose proof (scan_count ws ev 0%nat (futures c)) as Hcount.
    destruct (scan ws 0 ev (futures c)) as [idxs futs]. simpl in Hcount.
    destruct (pop_each ws idxs) as [remaining err] eqn:Hpop. simpl.
    intros ->. rewrite lookup_insert_eq. simpl. rewrite <- Hcount.
    by apply pop_each_length.
  - intros _. by rewrite Hws.
Qed.

Lemma dispatch_removes_as_many_waits_as_matched_witness :
  (length (pending (d_client (dispatch three_waits ev_x)) "x")
   + length (filter (λ w, satisfied w ev_x = true) (pending three_waits "x"))
   = length (pending three_waits "x"))%nat.
Proof.
  apply (dispatch_removes_as_many_waits_as_matched three_waits ev_x).
  reflexivity.
Defined.

Lemma filter_none_satisfied (ws : list Wait) ev :
  length (filter (λ w, satisfied w ev = true) ws) = 0%nat →
  unsatisfied_of ws ev = ws ∧ ∀ i futs, scan ws i ev futs = ([], futs).
Proof.
  induction ws as [|w rest IH]; [done|].
  unfold unsatisfied_of.
  destruct (satisfied w ev) eqn:Hs.
  - rewrite filter_cons_True by done. simpl. lia.
  - rewrite filter_cons_False by (by rewrite Hs).
    intros H. destruct (IH H) as [Hu Hsc]. split.
    + rewrite filter_cons_True by done. unfold unsatisfied_of in Hu. by rewrite Hu.
    + intros i futs. simpl. unfold wait_call. by rewrite Hs, Hsc.
Qed.

Lemma scan_single ws ev :
  ∀ i futs,
    (length (filter (λ w, satisfied w ev = true) ws) ≤ 1)%nat →
    ((scan ws i ev futs).1 = [] ∧ unsatisfied_of ws ev = ws)
    ∨ (∃ k, (scan ws i ev futs).1 = [(i + k)%nat]
            ∧ (k < length ws)%nat
            ∧ delete k ws = unsatisfied_of ws ev).
Proof.
  induction ws as [|w rest IH]; intros i futs Hle; [by left|].
  simpl. unfold wait_call.
  destruct (satisfied w ev) eqn:Hs.
  - rewrite filter_cons_True in Hle by done. simpl in Hle.
    assert (H0 : length (filter (λ w, satisfied w ev = true) rest) = 0%nat) by lia.
    destruct (filter_none_satisfied rest ev H0) as [Hu Hsc].
    rewrite Hsc. simpl. right. exists 0%nat. split_and!.
    + by rewrite Nat.add_0_r.
    + lia.
    + simpl. unfold unsatisfied_of in *.
      rewrite filter_cons_False; [done|]. by rewrite Hs.
  - rewrite filter_cons_False in Hle by (by rewrite Hs).
    destruct (IH (S i) futs Hle) as [[Hnil Hu]|(k & Hk & Hlt & Hdel)];
      destruct (scan rest (S i) ev futs) as [idxs futs2]; simpl in *.
    + left. split; [done|]. unfold unsatisfied_of in *.
      rewrite filter_cons_True by done. by rewrite Hu.
    + right. exists (S k). split_and!.
      * rewrite Hk. f_equal. lia.
      * lia.
      * simpl. unfold unsatisfied_of in *.
        rewrite filter_cons_True by done. by rewrite Hdel.
Qed.

(** X6. When the event satisfies at most one of the waits pending under its
    name, dispatch does not raise and removes exactly that wait: what stays
    pending is the list with the satisfied wait filtered out, the others in
    their order. *)
Theorem dispatch_with_one_match_removes_it c ev :
  loop_running c = true →
  (length (filter (λ w, satisfied w ev = true) (pending c (resolved_name ev))) ≤ 1)%nat →
  d_raised (dispatch c ev) = None
  ∧ pending (d_client (dispatch c ev)) (resolved_name ev)
    = unsatisfied_of (pending c (resolved_name ev)) ev.
Proof.
  intros Hrun Hle. unfold dispatch, pending in *.
  assert (Hq : ∀ ls, (queue_all c ls ev).2 = None).
  { induction ls as [|l rest IH]; simpl; [done|].
    unfold _queue_task. rewrite Hrun.
    destruct (queue_all c rest ev) as [ts e]. by simpl in *. }
  specialize (Hq (default [] (listeners c !! resolved_name ev))).
  destruct (queue_all c _ ev) as [ts e]. simpl in Hq. subst e.
  destruct (waits c !! resolved_name ev) as [ws|] eqn:Hws; simpl in *.
  - destruct (scan_single ws ev 0%nat (futures c) Hle)
      as [[Hnil Hu]|(k & Hk & Hlt & Hdel)];
      destruct (scan ws 0 ev (futures c)) as [idxs futs]; simpl in *; subst idxs.
    + simpl. rewrite lookup_insert_eq. simpl. by rewrite Hu.
    + simpl. unfold pop. rewrite decide_True by done. simpl.
      rewrite lookup_insert_eq. simpl. by rewrite Hdel.
  - by rewrite Hws.
Qed.

Lemma dispatch_with_one_match_removes_it_witness :
  let c := {| loop_running := true; listeners := ∅;
              waits := {[ "x" := [wait_no 0; wait_yes 1; wait_no 2] ]};
              futures := [Pending; Pending; Pending] |} in
  d_raised (dispatch c ev_x) = None
  ∧ pending (d_client (dispatch c ev_x)) (resolved_name ev_x)
    = unsatisfied_of (pending c (resolved_name ev_x)) ev_x.
Proof.
  cbv zeta.
  apply (dispatch_with_one_match_removes_it
           {| loop_running := true; listeners := ∅;
              waits := {[ "x" := [wait_no 0; wait_yes 1; wait_no 2] ]};
              futures := [Pending; Pending; Pending] |} ev_x).
  - reflexivity.
  - vm_compute. lia.
Defined.

Lemma scan_skips_unsatisfied xs ys ev :
  (∀ w, w ∈ xs → satisfied w ev = false) →
  ∀ i futs, scan (xs ++ ys) i ev futs = scan ys (i + length xs) ev futs.
Proof.
  induction xs as [|w rest IH]; intros Hun i futs; simpl.
  - by rewrite Nat.add_0_r.
  - unfold wait_call. rewrite (Hun w) by apply list_elem_of_here.
    rewrite IH by (intros w' Hw'; apply Hun; by apply list_elem_of_further).
    replace (S i + length rest)%nat with (i + S (length rest))%nat by lia.
    by destruct (scan ys _ ev futs).
Qed.

(** X7. Registering a wait and then dispatching an event that satisfies it
    (and none of the waits that were pending under that name before) is a
    round trip on the wait table: the dispatch does not raise, the pending
    list of the name is what it was before [wait_for], and the future that
    [wait_for] created holds the event. *)
Theorem wait_for_is_resolved_by_matching_dispatch c event checks ev :
  loop_running c = true →
  resolved_name ev = event →
  (∀ w, w ∈ pending c event → satisfied w ev = false) →
  (∀ chk, checks = Some chk → chk ev = true) →
  let c1 := (wait_for c event checks).1 in
  let future := (wait_for c event checks).2 in
  d_raised (dispatch c1 ev) = None
  ∧ pending (d_client (dispatch c1 ev)) event = pending c event
  ∧ futures (d_client (dispatch c1 ev)) !! future = Some (Resolved ev).
Proof.
  intros Hrun <- Hold Hchk. cbv zeta. unfold wait_for. simpl.
  set (w := {| w_event := resolved_name ev; w_checks := checks;
               w_future := length (futures c) |}).
  assert (Hw : satisfied w ev = true).
  { unfold satisfied. simpl. destruct checks as [chk|]; [by apply Hchk|done]. }
  unfold dispatch. simpl.
  assert (Hq : ∀ ls, (queue_all
                        (set_waits c (<[resolved_name ev := pending c (resolved_name ev) ++ [w]]>
                                        (waits c)) (futures c ++ [Pending])) ls ev).2 = None).
  { induction ls as [|l rest IH]; simpl; [done|].
    unfold _queue_task. simpl. rewrite Hrun.
    destruct (queue_all _ rest ev) as [ts e]. by simpl in *. }
  specialize (Hq (default [] (listeners c !! resolved_name ev))).
  destruct (queue_all _ _ ev) as [ts e]. simpl in Hq. subst e.
  rewrite lookup_insert_eq.
  rewrite (scan_skips_unsatisfied _ [w] ev Hold). simpl.
  unfold wait_call. rewrite Hw. simpl.
  unfold pop. rewrite decide_True by (rewrite length_app; simpl; lia).
  simpl. rewrite (delete_middle _ [] w), app_nil_r.
  split_and!.
  - done.
  - unfold pending at 1. simpl. by rewrite lookup_insert_eq.
  - apply list_lookup_insert_eq. rewrite length_app. simpl. lia.
Qed.

Lemma wait_for_is_resolved_by_matching_dispatch_witness :
  let c := {| loop_running := true; listeners := ∅;
              waits := {[ "x" := [wait_no 0] ]}; futures := [Pending] |} in
  let c1 := (wait_for c "x" (Some (λ ev, payload ev =? 7))).1 in
  pending (d_client (dispatch c1 ev_x)) "x" = pending c "x"
  ∧ futures (d_client (dispatch c1 ev_x)) !! 1%nat = Some (Resolved ev_x).
Proof.
  cbv zeta.
  destruct (wait_for_is_resolved_by_matching_dispatch
              {| loop_running := true; listeners := ∅;
                 waits := {[ "x" := [wait_no 0] ]}; futures := [Pending] |}
              "x" (Some (λ ev, payload ev =? 7)) ev_x)
    as (_ & Hp & Hf).
  - reflexivity.
  - reflexivity.
  - intros w Hw. vm_compute in Hw.
    apply elem_of_cons in Hw as [->|Hw]; [reflexivity|].
    by apply elem_of_nil in Hw.
  - intros chk Hc. injection Hc as <-. reflexivity.
  - split; [exact Hp|exact Hf].
Defined.

(** X8. When queuing a listener fails, dispatch raises [BotException] before
    it looks at any wait: no task is handed back, and the wait table and the
    futures are untouched, matching waits included. *)
Theorem dispatch_queue_failure_skips_the_waits c ev l ls :
  loop_running c = false →
  listeners c !! resolved_name ev = Some (l :: ls) →
  dispatch c ev = {| d_tasks := []; d_client := c; d_raised := Some BotException |}.
Proof.
  intros Hrun Hls. unfold dispatch. rewrite Hls. simpl.
  unfold _queue_task. by rewrite Hrun.
Qed.

Lemma dispatch_queue_failure_skips_the_waits_witness :
  let c := {| loop_running := false; listeners := {[ "x" := [quiet_listener] ]};
              waits := {[ "x" := [wait_yes 0] ]}; futures := [Pending] |} in
  dispatch c ev_x = {| d_tasks := []; d_client := c; d_raised := Some BotException |}.
Proof.
  cbv zeta.
  apply (dispatch_queue_failure_skips_the_waits
           {| loop_running := false; listeners := {[ "x" := [quiet_listener] ]};
              waits := {[ "x" := [wait_yes 0] ]}; futures := [Pending] |}
           ev_x quiet_listener []);
    reflexivity.
Defined.

End EventsFacts.

(* ===================================================================== *)
(** ** Further properties of the command router *)
(* ===================================================================== *)

Module RouterFacts.
Import Router RouterNotions.

Lemma dict_set_keys key value kw k :
  k ∈ map fst (dict_set key value kw) ↔ k = key ∨ k ∈ map fst kw.
Proof.
  induction kw as [|[k0 v0] rest IH]; simpl.
  - rewrite list_elem_of_singleton. set_solver.
  - destruct (String.eqb k0 key) eqn:Hk; simpl.
    + apply String.eqb_eq in Hk as ->. rewrite !elem_of_cons. tauto.
    + rewrite !elem_of_cons, IH. tauto.
Qed.

Lemma dict_set_NoDup key value kw :
  NoDup (map fst kw) → NoDup (map fst (dict_set key value kw)).
Proof.
  induction kw as [|[k0 v0] rest IH]; simpl; intros Hnd.
  - apply NoDup_singleton.
  - apply NoDup_cons in Hnd as [Hnotin Hnd].
    destruct (String.eqb k0 key) eqn:Hk; simpl.
    + by apply NoDup_cons.
    + apply NoDup_cons. split; [|by apply IH].
      rewrite dict_set_keys. intros [->|Hin]; [|done].
      by rewrite String.eqb_refl in Hk.
Qed.

Section Options.

Variable to_snowflake : Value → option Z.
Variable from_dict : ContextKind → Interaction → option string.
Variable cache : GlobalCache.

Lemma resolve_plain guild o :
  plain o → resolve_option to_snowflake cache guild o = inr (o_value o).
Proof.
  intros (H1 & H2 & H3 & H4). unfold resolve_option.
  apply Z.eqb_neq in H1, H2, H3, H4. by rewrite H1, H2, H3, H4.
Qed.

Lemma resolve_options_plain guild options :
  Forall plain options →
  ∀ kw foc, ∃ kw' foc',
    resolve_options to_snowflake cache guild options kw foc = inr (kw', foc').
Proof.
  induction 1 as [|o rest Ho _ IH]; intros kw foc; simpl; [by eexists _, _|].
  rewrite (resolve_plain guild o Ho). apply IH.
Qed.

Lemma descend_flat name options :
  (∀ first, head options = Some first →
            o_type first ≠ SUB_COMMAND ∧ o_type first ≠ SUB_COMMAND_GROUP) →
  descend name options = inr (name, options).
Proof.
  intros Hfirst. unfold descend. destruct options as [|first rest]; [done|].
  destruct (Hfirst first eq_refl) as [H1 H2].
  apply Z.eqb_neq in H1, H2. by rewrite H1, H2.
Qed.

(** X9. A payload without sub-commands whose options are all of kinds that
    the cache does not resolve (strings, integers, booleans, numbers), and
    whose context [from_dict] builds, always yields a context, whatever the
    option values are and whatever [to_snowflake] accepts: no id conversion
    is attempted for them, and each option (the last of its name) reaches
    the handler with the value as sent. When [from_dict] raises,
    [get_context] raises with it. *)
Theorem plain_options_pass_through type guild name options :
  type ≠ MESSAGE_COMPONENT →
  Forall plain options →
  (∀ first, head options = Some first →
            o_type first ≠ SUB_COMMAND ∧ o_type first ≠ SUB_COMMAND_GROUP) →
  let data := {| i_type := type; i_guild_id := guild; i_name := name;
                 i_options := Some options |} in
  (∀ err, from_dict (kind_of type) data = Some err →
          get_context to_snowflake from_dict cache data = inl (FromDictError err))
  ∧ (from_dict (kind_of type) data = None →
     ∃ ctx,
       get_context to_snowflake from_dict cache data = inr ctx
       ∧ invoked_name ctx = name
       ∧ ∀ before o after,
           options = before ++ o :: after →
           (∀ o', o' ∈ after → lower (o_name o') ≠ lower (o_name o)) →
           dict_get (lower (o_name o)) (kwargs ctx) = Some (o_value o)).
Proof.
  intros Hty Hplain Hfirst. cbv zeta. unfold get_context.
  cbn [i_type i_options i_guild_id i_name default from_option id].
  split; [by intros err ->|]. intros ->.
  apply Z.eqb_neq in Hty. rewrite Hty.
  rewrite (descend_flat name options Hfirst).
  destruct (resolve_options_plain guild options Hplain [] None) as (kw & foc & Hres).
  rewrite Hres. eexists. split; [done|]. split; [done|].
  intros before o after -> Hlast. simpl.
  destruct (RouterSpec.resolve_options_binds to_snowflake cache guild before o after
              _ _ _ _ Hlast Hres) as (v & Hv & Hget).
  rewrite resolve_plain in Hv.
  - by injection Hv as <-.
  - rewrite Forall_app, Forall_cons in Hplain. tauto.
Qed.

Lemma resolve_options_keys guild options :
  ∀ kw foc kw' foc',
    resolve_options to_snowflake cache guild options kw foc = inr (kw', foc') →
    (NoDup (map fst kw) → NoDup (map fst kw'))
    ∧ ∀ k, k ∈ map fst kw'
           ↔ k ∈ map fst kw ∨ k ∈ map (λ o, lower (o_name o)) options.
Proof.
  induction options as [|o rest IH]; intros kw foc kw' foc' Hres; simpl in Hres.
  - injection Hres as <- <-. split; [done|]. intros k. simpl. set_solver.
  - destruct (resolve_option to_snowflake cache guild o) as [e|v]; [done|].
    destruct (IH _ _ _ _ Hres) as [Hnd Hkeys]. split.
    + intros Hkw. by apply Hnd, dict_set_NoDup.
    + intros k. rewrite Hkeys, dict_set_keys. simpl. rewrite elem_of_cons. tauto.
Qed.

(** X10. Whenever [get_context] returns a context for a payload without
    sub-commands, the keyword arguments have one entry per distinct
    lower-cased option name: no key occurs twice, the keys are exactly the
    lower-cased names of the options, and the positional arguments are the
    values of the keyword arguments in the same order. *)
Theorem kwargs_have_one_entry_per_option_name type guild name options ctx :
  type ≠ MESSAGE_COMPONENT →
  (∀ first, head options = Some first →
            o_type first ≠ SUB_COMMAND ∧ o_type first ≠ SUB_COMMAND_GROUP) →
  get_context to_snowflake from_dict cache
    {| i_type := type; i_guild_id := guild; i_name := name;
       i_options := Some options |} = inr ctx →
  NoDup (map fst (kwargs ctx))
  ∧ (∀ k, k ∈ map fst (kwargs ctx) ↔ k ∈ map (λ o, lower (o_name o)) options)
  ∧ args ctx = map snd (kwargs ctx)
  ∧ (length (args ctx) ≤ length options)%nat.
Proof.
  intros Hty Hfirst. unfold get_context.
  cbn [i_type i_options i_guild_id i_name default from_option id].
  destruct (from_dict _ _) as [err|]; [done|].
  apply Z.eqb_neq in Hty. rewrite Hty.
  rewrite (descend_flat name options Hfirst).
  destruct (resolve_options to_snowflake cache guild options [] None)
    as [e|[kw foc]] eqn:Hres; [done|].
  intros H. injection H as <-. simpl.
  destruct (resolve_options_keys _ _ _ _ _ _ Hres) as [Hnd Hkeys].
  assert (Hnd' : NoDup (map fst kw)) by (apply Hnd; constructor).
  assert (Hk : ∀ k, k ∈ map fst kw ↔ k ∈ map (λ o, lower (o_name o)) options).
  { intros k. rewrite Hkeys. simpl. set_solver. }
  split_and!; [done|done|done|].
  rewrite length_fmap, <- (length_map fst), <- (length_map (λ o, lower (o_name o)) options).
  apply submseteq_length, NoDup_submseteq; [done|].
  intros k Hin. by apply Hk.
Qed.

Lemma resolve_options_focus guild options :
  ∀ kw foc kw' foc',
    resolve_options to_snowflake cache guild options kw foc = inr (kw', foc') →
    (Forall (λ o, o_focused o = false) options → foc' = foc)
    ∧ ∀ before o after,
        options = before ++ o :: after →
        o_focused o = true →
        Forall (λ o', o_focused o' = false) after →
        foc' = Some (o_name o).
Proof.
  induction options as [|o rest IH]; intros kw foc kw' foc' Hres; simpl in Hres.
  - injection Hres as <- <-. split; [done|].
    intros before o after H. by destruct before.
  - destruct (resolve_option to_snowflake cache guild o) as [e|v]; [done|].
    destruct (IH _ _ _ _ Hres) as [Hnone Hlast]. split.
    + intros Hall. apply Forall_cons in Hall as [Ho Hrest].
      rewrite Ho in Hnone. by apply Hnone.
    + intros before o1 after Heq Hf Hafter.
      destruct before as [|b before]; simpl in Heq; injection Heq as -> ->.
      * rewrite Hf in Hnone. by apply Hnone.
      * by apply (Hlast before o1 after).
Qed.

(** X11. The focused option that [get_context] records for autocomplete
    routing is the name of the last option flagged as focused; when no option
    is flagged, none is recorded. *)
Theorem focussed_option_is_the_last_focused type guild name options ctx :
  type ≠ MESSAGE_COMPONENT →
  (∀ first, head options = Some first →
            o_type first ≠ SUB_COMMAND ∧ o_type first ≠ SUB_COMMAND_GROUP) →
  get_context to_snowflake from_dict cache
    {| i_type := type; i_guild_id := guild; i_name := name;
       i_options := Some options |} = inr ctx →
  (Forall (λ o, o_focused o = false) options → focussed_option ctx = None)
  ∧ ∀ before o after,
      options = before ++ o :: after →
      o_focused o = true →
      Forall (λ o', o_focused o' = false) after →
      focussed_option ctx = Some (o_name o).
Proof.
  intros Hty Hfirst. unfold get_context.
  cbn [i_type i_options i_guild_id i_name default from_option id].
  destruct (from_dict _ _) as [err|]; [done|].
  apply Z.eqb_neq in Hty. rewrite Hty.
  rewrite (descend_flat name options Hfirst).
  destruct (resolve_options to_snowflake cache guild options [] None)
    as [e|[kw foc]] eqn:Hres; [done|].
  intros H. injection H as <-. simpl.
  apply (resolve_options_focus _ _ _ _ _ _ Hres).
Qed.

(** X12. Sub-commands only change the invoked name. Once [from_dict] has
    built the context of the payload at hand, the context of a payload whose
    first option is a sub-command is the context of the same payload
    carrying the sub-command's own options, invoked as "name sub"; for a
    sub-command group whose first entry is the sub-command it is that of
    the sub-command's options, invoked as "name group sub". A sub-command
    without options has no arguments. When [from_dict] raises,
    [get_context] raises with it. *)
Theorem sub_commands_only_extend_the_name type guild name inner sub value foc group :
  (∀ first, head inner = Some first →
            o_type first ≠ SUB_COMMAND ∧ o_type first ≠ SUB_COMMAND_GROUP) →
  let payload options :=
    {| i_type := type; i_guild_id := guild; i_name := name;
       i_options := Some options |} in
  let built := get_context to_snowflake (λ _ _, None) cache in
  let sub_command := MkOpt SUB_COMMAND sub value foc (Some inner) in
  let in_group := MkOpt SUB_COMMAND_GROUP group value foc (Some [sub_command]) in
  let extended data invoked :=
    match from_dict (kind_of type) data with
    | Some err => inl (FromDictError err)
    | None => if type =? MESSAGE_COMPONENT then built (payload inner)
              else renamed invoked (built (payload inner))
    end in
  get_context to_snowflake from_dict cache (payload [sub_command])
  = extended (payload [sub_command]) (name +:+ " " +:+ sub)
  ∧ get_context to_snowflake from_dict cache (payload [in_group])
    = extended (payload [in_group]) (name +:+ " " +:+ group +:+ " " +:+ sub)
  ∧ (∀ options,
       from_dict (kind_of type) (payload options) = None →
       get_context to_snowflake from_dict cache (payload options)
       = built (payload options)).
Proof.
  intros Hfirst. cbv zeta. unfold get_context.
  cbn [i_type i_options i_guild_id i_name default from_option id].
  split_and!; [| |by intros options ->];
    (destruct (from_dict _ _) as [err|]; [done|]);
    (destruct (type =? MESSAGE_COMPONENT); [done|]);
    rewrite (descend_flat name inner Hfirst);
    unfold descend; cbn;
    by destruct (resolve_options to_snowflake cache guild inner [] None) as [e|[kw f]].
Qed.

End Options.

Lemma kwargs_have_one_entry_per_option_name_witness :
  NoDup (map fst [("target", VUser {| user_tag := "ann#0001" |})])
  ∧ (length [VUser {| user_tag := "ann#0001" |}] ≤ 1)%nat.
Proof.
  destruct (kwargs_have_one_entry_per_option_name snowflake_of from_guild cache0
              APPLICATION_COMMAND (Some (VStr "2")) "greet" [user_option "Target" "42"]
              {| ctx_kind := InteractionContext; invoked_name := "greet";
                 kwargs := [("target", VUser {| user_tag := "ann#0001" |})];
                 args := [VUser {| user_tag := "ann#0001" |}];
                 focussed_option := None |})
    as (Hnd & _ & _ & Hlen).
  - discriminate.
  - intros first Hf. injection Hf as <-. split; discriminate.
  - reflexivity.
  - split; [exact Hnd|exact Hlen].
Defined.

Lemma focussed_option_is_the_last_focused_witness :
  focussed_option
    {| ctx_kind := AutocompleteContext; invoked_name := "greet";
       kwargs := [("a", VStr "x"); ("b", VStr "y")];
       args := [VStr "x"; VStr "y"]; focussed_option := Some "b" |}
  = Some "b".
Proof.
  destruct (focussed_option_is_the_last_focused snowflake_of from_guild cache0
              AUTOCOMPLETE (Some (VStr "2")) "greet"
              [MkOpt 3 "a" (VStr "x") true None; MkOpt 3 "b" (VStr "y") true None]
              {| ctx_kind := AutocompleteContext; invoked_name := "greet";
                 kwargs := [("a", VStr "x"); ("b", VStr "y")];
                 args := [VStr "x"; VStr "y"]; focussed_option := Some "b" |})
    as [_ Hlast].
  - discriminate.
  - intros first Hf. injection Hf as <-. split; discriminate.
  - reflexivity.
  - apply (Hlast [MkOpt 3 "a" (VStr "x") true None]
                 (MkOpt 3 "b" (VStr "y") true None) []);
      [reflexivity|reflexivity|constructor].
Defined.

Lemma sub_commands_only_extend_the_name_witness :
  get_context snowflake_of from_guild cache0
    {| i_type := APPLICATION_COMMAND; i_guild_id := Some (VStr "2"); i_name := "user";
       i_options := Some [MkOpt SUB_COMMAND "greet" VNone false
                            (Some [user_option "Target" "42"])] |}
  = renamed "user greet"
      (get_context snowflake_of from_guild cache0
         {| i_type := APPLICATION_COMMAND; i_guild_id := Some (VStr "2");
            i_name := "user"; i_options := Some [user_option "Target" "42"] |}).
Proof.
  destruct (sub_commands_only_extend_the_name snowflake_of from_guild cache0
              APPLICATION_COMMAND (Some (VStr "2")) "user" [user_option "Target" "42"]
              "greet" VNone false "grp") as (Hsub & _ & Hbuilt).
  - intros first Hf. injection Hf as <-. split; discriminate.
  - rewrite (Hbuilt [user_option "Target" "42"] eq_refl). exact Hsub.
Defined.

Lemma plain_options_pass_through_witness :
  ∃ ctx,
    get_context snowflake_of from_guild cache0
      {| i_type := APPLICATION_COMMAND; i_guild_id := Some (VStr "2"); i_name := "say";
         i_options := Some [MkOpt 3 "Text" (VStr "not an id") false None] |} = inr ctx
    ∧ invoked_name ctx = "say"
    ∧ ∀ before o after,
        [MkOpt 3 "Text" (VStr "not an id") false None] = before ++ o :: after →
        (∀ o', o' ∈ after → lower (o_name o') ≠ lower (o_name o)) →
        dict_get (lower (o_name o)) (kwargs ctx) = Some (o_value o).
Proof.
  apply (plain_options_pass_through snowflake_of from_guild cache0 APPLICATION_COMMAND
           (Some (VStr "2")) "say" [MkOpt 3 "Text" (VStr "not an id") false None]).
  - discriminate.
  - constructor; [|constructor]. repeat split; discriminate.
  - intros first Hf. injection Hf as <-. split; discriminate.
  - reflexivity.
Defined.

Section MessagePath.

Variable MENTION_PREFIX : string.
Variable get_first_word : string → option string.
Variable get_args : string → list string.
Variable content_parameters : Message → string → string → string.

Lemma run_command_shape c message prefix :
  run_command get_first_word get_args content_parameters c message prefix = []
  ∨ ∃ name command ctx tail,
      startswith (content message) prefix = true
      ∧ commands c !! name = Some command
      ∧ enabled command = true
      ∧ mc_prefix ctx = prefix
      ∧ run_command get_first_word get_args content_parameters c message prefix
        = Invoke name ctx :: tail
      ∧ (tail = [OnCommand ctx]
         ∨ ∃ source err, tail = [OnCommandError source err; OnCommand ctx]).
Proof.
  unfold run_command.
  destruct (startswith (content message) prefix) eqn:Hs; [|by left].
  destruct (get_first_word _) as [name|]; [|by left].
  destruct (commands c !! name) as [command|] eqn:Hc; [|by left].
  destruct (enabled command) eqn:He; [|by left].
  right.
  set (ctx := {| mc_message := message; mc_invoked_name := name; mc_prefix := prefix;
                 mc_args := get_args (content_parameters message prefix name) |}).
  exists name, command, ctx,
    (match callback command ctx with
     | Some err => [OnCommandError ("cmd `" +:+ name +:+ "`") err; OnCommand ctx]
     | None => [OnCommand ctx]
     end).
  split_and!; [done|done|done|done|done|].
  destruct (callback command ctx) as [err|]; [right; by eexists _, _|by left].
Qed.

(** X13. Whenever [_dispatch_msg_commands] invokes a command, the author is
    not a bot, the message starts with the prefix recorded on the context,
    the command is registered under the invoked name and enabled; it is the
    only command invoked for the message, and the after-command hook is the
    last thing that runs, whether or not the command raised. *)
Theorem message_command_runs_are_bracketed c message name ctx :
  let steps := _dispatch_msg_commands MENTION_PREFIX get_first_word get_args
                 content_parameters c message in
  Invoke name ctx ∈ steps →
  bot (author message) = false
  ∧ startswith (content message) (mc_prefix ctx) = true
  ∧ (∃ command, commands c !! name = Some command ∧ enabled command = true)
  ∧ last steps = Some (OnCommand ctx)
  ∧ length (filter (λ s, is_invoke s = true) steps) = 1%nat.
Proof.
  cbv zeta. unfold _dispatch_msg_commands.
  destruct (bot (author message)); simpl; [intros H; by apply elem_of_nil in H|].
  assert (Hgen : ∀ prefix,
            Invoke name ctx
              ∈ GetPrefix message
                :: run_command get_first_word get_args content_parameters c message prefix →
            false = false
            ∧ startswith (content message) (mc_prefix ctx) = true
            ∧ (∃ command, commands c !! name = Some command ∧ enabled command = true)
            ∧ last (GetPrefix message
                    :: run_command get_first_word get_args content_parameters c message
                         prefix) = Some (OnCommand ctx)
            ∧ length (filter (λ s, is_invoke s = true)
                        (GetPrefix message
                         :: run_command get_first_word get_args content_parameters c
                              message prefix)) = 1%nat).
  { intros prefix Hin.
    apply elem_of_cons in Hin as [Hin|Hin]; [discriminate Hin|].
    destruct (run_command_shape c message prefix)
      as [Hnil|(n & command & cx & tail & Hs & Hc & He & Hp & Hrun & Htail)].
    { rewrite Hnil in Hin. by apply elem_of_nil in Hin. }
    rewrite Hrun in Hin |- *.
    assert (n = name ∧ cx = ctx) as [-> ->].
    { apply elem_of_cons in Hin as [Hin|Hin]; [by injection Hin as -> ->|].
      destruct Htail as [->|(src & err & ->)];
        repeat (apply elem_of_cons in Hin as [Hin|Hin]; [discriminate Hin|]);
        by apply elem_of_nil in Hin. }
    split_and!; [done|by rewrite Hp|by exists command| |];
      destruct Htail as [->|(src & err & ->)]; reflexivity. }
  destruct (String.eqb (get_prefix c message) MENTION_PREFIX).
  - destruct (_mention_reg c (content message)) as [mention|].
    + apply Hgen.
    + intros Hin. apply elem_of_cons in Hin as [Hin|Hin]; [discriminate Hin|].
      by apply elem_of_nil in Hin.
  - apply Hgen.
Qed.

End MessagePath.

Lemma message_command_runs_are_bracketed_witness :
  let ctx := {| mc_message := from_human; mc_invoked_name := "ping";
                mc_prefix := "!"; mc_args := [] |} in
  last (_dispatch_msg_commands "<mention>" first_word (λ _, []) (λ _ _ _, "")
          bot_client from_human) = Some (OnCommand ctx).
Proof.
  cbv zeta.
  destruct (message_command_runs_are_bracketed "<mention>" first_word (λ _, [])
              (λ _ _ _, "") bot_client from_human "ping"
              {| mc_message := from_human; mc_invoked_name := "ping";
                 mc_prefix := "!"; mc_args := [] |})
    as (_ & _ & _ & Hlast & _).
  - vm_compute. apply list_elem_of_further, list_elem_of_here.
  - exact Hlast.
Defined.

End RouterFacts.

(* ===================================================================== *)
(** ** Further properties of command reconciliation *)
(* ===================================================================== *)

Module ReconcilerFacts.
Import Reconciler ReconcilerNotions.

(** *** Invariants along a computation *)

Lemma keeps_ret {A} I P (a : A) : keeps I P (ret a).
Proof.
  intros s r s' HI H. injection H as <- <-. split; [done|].
  exists []. by rewrite app_nil_r.
Qed.

Lemma keeps_raise {A} I P e : keeps I P (@raise A e).
Proof.
  intros s r s' HI H. injection H as <- <-. split; [done|].
  exists []. by rewrite app_nil_r.
Qed.

Lemma keeps_lift {A} I P (x : Exn + A) : keeps I P (lift x).
Proof.
  intros s r s' HI H. injection H as <- <-. split; [done|].
  exists []. by rewrite app_nil_r.
Qed.

Lemma keeps_modify I P f : (∀ c, I c → I (f c)) → keeps I P (modify f).
Proof.
  intros Hf s r s' HI H. injection H as <- <-. simpl. split; [by apply Hf|].
  exists []. by rewrite app_nil_r.
Qed.

Lemma keeps_call {A} I (P : Request → Prop) req (resp : list Request → Response A) :
  P req → keeps I P (call req resp).
Proof.
  intros HP s r s' HI H. injection H as <- <-. simpl. split; [done|].
  exists [req]. split; [done|]. by constructor.
Qed.

Lemma keeps_bind {A B} I P (m : M A) (k : A → M B) :
  keeps I P m → (∀ a, keeps I P (k a)) → keeps I P (bind m k).
Proof.
  intros Hm Hk s r s' HI H.
  apply ReconcilerSpec.bind_inv in H as [(e & H & ->)|(a & s1 & H1 & H2)].
  - by apply (Hm _ _ _ HI H).
  - destruct (Hm _ _ _ HI H1) as (HI1 & new1 & Hh1 & HP1).
    destruct (Hk a _ _ _ HI1 H2) as (HI2 & new2 & Hh2 & HP2).
    split; [done|]. exists (new1 ++ new2). split.
    + by rewrite Hh2, Hh1, app_assoc.
    + by apply Forall_app.
Qed.

(** After [get_client] the continuation may rely on the invariant. *)
Lemma keeps_with_client {B} I P (k : Client → M B) :
  (∀ c, I c → keeps I P (k c)) → keeps I P (bind get_client k).
Proof.
  intros Hk s r s' HI H. unfold bind, get_client in H.
  by apply (Hk (cl s) HI s r s' HI).
Qed.

Lemma keeps_for_each {A} I P (l : list A) (body : A → M unit) :
  (∀ x, keeps I P (body x)) → keeps I P (for_each l body).
Proof.
  intros Hb. induction l as [|x rest IH]; simpl.
  - apply keeps_ret.
  - apply keeps_bind; [apply Hb|]. intros _. apply IH.
Qed.

Lemma keeps_missing_access {A} I P scope (m : M A) :
  keeps I P m → keeps I P (missing_access_on_forbidden scope m).
Proof.
  intros Hm s r s' HI H. unfold missing_access_on_forbidden in H.
  destruct (m s) as [[e|a] s1] eqn:Hms.
  - destruct (Hm _ _ _ HI Hms) as [HI1 Hn].
    assert (s1 = s') as <- by (destruct e; by injection H as _ <-). done.
  - injection H as <- <-. by apply (Hm _ _ _ HI Hms).
Qed.

Lemma keeps_cache_unregistered I P http scope :
  P (Get scope) →
  (∀ id sc c, I c → I (set_scope id sc c)) →
  keeps I P (cache_unregistered http scope).
Proof.
  intros HP Hset s r s' HI H. unfold cache_unregistered in H.
  assert (Hg : keeps I P (http_get http scope)) by (by apply keeps_call).
  destruct (http_get http scope s) as [[e|remote_cmds] s1] eqn:Hget;
    destruct (Hg _ _ _ HI Hget) as (HI1 & new1 & Hh1 & HP1).
  - assert (s1 = s') as <- by (destruct e; by injection H as _ <-). eauto.
  - assert (Hf : keeps I P
                   (for_each remote_cmds
                      (λ cmd_data, modify (set_scope (r_id cmd_data) scope)))).
    { apply keeps_for_each. intros x. apply keeps_modify. intros c. apply Hset. }
    destruct (Hf _ _ _ HI1 H) as (HI2 & new2 & Hh2 & HP2).
    split; [done|]. exists (new1 ++ new2). split.
    + by rewrite Hh2, Hh1, app_assoc.
    + by apply Forall_app.
Qed.

Lemma keeps_cache_interactions I P http :
  (∀ scope, P (Get scope)) →
  (∀ id sc c, I c → I (set_scope id sc c)) →
  (∀ r id c, I c → I (set_cmd_id r id c)) →
  keeps I P (_cache_interactions http).
Proof.
  intros HP Hscope Hid. unfold _cache_interactions.
  apply keeps_with_client. intros c _. apply keeps_bind.
  - apply keeps_for_each. intros entry. unfold cache_registered.
    apply keeps_bind.
    + apply keeps_missing_access. by apply keeps_call.
    + intros remote_cmds. apply keeps_for_each. intros cmd. unfold cache_cmd.
      destruct (remote_by_name remote_cmds (name cmd)); [|apply keeps_ret].
      apply keeps_modify. intros c0 Hc0. by apply Hid, Hscope.
  - intros _. apply keeps_for_each. intros scope.
    by apply keeps_cache_unregistered.
Qed.

Lemma keeps_set_id_if_registered I P scope key id :
  (∀ r i c, I c → I (set_cmd_id r i c)) →
  keeps I P (set_id_if_registered scope key id).
Proof.
  intros Hid. unfold set_id_if_registered. apply keeps_with_client. intros c _.
  destruct (assoc scope (interactions c)) as [locals|]; [|apply keeps_raise].
  destruct (assoc key locals) as [cmd|]; [|apply keeps_ret].
  apply keeps_modify. intros c0. apply Hid.
Qed.

Lemma keeps_cache_posted I P scope cmd_data :
  (∀ id sc c, I c → I (set_scope id sc c)) →
  (∀ r id c, I c → I (set_cmd_id r id c)) →
  keeps I P (cache_posted scope cmd_data).
Proof.
  intros Hscope Hid. unfold cache_posted. apply keeps_bind.
  { apply keeps_modify. intros c. apply Hscope. }
  intros _. apply keeps_with_client. intros c _.
  destruct (assoc scope (interactions c)) as [locals|]; [|apply keeps_raise].
  destruct (assoc (r_name cmd_data) locals) as [cmd|].
  { apply keeps_modify. intros c0. apply Hid. }
  destruct (r_options cmd_data) as [options|]; [|apply keeps_raise].
  apply keeps_for_each. intros sc.
  destruct (opt_type sc =? Router.SUB_COMMAND).
  { by apply keeps_set_id_if_registered. }
  destruct (opt_type sc =? Router.SUB_COMMAND_GROUP); [|apply keeps_ret].
  destruct (opt_options sc) as [subs|]; [|apply keeps_raise].
  apply keeps_for_each. intros _sc. by apply keeps_set_id_if_registered.
Qed.

(** *** What [_cache_interactions] does *)

(** X14. [_cache_interactions] only reads: every call it makes is a fetch
    of a scope's commands, never a post, a permission update or a delete,
    and the table of registered commands is the same afterwards, whether the
    pass ends normally or with an error. *)
Theorem cache_interactions_only_fetches http c h :
  let s := (run (_cache_interactions http) c h).2 in
  interactions (cl s) = interactions c
  ∧ del_unused_app_cmd (cl s) = del_unused_app_cmd c
  ∧ ∃ new, hist s = h ++ new ∧ Forall (λ q, ∃ scope, q = Get scope) new.
Proof.
  cbv zeta. unfold run.
  destruct (_cache_interactions http {| cl := c; hist := h |}) as [r s] eqn:Hrun.
  assert (Hk : keeps (λ c', interactions c' = interactions c
                            ∧ del_unused_app_cmd c' = del_unused_app_cmd c)
                     (λ q, ∃ scope, q = Get scope) (_cache_interactions http)).
  { apply keeps_cache_interactions; [by eexists|done|done]. }
  destruct (Hk {| cl := c; hist := h |} r s (conj eq_refl eq_refl) Hrun)
    as ([Hi Hd] & new & Hh & HP).
  simpl in *. split_and!; [done|done|by exists new].
Qed.

(** X15. The second loop of [_cache_interactions] fetches every scope it is
    given exactly once, in order, and a forbidden answer does not stop it:
    unless a fetch fails with another error, it ends normally after the
    last scope. *)
Theorem unregistered_scopes_survive_forbidden http scopes :
  ∀ s,
    (∀ h scope, get_interaction_element http h scope ≠ RError) →
    let r := for_each scopes (cache_unregistered http) s in
    r.1 = inr tt ∧ hist r.2 = hist s ++ map Get scopes.
Proof.
  induction scopes as [|scope rest IH]; intros s Hok; cbv zeta; simpl.
  - by rewrite app_nil_r.
  - unfold bind.
    assert (Hstep : ∃ s1, cache_unregistered http scope s = (inr tt, s1)
                          ∧ hist s1 = hist s ++ [Get scope]).
    { unfold cache_unregistered, http_get, call.
      destruct (get_interaction_element http (hist s) scope) as [remote| |] eqn:Hans;
        simpl.
      - assert (Hf : ∀ l s0, ∃ s1,
                  for_each l (λ cmd_data : RemoteCmd,
                                modify (set_scope (r_id cmd_data) scope)) s0
                  = (inr tt, s1) ∧ hist s1 = hist s0).
        { induction l as [|x l IHl]; intros s0; simpl; [by eexists|].
          unfold bind, modify.
          destruct (IHl {| cl := set_scope (r_id x) scope (cl s0); hist := hist s0 |})
            as (s1 & Hs1 & Hh1).
          by exists s1. }
        destruct (Hf remote {| cl := cl s; hist := hist s ++ [Get scope] |})
          as (s1 & Hs1 & Hh1).
        exists s1. by rewrite Hs1.
      - by eexists.
      - by apply Hok in Hans. }
    destruct Hstep as (s1 & Hs1 & Hh1). rewrite Hs1.
    destruct (IH s1 Hok) as [Hr Hh]. cbv zeta in Hr, Hh.
    destruct (for_each rest (cache_unregistered http) s1) as [r2 s2].
    simpl in *. split; [done|]. by rewrite Hh, Hh1, <- app_assoc.
Qed.

Lemma unregistered_scopes_survive_forbidden_witness :
  (for_each [Guild 1; Guild 2] (cache_unregistered guild_1_forbidden)
     {| cl := fresh_client; hist := [] |}).1 = inr tt.
Proof.
  apply (unregistered_scopes_survive_forbidden guild_1_forbidden [Guild 1; Guild 2]
           {| cl := fresh_client; hist := [] |}).
  intros h scope. destruct scope; discriminate.
Defined.

(** *** What a pass never does *)

Lemma keeps_sync_body_no_delete http sync_needed cmds_json scope guild_perms :
  keeps (λ c, del_unused_app_cmd c = false) (λ q, is_delete q = false)
        (sync_body http sync_needed cmds_json scope guild_perms).
Proof.
  unfold sync_body.
  apply keeps_bind; [by apply keeps_call|]. intros remote.
  apply keeps_with_client. intros c _.
  apply keeps_bind; [apply keeps_lift|]. intros scan.
  apply keeps_bind.
  { destruct (need_to_sync scan); [|apply keeps_ret].
    apply keeps_bind; [by apply keeps_call|]. intros resp.
    apply keeps_for_each. intros cmd_data. by apply keeps_cache_posted. }
  intros _. apply keeps_with_client. intros c' Hc'.
  apply keeps_bind.
  { apply keeps_for_each. intros entry. by apply keeps_call. }
  intros _. rewrite Hc'. apply keeps_bind; [apply keeps_ret|].
  intros _. apply keeps_ret.
Qed.

(** X16. With the delete policy off, [synchronise_interactions] never
    deletes a remote command: no call it makes is a delete, whatever the
    remote side answers and whether the pass ends normally or not. *)
Theorem no_delete_without_the_policy
    http sync_needed application_commands_to_dict c h :
  del_unused_app_cmd c = false →
  let s := (run (synchronise_interactions http sync_needed application_commands_to_dict)
                c h).2 in
  ∃ new, hist s = h ++ new ∧ Forall (λ q, is_delete q = false) new.
Proof.
  intros Hdel. cbv zeta. unfold run.
  destruct (synchronise_interactions _ _ _ {| cl := c; hist := h |}) as [r s] eqn:Hrun.
  assert (Hk : keeps (λ c, del_unused_app_cmd c = false) (λ q, is_delete q = false)
                 (synchronise_interactions http sync_needed
                    application_commands_to_dict)).
  { unfold synchronise_interactions. apply keeps_bind.
    { by apply keeps_cache_interactions. }
    intros _. apply keeps_with_client. intros c1 _.
    apply keeps_bind; [|intros; apply keeps_ret].
    generalize (@nil (Z * list PermEntry)).
    induction (cmd_scopes_of c1) as [|scope rest IH]; intros gp; simpl.
    - apply keeps_ret.
    - apply keeps_bind; [|intros gp'; apply IH].
      apply keeps_missing_access, keeps_sync_body_no_delete. }
  destruct (Hk {| cl := c; hist := h |} r s Hdel Hrun) as (_ & new & Hh & HP).
  by exists new.
Qed.

Lemma no_delete_without_the_policy_witness :
  ∃ new,
    hist (run (synchronise_interactions all_allowed differs to_dict_by_name)
              fresh_client []).2 = [] ++ new
    ∧ Forall (λ q, is_delete q = false) new.
Proof.
  apply (no_delete_without_the_policy all_allowed differs to_dict_by_name
           fresh_client []).
  reflexivity.
Defined.

(** *** Ids after the cache pass *)

Lemma cache_cmds_effect scope remote (l : list InteractionCommand) :
  ∀ s, ∃ s',
    for_each l (cache_cmd scope remote) s = (inr tt, s')
    ∧ hist s' = hist s
    ∧ (∀ id, _interaction_scopes (cl s) !! id = Some scope →
             _interaction_scopes (cl s') !! id = Some scope)
    ∧ (∀ r, r ∉ map ref l → cmd_id (cl s') !! r = cmd_id (cl s) !! r)
    ∧ (∀ cmd cmd_data,
         cmd ∈ l → remote_by_name remote (name cmd) = Some cmd_data →
         _interaction_scopes (cl s') !! r_id cmd_data = Some scope)
    ∧ (NoDup (map ref l) →
       ∀ cmd cmd_data,
         cmd ∈ l → remote_by_name remote (name cmd) = Some cmd_data →
         cmd_id (cl s') !! ref cmd = Some (r_id cmd_data)).
Proof.
  induction l as [|cmd0 rest IH]; intros s.
  - exists s. split_and!; try done.
    + intros cmd d Hin. by apply elem_of_nil in Hin.
    + intros _ cmd d Hin. by apply elem_of_nil in Hin.
  - simpl. unfold bind.
    set (s1 := (cache_cmd scope remote cmd0 s).2).
    assert (Hstep : cache_cmd scope remote cmd0 s = (inr tt, s1)
                    ∧ hist s1 = hist s
                    ∧ (∀ id, _interaction_scopes (cl s) !! id = Some scope →
                             _interaction_scopes (cl s1) !! id = Some scope)
                    ∧ (∀ r, r ≠ ref cmd0 → cmd_id (cl s1) !! r = cmd_id (cl s) !! r)
                    ∧ (∀ d, remote_by_name remote (name cmd0) = Some d →
                            _interaction_scopes (cl s1) !! r_id d = Some scope
                            ∧ cmd_id (cl s1) !! ref cmd0 = Some (r_id d))).
    { subst s1. unfold cache_cmd.
      destruct (remote_by_name remote (name cmd0)) as [d0|]; simpl.
      - split_and!; try done.
        + intros id Hid. destruct (decide (r_id d0 = id)) as [->|Hne].
          * by rewrite lookup_insert_eq.
          * by rewrite lookup_insert_ne.
        + intros r Hr. by rewrite lookup_insert_ne.
        + intros d Hd. injection Hd as <-. by rewrite !lookup_insert_eq.
      - split_and!; done. }
    destruct Hstep as (Hrun & Hh1 & Hsc1 & Hid1 & Hhit1). rewrite Hrun.
    destruct (IH s1) as (s' & Hrest & Hh & Hsc & Hid & Hhit & Hids).
    exists s'. split_and!.
    + done.
    + congruence.
    + intros id Hid0. by apply Hsc, Hsc1.
    + intros r Hr. simpl in Hr. apply not_elem_of_cons in Hr as [Hne Hr].
      rewrite Hid by done. by apply Hid1.
    + intros cmd d Hin Hd. apply elem_of_cons in Hin as [->|Hin].
      * apply Hsc. by apply (Hhit1 d).
      * by apply (Hhit cmd d).
    + intros Hnd cmd d Hin Hd. simpl in Hnd. apply NoDup_cons in Hnd as [Hnotin Hnd].
      apply elem_of_cons in Hin as [->|Hin].
      * rewrite Hid by done. by apply (Hhit1 d).
      * by apply (Hids Hnd cmd d).
Qed.

(** X17. After the first loop of [_cache_interactions] has handled a scope
    whose fetch was answered, every command registered under the scope whose
    name occurs among the remote commands is routable: the interaction-scope
    map sends the id of the remote command of that name to the scope, and,
    when the commands of the scope are distinct objects, the command's
    [cmd_id] is that id. Of two remote commands of one name the later one
    counts. *)
Theorem cached_ids_route_to_their_scope http scope cmds s remote :
  get_interaction_element http (hist s) scope = ROk remote →
  let r := cache_registered http (scope, cmds) s in
  r.1 = inr tt
  ∧ hist r.2 = hist s ++ [Get scope]
  ∧ (∀ key cmd cmd_data,
       (key, cmd) ∈ cmds → remote_by_name remote (name cmd) = Some cmd_data →
       _interaction_scopes (cl r.2) !! r_id cmd_data = Some scope)
  ∧ (NoDup (map ref (map snd cmds)) →
     ∀ key cmd cmd_data,
       (key, cmd) ∈ cmds → remote_by_name remote (name cmd) = Some cmd_data →
       cmd_id (cl r.2) !! ref cmd = Some (r_id cmd_data)).
Proof.
  intros Hans. cbv zeta. unfold cache_registered, bind, missing_access_on_forbidden.
  unfold http_get, call. simpl. rewrite Hans. simpl.
  destruct (cache_cmds_effect scope remote (map snd cmds)
              {| cl := cl s; hist := hist s ++ [Get scope] |})
    as (s' & Hrun & Hh & _ & _ & Hhit & Hids).
  rewrite Hrun. simpl in *. split_and!; [done|done| |].
  - intros key cmd d Hin Hd. apply (Hhit cmd d); [|done].
    apply list_elem_of_fmap. by exists (key, cmd).
  - intros Hnd key cmd d Hin Hd. apply (Hids Hnd cmd d); [|done].
    apply list_elem_of_fmap. by exists (key, cmd).
Qed.

Lemma cached_ids_route_to_their_scope_witness :
  _interaction_scopes
    (cl (cache_registered steady_remote (GLOBAL_SCOPE, [("ping", plain_ping)])
           {| cl := fresh_client; hist := [] |}).2) !! "900"
  = Some GLOBAL_SCOPE.
Proof.
  destruct (cached_ids_route_to_their_scope steady_remote GLOBAL_SCOPE
              [("ping", plain_ping)] {| cl := fresh_client; hist := [] |}
              [ping_remote]) as (_ & _ & Hhit & _).
  - reflexivity.
  - apply (Hhit "ping" plain_ping ping_remote); [|reflexivity].
    apply list_elem_of_here.
Defined.

(** *** The bulk post of a scope *)

Lemma compare_cmds_to_sync sync_needed c json remote (known : list InteractionCommand) :
  ∀ locals acc scan,
    (∀ x, x ∈ locals → x ∈ known) →
    compare sync_needed c json remote locals acc = inr scan →
    NoDup (cmds_to_sync acc) →
    (∀ j, j ∈ cmds_to_sync acc → ∃ x, x ∈ known ∧ j_name j = name x) →
    NoDup (cmds_to_sync scan)
    ∧ (∀ j, j ∈ cmds_to_sync scan → ∃ x, x ∈ known ∧ j_name j = name x)
    ∧ (need_to_sync acc = true → need_to_sync scan = true).
Proof.
  induction locals as [|local_cmd rest IH]; intros acc scan Hsub Hcmp Hnd Hq;
    simpl in Hcmp.
  - by injection Hcmp as <-.
  - destruct json as [js|]; [|done].
    destruct (List.find (λ j, String.eqb (j_name j) (name local_cmd)) js)
      as [local_json|] eqn:Hfind; [|done].
    apply find_some in Hfind as [_ Hname]. apply String.eqb_eq in Hname.
    apply IH in Hcmp.
    + destruct Hcmp as (H1 & H2 & H3). split_and!; [done|done|].
      intros Hn. apply H3. simpl. by rewrite Hn.
    + intros x Hx. apply Hsub. by apply list_elem_of_further.
    + simpl. case_bool_decide as Hin; [done|].
      apply NoDup_app. split_and!; [done| |apply NoDup_singleton].
      intros j Hj Hj'. apply list_elem_of_singleton in Hj' as ->. done.
    + simpl. intros j Hj. case_bool_decide as Hin; [by apply Hq|].
      apply elem_of_app in Hj as [Hj|Hj]; [by apply Hq|].
      apply list_elem_of_singleton in Hj as ->.
      exists local_cmd. split; [|done]. apply Hsub, list_elem_of_here.
Qed.

Lemma posts_app xs ys : posts (xs ++ ys) = posts xs ++ posts ys.
Proof. unfold posts. apply filter_app. Qed.

Lemma posts_none xs : Forall (λ q, is_post q = false) xs → posts xs = [].
Proof.
  unfold posts. induction 1 as [|x xs Hx _ IH]; [done|].
  rewrite filter_cons_False; [done|]. by rewrite Hx.
Qed.

(** X18. For one scope, [synchronise_interactions] issues at most one bulk
    post. When it issues one, the post is for that scope, it follows the
    fetch directly, and the posted list holds no serialized command twice
    (sub-commands that share a base command contribute it once), each entry
    carrying the name of a command registered under the scope. *)
Theorem at_most_one_bulk_post_per_scope http sync_needed cmds_json scope guild_perms s :
  let r := sync_body http sync_needed cmds_json scope guild_perms s in
  ∃ new,
    hist r.2 = hist s ++ Get scope :: new
    ∧ (posts new = []
       ∨ ∃ cmds rest,
           new = Post scope cmds :: rest
           ∧ posts rest = []
           ∧ NoDup cmds
           ∧ ∀ j, j ∈ cmds →
                  ∃ x, x ∈ locals_of (cl s) scope ∧ j_name j = name x).
Proof.
  cbv zeta.
  destruct (sync_body http sync_needed cmds_json scope guild_perms s) as [r s'] eqn:H.
  unfold sync_body in H. simpl.
  apply ReconcilerSpec.bind_inv in H as [(e & H & ->)|(remote & s1 & Hget & H)].
  { apply ReconcilerSpec.call_inv in H as [_ ->]. simpl. exists []. split; [done|by left]. }
  apply ReconcilerSpec.call_inv in Hget as [_ ->].
  apply ReconcilerSpec.bind_inv in H as [(e & H & ->)|(c & s2 & Hgc & H)];
    [discriminate H|].
  injection Hgc as <- <-. simpl in H.
  apply ReconcilerSpec.bind_inv in H as [(e & H & ->)|(scan & s2 & Hscan & H)].
  { injection H as _ <-. simpl. exists []. split; [done|by left]. }
  injection Hscan as Hcmp <-.
  fold (locals_of (cl s) scope) in Hcmp, H.
  set (tail := λ _ : unit,
         bind get_client (λ c',
           bind (for_each (collect_perms c' (locals_of (cl s) scope) guild_perms)
                   (λ entry, http_set_permissions http entry.1 entry.2))
             (λ _, bind (if del_unused_app_cmd c'
                         then for_each (unmatched remote (found scan))
                                (λ cmd, http_delete http (scope_of cmd) (r_id cmd))
                         else ret tt)
                     (λ _, ret (collect_perms c' (locals_of (cl s) scope) guild_perms)))))
    in H.
  assert (Htail : ∀ u, keeps (λ _, True) (λ q, is_post q = false) (tail u)).
  { intros u. unfold tail. apply keeps_with_client. intros c' _.
    apply keeps_bind.
    { apply keeps_for_each. intros entry. by apply keeps_call. }
    intros _. apply keeps_bind; [|intros; apply keeps_ret].
    destruct (del_unused_app_cmd c'); [|apply keeps_ret].
    apply keeps_for_each. intros cmd. by apply keeps_call. }
  destruct (need_to_sync scan) eqn:Hneed.
  - apply ReconcilerSpec.bind_inv in H as [(e & H & ->)|([] & s3 & Hpost & H)].
    + apply ReconcilerSpec.bind_inv in H as [(e' & H & He)|(resp & s3 & Hp & H)].
      * apply ReconcilerSpec.call_inv in H as [_ ->]. simpl.
        exists [Post scope (cmds_to_sync scan)].
        split; [by rewrite <- app_assoc|]. right.
        exists (cmds_to_sync scan), []. split_and!; [done|done| |];
          apply (compare_cmds_to_sync _ _ _ _ (locals_of (cl s) scope) _ _ _
                   (λ x Hx, Hx) Hcmp); simpl;
          [constructor|intros j Hj; by apply elem_of_nil in Hj
          |constructor|intros j Hj; by apply elem_of_nil in Hj].
      * apply ReconcilerSpec.call_inv in Hp as [_ ->].
        assert (Hk : keeps (λ _, True) (λ q, is_post q = false)
                       (for_each resp (cache_posted scope))).
        { apply keeps_for_each. intros d. by apply keeps_cache_posted. }
        destruct (Hk _ _ _ I H) as (_ & new & Hh & HP). simpl in Hh.
        exists (Post scope (cmds_to_sync scan) :: new).
        split; [by rewrite Hh, <- !app_assoc|]. right.
        exists (cmds_to_sync scan), new. split_and!; [done|by apply posts_none| |];
          apply (compare_cmds_to_sync _ _ _ _ (locals_of (cl s) scope) _ _ _
                   (λ x Hx, Hx) Hcmp); simpl;
          [constructor|intros j Hj; by apply elem_of_nil in Hj
          |constructor|intros j Hj; by apply elem_of_nil in Hj].
    + apply ReconcilerSpec.bind_inv in Hpost as [(e' & Hp & He)|(resp & s4 & Hp & Hc)];
        [discriminate He|].
      apply ReconcilerSpec.call_inv in Hp as [_ ->].
      assert (Hk : keeps (λ _, True) (λ q, is_post q = false)
                     (for_each resp (cache_posted scope))).
      { apply keeps_for_each. intros d. by apply keeps_cache_posted. }
      destruct (Hk _ _ _ I Hc) as (_ & new1 & Hh1 & HP1). simpl in Hh1.
      destruct (Htail tt _ _ _ I H) as (_ & new2 & Hh2 & HP2).
      exists (Post scope (cmds_to_sync scan) :: new1 ++ new2).
      split; [by rewrite Hh2, Hh1, <- !app_assoc|]. right.
      exists (cmds_to_sync scan), (new1 ++ new2).
      split_and!; [done|by rewrite posts_app, !posts_none| |];
        apply (compare_cmds_to_sync _ _ _ _ (locals_of (cl s) scope) _ _ _
                 (λ x Hx, Hx) Hcmp); simpl;
        [constructor|intros j Hj; by apply elem_of_nil in Hj
        |constructor|intros j Hj; by apply elem_of_nil in Hj].
  - apply ReconcilerSpec.bind_inv in H as [(e & H & ->)|([] & s3 & Hr & H)];
      [discriminate H|].
    injection Hr as <-.
    destruct (Htail tt _ _ _ I H) as (_ & new & Hh & HP). simpl in Hh.
    exists new. split; [by rewrite Hh, <- app_assoc|]. left. by apply posts_none.
Qed.

End ReconcilerFacts.

(* ===================================================================== *)
(** ** Passes against a settled remote side *)
(* ===================================================================== *)

Module ReconcilerRuns.
Import Reconciler ReconcilerNotions.

(** *** Finding entries in lists without duplicates *)




(** *** The permission entries a scope adds *)



(** *** One scope of a pass *)



Section Settled.

Variable http : Http.
Variable sync_needed : CmdJson → option RemoteCmd → bool.
Variable remote : Scope → list RemoteCmd.
Variable h0 : list Request.

(** From the calls [h0] on, the remote command set stays as it is: every
    fetch of a scope is answered with the same list. *)
Hypothesis unchanged :
  ∀ later scope, get_interaction_element http (h0 ++ later) scope = ROk (remote scope).






(** *** The refresh of the id cache *)





(** *** One pass, and a second one *)





End Settled.





(** The first pass of that run registers the command: it posts "ping" and
    updates its permissions; the second pass repeats the permission update
    and nothing else. *)
Example first_pass_registers_second_pass_does_not :
  let pass := synchronise_interactions registering_remote differs to_dict_by_name in
  let first := run pass unsynced_client [] in
  let second := run pass (cl first.2) (hist first.2) in
  let update :=
    SetPermissions 1 [{| pe_id := Some "900"; pe_permissions := ["role 5: allow"] |}] in
  writes (hist first.2) = [Post GLOBAL_SCOPE [{| j_name := "ping"; j_body := "" |}]; update]
  ∧ writes (drop (length (hist first.2)) (hist second.2)) = [update].
Proof. cbv zeta. split; reflexivity. Qed.

(** What the theorem leaves out: a command object that is registered under
    two scopes has one [cmd_id], which the cache pass leaves at the id of
    the scope it visited last. The comparison loop then finds no remote
    entry for the command in the other scope, and the bulk post is issued
    again, on every pass. *)
Lemma shared_command_is_posted_on_every_pass :
  let pass := synchronise_interactions two_guilds differs to_dict_by_name in
  let first := run pass shared_client [] in
  let second := run pass (cl first.2) (hist first.2) in
  let third := run pass (cl second.2) (hist second.2) in
  let post guild := Post (Guild guild) [{| j_name := "ping"; j_body := "" |}] in
  first.1 = inr tt ∧ second.1 = inr tt ∧ third.1 = inr tt
  ∧ writes (hist first.2) = [post 1; post 2]
  ∧ writes (drop (length (hist first.2)) (hist second.2)) = [post 1; post 2]
  ∧ writes (drop (length (hist second.2)) (hist third.2)) = [post 1; post 2].
Proof. cbv zeta. split_and!; reflexivity. Qed.

End ReconcilerRuns.

(* ===================================================================== *)
(** ** Further properties of the readiness gate *)
(* ===================================================================== *)

Module ReadinessFacts.
Import Readiness.

Lemma gate_opens_iff expected wakes :
  wait_for_guilds expected wakes ≠ Waiting
  ↔ (TimedOut ∈ wakes
     ∨ ∃ guild_cache, Signalled guild_cache ∈ wakes
                      ∧ size guild_cache = size expected).
Proof.
  induction wakes as [|w rest IH]; simpl.
  - split; [done|]. intros [H|(gc & H & _)]; by apply elem_of_nil in H.
  - destruct w as [|gc].
    + split; [|done]. intros _. left. apply list_elem_of_here.
    + destruct (Nat.eqb (size gc) (size expected)) eqn:Hsz.
      * apply Nat.eqb_eq in Hsz. split; [|done]. intros _. right.
        exists gc. split; [apply list_elem_of_here|done].
      * apply Nat.eqb_neq in Hsz. rewrite IH. split.
        -- intros [H|(gc' & H & Hs)].
           ++ left. by apply list_elem_of_further.
           ++ right. exists gc'. split; [by apply list_elem_of_further|done].
        -- intros [H|(gc' & H & Hs)].
           ++ apply elem_of_cons in H as [H|H]; [discriminate H|by left].
           ++ apply elem_of_cons in H as [H|H].
              ** injection H as ->. done.
              ** right. by exists gc'.
Qed.

(** X19. [_on_websocket_ready] makes the client ready exactly when one of
    the wake-ups of the gate is a timeout or finds as many cached guilds as
    expected. In that case it registers the expected guilds, initialises the
    interactions and dispatches Ready, once and in this order; otherwise it
    is still waiting, has only registered the expected guilds, and the ready
    flag is what it was. *)
Theorem ready_iff_timeout_or_equal_count ready0 data_guilds wakes :
  let expected := expected_guilds data_guilds in
  let opens := TimedOut ∈ wakes
               ∨ ∃ guild_cache, Signalled guild_cache ∈ wakes
                                ∧ size guild_cache = size expected in
  (opens →
   _on_websocket_ready ready0 data_guilds wakes
   = ([AddGuilds expected; InitInteractions; DispatchReady], true))
  ∧ (¬ opens →
     _on_websocket_ready ready0 data_guilds wakes = ([AddGuilds expected], ready0)).
Proof.
  cbv zeta. unfold _on_websocket_ready.
  pose proof (gate_opens_iff (expected_guilds data_guilds) wakes) as Hiff.
  destruct (wait_for_guilds (expected_guilds data_guilds) wakes) eqn:Hw.
  - split; [done|]. intros Hno. exfalso. apply Hno, Hiff. done.
  - split; [done|]. intros Hno. exfalso. apply Hno, Hiff. done.
  - split; [|done]. intros Hop. apply Hiff in Hop. done.
Qed.

End ReadinessFacts.

(* ===================================================================== *)
(** ** Properties of the registration functions *)
(* ===================================================================== *)

Module RegistryFacts.
Import Registry.

Lemma tasks_of_dispatch c ev :
  Events.loop_running c = true →
  Events.d_tasks (Events.dispatch c ev)
  = map (λ l, {| Events.t_listener := l; Events.t_event := ev |})
        (default [] (Events.listeners c !! Events.resolved_name ev)).
Proof.
  intros Hrun. unfold Events.dispatch.
  rewrite (EventsSpec.queue_all_running c _ ev Hrun).
  destruct (Events.waits c !! Events.resolved_name ev) as [ws|]; [|done].
  destruct (Events.scan ws 0 ev (Events.futures c)) as [idxs futs].
  by destruct (Events.pop_each ws idxs).
Qed.

(** X20. A listener added with [add_listener] is dispatched to after the
    listeners that were already registered for its event: a dispatch of that
    event creates the tasks it created before, in the same order, followed by
    one task for the new listener; dispatches of other events create the same
    tasks as before. *)
Theorem added_listener_is_dispatched_last c listener ev :
  Events.loop_running c = true →
  Events.d_tasks (Events.dispatch (client_add_listener c listener) ev)
  = Events.d_tasks (Events.dispatch c ev)
    ++ (if decide (Events.resolved_name ev = event listener)
        then [{| Events.t_listener := handler listener; Events.t_event := ev |}]
        else []).
Proof.
  intros Hrun. rewrite !tasks_of_dispatch by done.
  unfold client_add_listener, add_listener. simpl.
  destruct (decide (Events.resolved_name ev = event listener)) as [->|Hne].
  - rewrite lookup_insert_eq. simpl. by rewrite map_app.
  - rewrite lookup_insert_ne by done. by rewrite app_nil_r.
Qed.

Lemma added_listener_is_dispatched_last_witness :
  Events.d_tasks
    (Events.dispatch
       (client_add_listener Events.three_listeners
          {| event := "x"; handler := Events.cancelled_listener |}) Events.ev_x)
  = Events.d_tasks (Events.dispatch Events.three_listeners Events.ev_x)
    ++ [{| Events.t_listener := Events.cancelled_listener;
           Events.t_event := Events.ev_x |}].
Proof.
  apply (added_listener_is_dispatched_last Events.three_listeners
           {| event := "x"; handler := Events.cancelled_listener |} Events.ev_x).
  reflexivity.
Defined.

(** *** Message commands *)

Lemma register_scopes_commands r key l :
  ∀ st, commands (register_scopes st r key l).1 = commands st
        ∧ debug_scope (register_scopes st r key l).1 = debug_scope st
        ∧ enforce_interaction_perms (register_scopes st r key l).1
          = enforce_interaction_perms st.
Proof.
  induction l as [|scope rest IH]; intros st; simpl; [done|].
  case_bool_decide; [done|].
  destruct (IH (set_interactions
                  (if enforce_interaction_perms st
                   then set_objects st (alter append_enforcer r (objects st)) else st)
                  (dict_put scope
                     (dict_put key r
                        (default [] (Reconciler.assoc scope (interactions st))))
                     (interactions
                        (if enforce_interaction_perms st
                         then set_objects st (alter append_enforcer r (objects st))
                         else st))))) as (H1 & H2 & H3).
  rewrite H1, H2, H3. by destruct (enforce_interaction_perms st) eqn:He.
Qed.

Lemma add_interaction_commands st r :
  commands (add_interaction st r).1 = commands st.
Proof.
  unfold add_interaction. destruct (objects st !! r) as [cmd|]; [|done].
  destruct (debug_scope st); by rewrite (proj1 (register_scopes_commands _ _ _ _)).
Qed.

(** One step of [process], as far as the message commands go. *)
Lemma process_step_commands st func rest st' :
  process st (func :: rest) = (st', None) →
  ∃ st1,
    process st1 rest = (st', None)
    ∧ match func with
      | RMessage m =>
          commands st !! name m = None
          ∧ commands st1 = <[name m := command m]> (commands st)
      | _ => commands st1 = commands st
      end.
Proof.
  simpl. destruct func as [c|r|m|l].
  - destruct (add_component_callback (_component_callbacks st) c) as [t [e|]];
      [done|]. intros H. by eexists.
  - pose proof (add_interaction_commands st r) as Hc.
    destruct (add_interaction st r) as [st1 [e|]]; [done|]. intros H. by exists st1.
  - unfold add_message_command.
    destruct (commands st !! name m) eqn:Hm; [done|]. intros H. by eexists.
  - intros H. by eexists.
Qed.

(** X21. When [process] registers a list of commands and listeners without
    raising, the message commands among them had pairwise distinct names,
    none of which was registered before, each of them is now found under its
    name, and no other name of the command table has changed. *)
Theorem gathered_message_commands_are_distinct cmds :
  ∀ st st',
    process st cmds = (st', None) →
    NoDup (message_names cmds)
    ∧ (∀ m, RMessage m ∈ cmds →
            commands st !! name m = None ∧ commands st' !! name m = Some (command m))
    ∧ (∀ n, n ∉ message_names cmds → commands st' !! n = commands st !! n).
Proof.
  induction cmds as [|func rest IH]; intros st st' H.
  - injection H as <-. split_and!; [constructor| |done].
    intros m Hm. by apply elem_of_nil in Hm.
  - apply process_step_commands in H as (st1 & Hrest & Hstep).
    destruct (IH _ _ Hrest) as (Hnd & Hin & Hout).
    assert (Hnames : ∀ m, RMessage m ∈ rest → name m ∈ message_names rest).
    { intros m Hm. unfold message_names. apply list_elem_of_omap.
      by exists (RMessage m). }
    destruct func as [c|r|m0|l]; simpl; try rewrite Hstep in *.
    + split_and!; [done| |done].
      intros m Hm. apply elem_of_cons in Hm as [Hm|Hm]; [discriminate Hm|].
      by apply Hin.
    + split_and!; [done| |done].
      intros m Hm. apply elem_of_cons in Hm as [Hm|Hm]; [discriminate Hm|].
      by apply Hin.
    + destruct Hstep as [Hfree Hst1].
      assert (Hfresh : name m0 ∉ message_names rest).
      { intros Hn. unfold message_names in Hn.
        apply list_elem_of_omap in Hn as (f & Hf & Hfn).
        destruct f as [| |m|]; try discriminate Hfn. injection Hfn as Hfn.
        destruct (Hin m Hf) as [Hnone _].
        rewrite Hst1, Hfn, lookup_insert_eq in Hnone. discriminate Hnone. }
      split_and!.
      * by apply NoDup_cons.
      * intros m Hm. apply elem_of_cons in Hm as [Hm|Hm].
        -- injection Hm as ->. split; [done|].
           by rewrite (Hout _ Hfresh), Hst1, lookup_insert_eq.
        -- destruct (Hin m Hm) as [Hnone Hsome]. split; [|done].
           rewrite Hst1 in Hnone.
           destruct (decide (name m0 = name m)) as [Heq|Hne].
           ++ rewrite Heq, lookup_insert_eq in Hnone. discriminate Hnone.
           ++ by rewrite lookup_insert_ne in Hnone.
      * intros n Hn. apply not_elem_of_cons in Hn as [Hne Hn].
        rewrite (Hout n Hn), Hst1. by rewrite lookup_insert_ne.
    + split_and!; [done| |done].
      intros m Hm. apply elem_of_cons in Hm as [Hm|Hm]; [discriminate Hm|].
      by apply Hin.
Qed.

Lemma gathered_message_commands_are_distinct_witness :
  NoDup (message_names [RMessage ping_command; RInteraction 0; RMessage pong_command]).
Proof.
  apply (gathered_message_commands_are_distinct
           [RMessage ping_command; RInteraction 0; RMessage pong_command]
           empty_state
           (process empty_state
              [RMessage ping_command; RInteraction 0; RMessage pong_command]).1).
  reflexivity.
Defined.

(** A second registration of a name is refused and changes nothing. *)
Example duplicate_message_command_is_refused :
  process empty_state [RMessage ping_command; RMessage ping_command]
  = ((process empty_state [RMessage ping_command]).1, Some ValueError).
Proof. reflexivity. Qed.

(** *** Component callbacks *)

(** X22. [add_component_callback] is not atomic. When one of the custom ids
    of a command is already taken, by another command or by an earlier id of
    the same command, it raises [ValueError], but the ids that come before
    the taken one stay registered to the command; the ids after it are not
    registered, and no other entry of the table changes. *)
Theorem component_registration_stops_at_the_duplicate cmd before dup after :
  ∀ table,
    listeners_of cmd = before ++ dup :: after →
    NoDup before →
    (∀ l, l ∈ before → table !! l = None) →
    dup ∈ before ∨ is_Some (table !! dup) →
    let r := add_component_callback table cmd in
    r.2 = Some ValueError
    ∧ (∀ l, l ∈ before → r.1 !! l = Some cmd)
    ∧ (∀ l, l ∉ before → r.1 !! l = table !! l).
Proof.
  intros table Hl. cbv zeta. unfold add_component_callback. rewrite Hl. clear Hl.
  revert table. induction before as [|b before IH]; intros table Hnd Hfree Hdup; simpl.
  - destruct Hdup as [Hin|[x Hx]]; [by apply elem_of_nil in Hin|].
    rewrite Hx. simpl. split_and!; [done| |done].
    intros l Hin. by apply elem_of_nil in Hin.
  - apply NoDup_cons in Hnd as [Hb Hnd].
    rewrite (Hfree b) by apply list_elem_of_here.
    destruct (IH (<[b := cmd]> table) Hnd) as (He & Hin & Hout).
    + intros l Hin. rewrite lookup_insert_ne by (intros ->; done).
      apply Hfree. by apply list_elem_of_further.
    + destruct Hdup as [Hd|Hd].
      * apply elem_of_cons in Hd as [->|Hd]; [|by left].
        right. rewrite lookup_insert_eq. by eexists.
      * destruct (decide (b = dup)) as [->|Hne].
        -- right. rewrite lookup_insert_eq. by eexists.
        -- right. by rewrite lookup_insert_ne.
    + split_and!; [done| |].
      * intros l Hl. apply elem_of_cons in Hl as [->|Hl]; [|by apply Hin].
        rewrite (Hout b Hb). by rewrite lookup_insert_eq.
      * intros l Hl. apply not_elem_of_cons in Hl as [Hne Hl].
        rewrite (Hout l Hl). by rewrite lookup_insert_ne.
Qed.

Lemma component_registration_stops_at_the_duplicate_witness :
  (add_component_callback ∅ two_buttons).2 = Some ValueError
  ∧ (add_component_callback ∅ two_buttons).1 !! "cancel" = Some two_buttons.
Proof.
  destruct (component_registration_stops_at_the_duplicate two_buttons
              ["ok"; "cancel"] "ok" ["help"] ∅) as (He & Hin & _).
  - reflexivity.
  - apply NoDup_cons. split; [|apply NoDup_singleton].
    intros H. apply list_elem_of_singleton in H. discriminate H.
  - intros l _. apply lookup_empty.
  - left. apply list_elem_of_here.
  - split; [exact He|]. apply Hin. apply list_elem_of_further, list_elem_of_here.
Defined.

(** *** Interaction commands *)

Lemma assoc_put_eq {K V} `{EqDecision K} (key : K) (value : V) d :
  Reconciler.assoc key (dict_put key value d) = Some value.
Proof.
  induction d as [|[k v] rest IH]; simpl.
  - by rewrite decide_True.
  - destruct (decide (k = key)) as [->|Hne]; simpl.
    + by rewrite decide_True.
    + by rewrite decide_False.
Qed.

Lemma assoc_put_ne {K V} `{EqDecision K} (key key' : K) (value : V) d :
  key' ≠ key → Reconciler.assoc key' (dict_put key value d) = Reconciler.assoc key' d.
Proof.
  intros Hne. induction d as [|[k v] rest IH]; simpl.
  - by rewrite decide_False.
  - destruct (decide (k = key)) as [->|Hk]; simpl.
    + by rewrite !decide_False.
    + destruct (decide (k = key')); [done|apply IH].
Qed.

Lemma round_effect st r key scope :
  registered (round st r key scope) scope key = Some r
  ∧ (∀ scope', scope' ≠ scope →
               registered (round st r key scope) scope' key = registered st scope' key)
  ∧ enforce_interaction_perms (round st r key scope) = enforce_interaction_perms st
  ∧ debug_scope (round st r key scope) = debug_scope st
  ∧ objects (round st r key scope) !! r
    = (if enforce_interaction_perms st then append_enforcer <$> objects st !! r
       else objects st !! r).
Proof.
  unfold round, registered.
  destruct (enforce_interaction_perms st) eqn:He; simpl; split_and!; try done.
  - rewrite assoc_put_eq. simpl. apply assoc_put_eq.
  - intros scope' Hne. by rewrite assoc_put_ne.
  - by rewrite lookup_alter_eq.
  - rewrite assoc_put_eq. simpl. apply assoc_put_eq.
  - intros scope' Hne. by rewrite assoc_put_ne.
Qed.

Lemma register_scopes_unfold st r key scope rest :
  register_scopes st r key (scope :: rest)
  = if bool_decide (is_Some (registered st scope key)) then (st, Some ValueError)
    else register_scopes (round st r key scope) r key rest.
Proof. reflexivity. Qed.

Lemma register_scopes_ok r key l :
  ∀ st st',
    register_scopes st r key l = (st', None) →
    NoDup l
    ∧ (∀ scope, scope ∈ l → registered st scope key = None)
    ∧ (∀ scope, scope ∈ l → registered st' scope key = Some r)
    ∧ (∀ scope, scope ∉ l → registered st' scope key = registered st scope key)
    ∧ debug_scope st' = debug_scope st
    ∧ ∀ cmd, objects st !! r = Some cmd →
             objects st' !! r
             = Some {| resolved_name := resolved_name cmd; scopes := scopes cmd;
                       checks := checks cmd
                                 ++ replicate (if enforce_interaction_perms st
                                               then length l else 0%nat)
                                              PermissionEnforcer |}.
Proof.
  induction l as [|scope rest IH]; intros st st' H.
  - injection H as <-. split_and!; try done.
    + constructor.
    + intros scope Hin. by apply elem_of_nil in Hin.
    + intros scope Hin. by apply elem_of_nil in Hin.
    + intros cmd Hc. rewrite Hc. destruct cmd as [n sc ch]. simpl.
      destruct (enforce_interaction_perms st); simpl; by rewrite app_nil_r.
  - rewrite register_scopes_unfold in H.
    case_bool_decide as Hreg; [done|].
    assert (Hnone : registered st scope key = None).
    { destruct (registered st scope key) eqn:Hr; [|done].
      exfalso. apply Hreg. by eexists. }
    destruct (round_effect st r key scope) as (Hhere & Hother & Henf & Hdbg & Hobj).
    destruct (IH _ _ H) as (Hnd & Hfree & Hin & Hout & Hd & Hchecks).
    assert (Hnotin : scope ∉ rest).
    { intros Hs. specialize (Hfree scope Hs). rewrite Hhere in Hfree. done. }
    split_and!.
    + by apply NoDup_cons.
    + intros sc Hsc. apply elem_of_cons in Hsc as [->|Hsc]; [done|].
      rewrite <- Hother; [by apply Hfree|]. intros ->. done.
    + intros sc Hsc. apply elem_of_cons in Hsc as [->|Hsc]; [|by apply Hin].
      by rewrite (Hout scope Hnotin).
    + intros sc Hsc. apply not_elem_of_cons in Hsc as [Hne Hsc].
      rewrite (Hout sc Hsc). by apply Hother.
    + congruence.
    + intros cmd Hc. rewrite Hc in Hobj. rewrite Henf in Hchecks.
      destruct (enforce_interaction_perms st); simpl in *.
      * rewrite (Hchecks _ Hobj). simpl. by rewrite <- app_assoc.
      * by rewrite (Hchecks _ Hobj).
Qed.

(** X23. When [add_interaction] returns without raising, the command is
    registered under each of its scopes (under the debug scope alone when
    one is set, which also replaces the command's scopes), those scopes are
    pairwise distinct and none held the name before; with permission
    enforcement on, the command's checks have gained one permission enforcer
    per scope registered, and none with enforcement off. *)
Theorem add_interaction_registers_under_every_scope st r cmd st' :
  objects st !! r = Some cmd →
  add_interaction st r = (st', None) →
  let registered_scopes := effective_scopes st cmd in
  NoDup registered_scopes
  ∧ (∀ scope, scope ∈ registered_scopes →
              registered st scope (resolved_name cmd) = None
              ∧ registered st' scope (resolved_name cmd) = Some r)
  ∧ (∀ scope, scope ∉ registered_scopes →
              registered st' scope (resolved_name cmd)
              = registered st scope (resolved_name cmd))
  ∧ objects st' !! r
    = Some {| resolved_name := resolved_name cmd; scopes := registered_scopes;
              checks := checks cmd
                        ++ replicate (if enforce_interaction_perms st
                                      then length registered_scopes else 0%nat)
                                     PermissionEnforcer |}.
Proof.
  intros Hobj H. cbv zeta. unfold add_interaction, effective_scopes in *.
  rewrite Hobj in H. destruct (debug_scope st) as [d|] eqn:Hd.
  - apply register_scopes_ok in H as (Hnd & Hfree & Hin & Hout & _ & Hchecks).
    split_and!; [done| |done|].
    + intros scope Hs. split; [by apply Hfree|by apply Hin].
    + simpl in Hchecks. erewrite Hchecks; [|by rewrite lookup_insert_eq]. done.
  - apply register_scopes_ok in H as (Hnd & Hfree & Hin & Hout & _ & Hchecks).
    split_and!; [done| |done|].
    + intros scope Hs. split; [by apply Hfree|by apply Hin].
    + by apply Hchecks.
Qed.

Lemma add_interaction_registers_under_every_scope_witness :
  objects (add_interaction empty_state 0).1 !! 0%nat
  = Some {| resolved_name := "ping";
            scopes := [Reconciler.GLOBAL_SCOPE; Reconciler.Guild 1];
            checks := [UserCheck 0; PermissionEnforcer; PermissionEnforcer] |}.
Proof.
  destruct (add_interaction_registers_under_every_scope empty_state 0
              {| resolved_name := "ping";
                 scopes := [Reconciler.GLOBAL_SCOPE; Reconciler.Guild 1];
                 checks := [UserCheck 0] |}
              (add_interaction empty_state 0).1) as (_ & _ & _ & Hobj).
  - reflexivity.
  - reflexivity.
  - exact Hobj.
Defined.

Lemma set_objects_same st : set_objects st (objects st) = st.
Proof. by destruct st. Qed.

(** X24. A command cannot be registered twice: after [add_interaction] has
    registered a command under at least one scope, a second call for the same
    command raises [ValueError] and leaves the client as it is. *)
Theorem add_interaction_twice_is_refused st r cmd st' :
  objects st !! r = Some cmd →
  effective_scopes st cmd ≠ [] →
  add_interaction st r = (st', None) →
  add_interaction st' r = (st', Some ValueError).
Proof.
  intros Hobj Hne H.
  pose proof (add_interaction_registers_under_every_scope st r cmd st' Hobj H)
    as (_ & Hin & _ & Hobj').
  assert (Hdbg : debug_scope st' = debug_scope st).
  { unfold add_interaction in H. rewrite Hobj in H.
    destruct (debug_scope st) as [d|] eqn:Hd;
      apply register_scopes_ok in H as (_ & _ & _ & _ & Hd' & _);
      simpl in Hd'; congruence. }
  unfold add_interaction. rewrite Hobj', Hdbg.
  unfold effective_scopes in *.
  destruct (debug_scope st) as [d|] eqn:Hd.
  - rewrite insert_id by (rewrite Hobj'; reflexivity).
    rewrite set_objects_same, register_scopes_unfold. cbn [resolved_name].
    rewrite (proj2 (Hin d ltac:(apply list_elem_of_here))).
    rewrite bool_decide_true by by eexists. done.
  - destruct (scopes cmd) as [|scope rest]; [done|]. cbn [scopes resolved_name].
    rewrite register_scopes_unfold.
    rewrite (proj2 (Hin scope ltac:(apply list_elem_of_here))).
    rewrite bool_decide_true by by eexists. done.
Qed.

Lemma add_interaction_twice_is_refused_witness :
  add_interaction (add_interaction empty_state 0).1 0
  = ((add_interaction empty_state 0).1, Some ValueError).
Proof.
  apply (add_interaction_twice_is_refused empty_state 0
           {| resolved_name := "ping";
              scopes := [Reconciler.GLOBAL_SCOPE; Reconciler.Guild 1];
              checks := [UserCheck 0] |}).
  - reflexivity.
  - discriminate.
  - reflexivity.
Defined.

End RegistryFacts.

(* ===================================================================== *)
(** ** Dispatch of interactions *)
(* ===================================================================== *)

Module InteractionDispatchFacts.
Import InteractionDispatch.

Section Dispatching.

Variable to_snowflake : Router.Value → option Z.
Variable from_dict : Router.ContextKind → Router.Interaction → option string.
Variable cache : Router.GlobalCache.
Variable BUTTON : Z.
Variable SELECT : Z.
Variable dispatch : Event → option string.

Lemma and_then_steps a b :
  (and_then a b).1 = a.1 ++ match a.2 with None => b.1 | Some _ => [] end.
Proof. destruct a as [steps [e|]]; simpl; [by rewrite app_nil_r|done]. Qed.

Lemma and_then_error a b :
  (and_then a b).2 = match a.2 with None => b.2 | Some e => Some e end.
Proof. by destruct a as [steps [e|]]. Qed.

Lemma dispatch_event_steps e : (dispatch_event dispatch e).1 = [Dispatch e].
Proof. unfold dispatch_event. by destruct (dispatch e). Qed.


Lemma guarded_steps handler on_error after outcome s :
  s ∈ (guarded handler on_error after outcome).1 →
  s = handler ∨ s = after ∨ ∃ err, s = on_error err.
Proof.
  destruct outcome; simpl; intros H;
    repeat (apply elem_of_cons in H as [H|H]; [eauto|]);
    by apply elem_of_nil in H.
Qed.







Lemma run_command_runs table i name :
  let steps := (run_command to_snowflake from_dict cache table i).1 in
  (Command name ∈ steps → is_Some (Reconciler.assoc name table))
  ∧ (∀ opt, Autocomplete name opt ∈ steps →
       ∃ command, Reconciler.assoc name table = Some command
                  ∧ is_Some (autocomplete_callbacks command !! opt)).
Proof.
  cbv zeta. unfold run_command.
  destruct (Router.get_context _ _ _ _) as [e|ctx]; simpl.
  { split; [|intros opt]; intros H; by apply elem_of_nil in H. }
  destruct (Reconciler.assoc _ table) as [command|] eqn:Hcmd; simpl.
  2:{ split; [|intros opt]; intros H; by apply elem_of_nil in H. }
  assert (Hmain :
    ∀ o, let steps := (guarded (Command (Router.invoked_name ctx))
                         (OnCommandError (Router.invoked_name ctx))
                         (OnCommand (Router.invoked_name ctx)) o).1 in
      (Command name ∈ steps → is_Some (Reconciler.assoc name table))
      ∧ (∀ opt, Autocomplete name opt ∈ steps →
           ∃ command, Reconciler.assoc name table = Some command
                      ∧ is_Some (autocomplete_callbacks command !! opt))).
  { intros o. cbv zeta. split; [|intros opt]; intros H;
      apply guarded_steps in H as [H|[H|[err H]]]; try discriminate.
    injection H as ->. by rewrite Hcmd. }
  destruct (Router.focussed_option ctx) as [auto_opt|]; [|apply Hmain].
  destruct (String.eqb auto_opt ""); [apply Hmain|].
  destruct (autocomplete_callbacks command !! auto_opt) as [callback|] eqn:Hcb.
  - split; [|intros opt]; intros H;
      apply guarded_steps in H as [H|[H|[err H]]]; try discriminate.
    injection H as -> ->. exists command. by rewrite Hcb.
  - split; [|intros opt]; intros H; simpl in H;
      repeat (apply elem_of_cons in H as [H|H]; [discriminate|]);
      by apply elem_of_nil in H.
Qed.

Lemma run_component_steps c i s :
  s ∈ (run_component to_snowflake from_dict cache BUTTON SELECT dispatch c i).1 →
  (∃ e, s = Dispatch e) ∨ s = Callback (custom_id i) ∨ s = OnComponent (custom_id i)
  ∨ ∃ err, s = OnComponentError (custom_id i) err.
Proof.
  unfold run_component.
  destruct (Router.get_context _ _ _ _) as [e|ctx]; simpl.
  { intros H. by apply elem_of_nil in H. }
  rewrite !and_then_steps, !dispatch_event_steps.
  intros H. apply elem_of_app in H as [H|H].
  { apply list_elem_of_singleton in H. eauto. }
  destruct (_.2); [by apply elem_of_nil in H|].
  apply elem_of_app in H as [H|H].
  { destruct (_component_callbacks c !! custom_id i) as [callback|].
    - apply guarded_steps in H as [H|[H|[err H]]]; eauto 6.
    - by apply elem_of_nil in H. }
  destruct (_.2); [by apply elem_of_nil in H|].
  apply elem_of_app in H as [H|H].
  - destruct (_ =? _); [|by apply elem_of_nil in H].
    rewrite dispatch_event_steps in H. apply list_elem_of_singleton in H. eauto.
  - destruct (_.2); [by apply elem_of_nil in H|].
    destruct (_ =? _); [|by apply elem_of_nil in H].
    rewrite dispatch_event_steps in H. apply list_elem_of_singleton in H. eauto.
Qed.

(** X26. Commands are routed by the id of the payload: a command handler
    runs only for a payload of one of the three command types whose id is
    known to [_interaction_scopes], and only if the invoked name is
    registered under the scope recorded for that id; a command registered
    only under another scope is never run. An autocomplete callback runs
    only if, in addition, that command has a callback for the option. A
    component payload or a payload of unknown type never runs a command or
    an autocomplete callback. *)
Theorem commands_run_only_in_the_scope_of_their_id c i name :
  let steps :=
    (_dispatch_interaction to_snowflake from_dict cache BUTTON SELECT dispatch c i).1 in
  let command_payload :=
    Router.i_type (data i) = Router.PING
    ∨ Router.i_type (data i) = Router.APPLICATION_COMMAND
    ∨ Router.i_type (data i) = Router.AUTOCOMPLETE in
  (Command name ∈ steps →
     command_payload
     ∧ ∃ scope table,
         _interaction_scopes c !! interaction_id i = Some scope
         ∧ Reconciler.assoc scope (interactions c) = Some table
         ∧ is_Some (Reconciler.assoc name table))
  ∧ (∀ opt, Autocomplete name opt ∈ steps →
     command_payload
     ∧ ∃ scope table command,
         _interaction_scopes c !! interaction_id i = Some scope
         ∧ Reconciler.assoc scope (interactions c) = Some table
         ∧ Reconciler.assoc name table = Some command
         ∧ is_Some (autocomplete_callbacks command !! opt))
  ∧ ((¬ command_payload) →
     (Command name ∉ steps) ∧ ∀ opt, Autocomplete name opt ∉ steps).
Proof.
  cbv zeta.
  assert (Hmain :
    let steps :=
      (_dispatch_interaction to_snowflake from_dict cache BUTTON SELECT dispatch c i).1 in
    let command_payload :=
      Router.i_type (data i) = Router.PING
      ∨ Router.i_type (data i) = Router.APPLICATION_COMMAND
      ∨ Router.i_type (data i) = Router.AUTOCOMPLETE in
    (Command name ∈ steps →
       command_payload
       ∧ ∃ scope table,
           _interaction_scopes c !! interaction_id i = Some scope
           ∧ Reconciler.assoc scope (interactions c) = Some table
           ∧ is_Some (Reconciler.assoc name table))
    ∧ (∀ opt, Autocomplete name opt ∈ steps →
       command_payload
       ∧ ∃ scope table command,
           _interaction_scopes c !! interaction_id i = Some scope
           ∧ Reconciler.assoc scope (interactions c) = Some table
           ∧ Reconciler.assoc name table = Some command
           ∧ is_Some (autocomplete_callbacks command !! opt))).
  { cbv zeta. unfold _dispatch_interaction.
    destruct ((Router.i_type (data i) =? Router.PING)
              || (Router.i_type (data i) =? Router.APPLICATION_COMMAND)
              || (Router.i_type (data i) =? Router.AUTOCOMPLETE)) eqn:Hty.
    - assert (Hpayload : Router.i_type (data i) = Router.PING
                         ∨ Router.i_type (data i) = Router.APPLICATION_COMMAND
                         ∨ Router.i_type (data i) = Router.AUTOCOMPLETE).
      { rewrite !orb_true_iff, !Z.eqb_eq in Hty. tauto. }
      destruct (_interaction_scopes c !! interaction_id i) as [scope|]; simpl.
      2:{ split; [|intros opt]; intros H;
            apply list_elem_of_singleton in H; discriminate. }
      destruct (Reconciler.assoc scope (interactions c)) as [table|] eqn:Htable; simpl.
      2:{ split; [|intros opt]; intros H;
            apply list_elem_of_singleton in H; discriminate. }
      destruct (run_command_runs table i name) as [Hcmd Hauto]. split.
      + intros H. split; [done|]. exists scope, table.
        split_and!; [done|done|by apply Hcmd].
      + intros opt H. split; [done|]. destruct (Hauto opt H) as (command & Hc & Hcb).
        by exists scope, table, command.
    - destruct (Router.i_type (data i) =? Router.MESSAGE_COMPONENT).
      + split; [|intros opt]; intros H;
          apply run_component_steps in H as [[e H]|[H|[H|[err H]]]]; discriminate.
      + split; [|intros opt]; intros H; by apply elem_of_nil in H. }
  cbv zeta in Hmain. destruct Hmain as [Hcmd Hauto]. split_and!; [done|done|].
  intros Hnot. split.
  - intros H. by destruct (Hcmd H).
  - intros opt H. by destruct (Hauto opt H).
Qed.

(** X27. For a component payload, [get_context] first has
    [ComponentContext.from_dict] build the context: when that raises, the
    coroutine ends with the error, and nothing is dispatched or run. When
    the context is built, the generic [Component] event is dispatched first;
    the callback runs exactly when that dispatch did not raise and the
    custom id has a callback; a [Button] or [Select] event is dispatched
    only for a component of that type, and, when the coroutine ends
    normally, for every component of that type. *)
Theorem component_events_surround_the_callback c i :
  Router.i_type (data i) = Router.MESSAGE_COMPONENT →
  let r :=
    _dispatch_interaction to_snowflake from_dict cache BUTTON SELECT dispatch c i in
  (∀ err, from_dict Router.ComponentContext (data i) = Some err →
          r = ([], Some (ContextError (Router.FromDictError err))))
  ∧ (from_dict Router.ComponentContext (data i) = None →
     head r.1 = Some (Dispatch Component)
     ∧ (Callback (custom_id i) ∈ r.1
        ↔ dispatch Component = None ∧ is_Some (_component_callbacks c !! custom_id i))
     ∧ (Dispatch Button ∈ r.1 → component_type i = BUTTON)
     ∧ (Dispatch Select ∈ r.1 → component_type i = SELECT)
     ∧ (r.2 = None →
          (component_type i = BUTTON → Dispatch Button ∈ r.1)
          ∧ (component_type i = SELECT → Dispatch Select ∈ r.1))).
Proof.
  intros Hty. cbv zeta. unfold _dispatch_interaction, run_component.
  unfold Router.get_context, Router.kind_of. rewrite Hty. simpl.
  split; [by intros err ->|]. intros ->.
  unfold and_then, dispatch_event.
  destruct (dispatch Component) as [msg|]; simpl.
  { split_and!; [done|..].
    - split; [|by intros [? _]]. intros H.
      apply list_elem_of_singleton in H. discriminate.
    - intros H. apply list_elem_of_singleton in H. discriminate.
    - intros H. apply list_elem_of_singleton in H. discriminate.
    - discriminate. }
  destruct (_component_callbacks c !! custom_id i) as [callback|]; simpl.
  - unfold guarded.
    destruct (callback _); simpl;
      destruct (Z.eqb_spec (component_type i) BUTTON) as [Hb|Hb],
               (Z.eqb_spec (component_type i) SELECT) as [Hs|Hs];
      destruct (dispatch Button), (dispatch Select); simpl;
      (split_and!;
        [ done
        | split; [by eauto|intros _; set_solver]
        | intros H; try done; set_solver
        | intros H; try done; set_solver
        | intros H; try discriminate; split; intros ?; try done; set_solver ]).
  - destruct (Z.eqb_spec (component_type i) BUTTON) as [Hb|Hb],
             (Z.eqb_spec (component_type i) SELECT) as [Hs|Hs];
      destruct (dispatch Button), (dispatch Select); simpl;
      (split_and!;
        [ done
        | split; [set_solver|intros [_ [? ?]]; discriminate]
        | intros H; try done; set_solver
        | intros H; try done; set_solver
        | intros H; try discriminate; split; intros ?; try done; set_solver ]).
Qed.

End Dispatching.

Lemma commands_run_only_in_the_scope_of_their_id_witness :
  ∃ scope table,
    _interaction_scopes one_command !! "900" = Some scope
    ∧ Reconciler.assoc scope (interactions one_command) = Some table
    ∧ is_Some (Reconciler.assoc "greet" table).
Proof.
  apply (proj1 (commands_run_only_in_the_scope_of_their_id
                  Router.snowflake_of Router.from_guild Router.cache0 2 3 (λ _, None)
                  one_command (greet_payload "900") "greet")).
  vm_compute. apply list_elem_of_here.
Defined.

Lemma component_events_surround_the_callback_witness :
  let r := _dispatch_interaction Router.snowflake_of Router.from_guild Router.cache0
             2 3 (λ _, None) one_command (click "ok" 2) in
  head r.1 = Some (Dispatch Component)
  ∧ Callback "ok" ∈ r.1
  ∧ Dispatch Button ∈ r.1.
Proof.
  cbv zeta.
  destruct (component_events_surround_the_callback
              Router.snowflake_of Router.from_guild Router.cache0 2 3 (λ _, None)
              one_command (click "ok" 2) eq_refl)
    as (_ & Hbuilt).
  destruct (Hbuilt eq_refl) as (Hhead & Hcallback & _ & _ & Hspecific).
  split_and!.
  - exact Hhead.
  - apply Hcallback. split; [reflexivity|]. vm_compute. eauto.
  - apply Hspecific; reflexivity.
Defined.

End InteractionDispatchFacts.

(* ===================================================================== *)
(** ** Waiting for a component *)
(* ===================================================================== *)

Module ComponentsFacts.
Import Events Components.

Lemma queue_all_never_fails c ls ev :
  loop_running c = true → (queue_all c ls ev).2 = None.
Proof.
  intros Hrun. induction ls as [|l rest IH]; simpl; [done|].
  unfold _queue_task. rewrite Hrun.
  by destruct (queue_all c rest ev) as [ts e].
Qed.

Lemma scan_last xs w ev :
  (∀ w', w' ∈ xs → satisfied w' ev = false) →
  ∀ i futs,
    scan (xs ++ [w]) i ev futs
    = if satisfied w ev then ([(i + length xs)%nat], <[w_future w := Resolved ev]> futs)
      else ([], futs).
Proof.
  induction xs as [|x rest IH]; intros Hun i futs; simpl.
  - unfold wait_call. rewrite Nat.add_0_r. by destruct (satisfied w ev).
  - unfold wait_call. rewrite (Hun x) by apply list_elem_of_here.
    rewrite IH by (intros w' Hw'; apply Hun; by apply list_elem_of_further).
    replace (S i + length rest)%nat with (i + S (length rest))%nat by lia.
    by destruct (satisfied w ev).
Qed.

(** Registering a wait and dispatching one event of its name, when the
    waits that were pending before are not satisfied by the event. *)
Lemma register_then_dispatch c event checks ev :
  loop_running c = true →
  resolved_name ev = event →
  (∀ w, w ∈ pending c event → satisfied w ev = false) →
  let c1 := (wait_for c event checks).1 in
  let future := (wait_for c event checks).2 in
  let w := {| w_event := event; w_checks := checks; w_future := future |} in
  d_raised (dispatch c1 ev) = None
  ∧ (if satisfied w ev
     then pending (d_client (dispatch c1 ev)) event = pending c event
          ∧ futures (d_client (dispatch c1 ev)) !! future = Some (Resolved ev)
     else pending (d_client (dispatch c1 ev)) event = pending c event ++ [w]
          ∧ futures (d_client (dispatch c1 ev)) !! future = Some Pending).
Proof.
  intros Hrun <- Hold. cbv zeta. unfold wait_for. simpl.
  set (w := {| w_event := resolved_name ev; w_checks := checks;
               w_future := length (futures c) |}).
  set (c1 := set_waits c (<[resolved_name ev := pending c (resolved_name ev) ++ [w]]>
                            (waits c)) (futures c ++ [Pending])).
  unfold dispatch.
  pose proof (queue_all_never_fails c1 (default [] (listeners c1 !! resolved_name ev)) ev
                Hrun) as Hq.
  destruct (queue_all c1 _ ev) as [ts e]. simpl in Hq. subst e.
  unfold c1 at 1. simpl. rewrite lookup_insert_eq.
  rewrite (scan_last _ w ev Hold).
  destruct (satisfied w ev) eqn:Hw; simpl.
  - unfold pop. rewrite decide_True by (rewrite length_app; simpl; lia).
    simpl. rewrite (delete_middle _ [] w), app_nil_r.
    split_and!.
    + done.
    + unfold pending at 1. simpl. by rewrite lookup_insert_eq.
    + apply list_lookup_insert_eq. rewrite length_app. simpl. lia.
  - split_and!.
    + done.
    + unfold pending at 1. simpl. by rewrite lookup_insert_eq.
    + by apply list_lookup_middle.
Qed.

Section Waiting.

Variable message_id : BaseEvent → Z.
Variable custom_id : BaseEvent → string.

(** X28. [wait_for_component] raises [ValueError], registering nothing,
    exactly when neither [messages] nor [components] is given. Otherwise it
    registers one wait under "component", and a dispatched component event
    (that satisfies none of the waits pending before) resolves the future
    of that wait and removes the wait exactly when the event is wanted by
    [_check]: its message and custom id pass the filters and the caller's
    check, if any, accepts it. An event that is not wanted leaves the wait
    pending. *)
Theorem component_wait_resolves_on_wanted_events cl m c check ev :
  loop_running cl = true →
  resolved_name ev = "component" →
  (∀ w, w ∈ pending cl "component" → satisfied w ev = false) →
  match wait_for_component message_id custom_id cl m c check with
  | inl _ => messages_given m = false ∧ c = None
  | inr (cl1, future) =>
      (messages_given m = true ∨ is_Some c)
      ∧ d_raised (dispatch cl1 ev) = None
      ∧ (futures (d_client (dispatch cl1 ev)) !! future = Some (Resolved ev)
         ↔ _check message_id custom_id m c check ev = true)
      ∧ (pending (d_client (dispatch cl1 ev)) "component" = pending cl "component"
         ↔ _check message_id custom_id m c check ev = true)
  end.
Proof.
  intros Hrun Hname Hold. unfold wait_for_component.
  destruct (register_then_dispatch cl "component"
              (Some (_check message_id custom_id m c check)) ev Hrun Hname Hold)
    as [Hraised Hrest].
  unfold satisfied in Hrest. simpl in Hrest.
  assert (Hgiven : messages_given m || components_given c = true →
    (messages_given m = true ∨ is_Some c)).
  { destruct (messages_given m), c; simpl; eauto. }
  destruct (messages_given m || components_given c) eqn:Hg; simpl.
  2:{ destruct (messages_given m), c; simpl in Hg; done. }
  unfold wait_for in *. simpl in *.
  split; [by apply Hgiven|]. split; [done|].
  destruct (_check message_id custom_id m c check ev); destruct Hrest as [Hp Hf].
  - by rewrite Hp, Hf.
  - rewrite Hp, Hf. split; (split; [|done]).
    + discriminate.
    + intros Heq. apply (f_equal length) in Heq.
      rewrite length_app in Heq. simpl in Heq. lia.
Qed.

End Waiting.

Lemma component_wait_resolves_on_wanted_events_witness :
  let cl := {| loop_running := true; listeners := ∅; waits := ∅; futures := [] |} in
  let ev := {| resolved_name := "component"; n_attrs := 1; payload := 5 |} in
  let cl1 := (wait_for cl "component"
                (Some (_check payload (λ _, "ok") (MessageObject 5) (Some ["ok"]) None))).1 in
  futures (d_client (dispatch cl1 ev)) !! 0%nat = Some (Resolved ev).
Proof.
  cbv zeta.
  pose proof (component_wait_resolves_on_wanted_events payload (λ _, "ok")
                {| loop_running := true; listeners := ∅; waits := ∅; futures := [] |}
                (MessageObject 5) (Some ["ok"]) None
                {| resolved_name := "component"; n_attrs := 1; payload := 5 |}
                eq_refl eq_refl) as H.
  unfold wait_for_component in H. simpl in H.
  destruct H as (_ & _ & [_ Hresolved] & _).
  - intros w Hw. vm_compute in Hw. by apply elem_of_nil in Hw.
  - apply Hresolved. reflexivity.
Defined.

End ComponentsFacts.

(* ===================================================================== *)
(** ** Start-up of the interactions *)
(* ===================================================================== *)

Module StartupFacts.
Import Reconciler Startup.

Lemma raises_only_ret {A} E (a : A) : raises_only E (ret a).
Proof. intros s e s' H. discriminate. Qed.

Lemma raises_only_modify E f : raises_only E (modify f).
Proof. intros s e s' H. discriminate. Qed.

Lemma raises_only_bind {A B} E (m : M A) (k : A → M B) :
  raises_only E m → (∀ a, raises_only E (k a)) → raises_only E (bind m k).
Proof.
  intros Hm Hk s e s' H. unfold bind in H.
  destruct (m s) as [[e1|a] s1] eqn:Hms.
  - simplify_eq. exact (Hm _ _ _ Hms).
  - exact (Hk a _ _ _ H).
Qed.

Lemma raises_only_for_each {A} E (l : list A) (body : A → M unit) :
  (∀ x, x ∈ l → raises_only E (body x)) → raises_only E (for_each l body).
Proof.
  induction l as [|x rest IH]; intros Hbody; simpl.
  - apply raises_only_ret.
  - apply raises_only_bind.
    + apply Hbody, list_elem_of_here.
    + intros _. apply IH. intros y Hy. by apply Hbody, list_elem_of_further.
Qed.

Section Passes.

Variable http : Http.

Lemma cache_registered_raises entry :
  raises_only (λ e, e = HTTPException ∨ e = InteractionMissingAccess (fst entry))
              (cache_registered http entry).
Proof.
  unfold cache_registered. apply raises_only_bind.
  - intros s e s' H. unfold missing_access_on_forbidden, http_get, call in H.
    destruct (get_interaction_element http (hist s) (fst entry));
      simpl in H; simplify_eq; eauto.
  - intros remote_cmds. apply raises_only_for_each. intros cmd _.
    unfold cache_cmd. destruct (remote_by_name _ _);
      [apply raises_only_modify|apply raises_only_ret].
Qed.

Lemma cache_unregistered_raises scope :
  raises_only (λ e, e = HTTPException) (cache_unregistered http scope).
Proof.
  intros s e s' H. unfold cache_unregistered, http_get, call in H.
  destruct (get_interaction_element http (hist s) scope) as [remote_cmds| |];
    simpl in H.
  - refine (raises_only_for_each (λ e, e = HTTPException) _ _ _ _ _ _ H).
    intros cmd_data _. apply raises_only_modify.
  - discriminate.
  - by simplify_eq.
Qed.

Lemma cache_interactions_raises s e s' :
  _cache_interactions http s = (inl e, s') →
  e = HTTPException
  ∨ ∃ scope, scope ∈ map fst (interactions (cl s)) ∧ e = InteractionMissingAccess scope.
Proof.
  unfold _cache_interactions, bind at 1, get_client. simpl.
  apply (raises_only_bind
           (λ e, e = HTTPException
                 ∨ ∃ scope, scope ∈ map fst (interactions (cl s))
                            ∧ e = InteractionMissingAccess scope)).
  - apply raises_only_for_each. intros entry Hentry s0 e0 s0' H.
    apply cache_registered_raises in H as [->| ->]; [by left|right].
    exists (fst entry). split; [|done].
    apply list_elem_of_In, in_map, list_elem_of_In, Hentry.
  - intros _. apply raises_only_for_each. intros scope _ s0 e0 s0' H.
    apply cache_unregistered_raises in H. by left.
Qed.

(** X29. [_init_interactions] never raises: an error of the pass it runs
    becomes one call of [on_error] with the source "Interaction Syncing".
    When the commands are not synchronised, the error it reports is never
    the bare [Forbidden] of the HTTP layer: a forbidden scope without
    registered commands is skipped, and a forbidden scope with registered
    commands is reported as [InteractionMissingAccess] for that scope. *)
Theorem startup_reports_missing_access_and_goes_on
    sync_needed application_commands_to_dict c h :
  (∀ sync_interactions, ∃ hooks,
     (run (_init_interactions http sync_needed application_commands_to_dict
             sync_interactions) c h).1 = inr hooks
     ∧ (length hooks ≤ 1)%nat)
  ∧ (let r := run (_init_interactions http sync_needed application_commands_to_dict
                     false) c h in
     r.1 = inr []
     ∨ r.1 = inr [OnError "Interaction Syncing" HTTPException]
     ∨ ∃ scope, scope ∈ map fst (interactions c)
                ∧ r.1 = inr [OnError "Interaction Syncing"
                               (InteractionMissingAccess scope)]).
Proof.
  split.
  - intros flag. unfold run, _init_interactions.
    destruct ((if flag
               then synchronise_interactions http sync_needed application_commands_to_dict
               else _cache_interactions http) {| cl := c; hist := h |}) as [[e|[]] s'];
      eexists; (split; [reflexivity|simpl; lia]).
  - cbv zeta. unfold run, _init_interactions.
    destruct (_cache_interactions http {| cl := c; hist := h |}) as [[e|[]] s'] eqn:Hpass;
      simpl; [|by left].
    apply cache_interactions_raises in Hpass as [->|(scope & Hscope & ->)].
    + right. by left.
    + right. right. by exists scope.
Qed.

End Passes.

End StartupFacts.

(* ===================================================================== *)
(** ** Presence *)
(* ===================================================================== *)

Module PresenceFacts.
Import Presence.

Section Presences.

Variable upper : string → string.
Variable Status : Type.
Variable Status_by_name : string → option Status.
Variable ONLINE : Status.
Variable Activity : Type.
Variable Activity_create : string → Activity.

(** X30. [change_presence] raises [ValueError] exactly for a non-empty
    status string that names no member of [Status] once upper-cased. When it
    succeeds, the status it stores is the status it sent, and a further call
    with neither status nor activity sends the same presence again and
    leaves the client as it is. *)
Theorem presence_is_kept_when_nothing_is_given c status activity :
  let change :=
    change_presence upper Status Status_by_name ONLINE Activity Activity_create in
  (change c status activity = inl ValueError
   ↔ ∃ s, status = StatusName s ∧ s ≠ "" ∧ Status_by_name (upper s) = None)
  ∧ (∀ c' sent,
       change c status activity = inr (c', sent) →
       _status _ _ c' = Some (sent_status _ _ sent)
       ∧ change c' StatusNone ActivityNone = inr (c', sent)).
Proof.
  cbv zeta. unfold change_presence. split.
  - split.
    + destruct status as [|s|st]; simpl; try discriminate.
      destruct (String.eqb_spec s ""); [discriminate|].
      destruct (Status_by_name (upper s)) eqn:Hs; [discriminate|].
      intros _. by exists s.
    + intros (s & -> & Hne & Hs). simpl.
      destruct (String.eqb_spec s ""); [done|]. by rewrite Hs.
  - intros c' sent H.
    destruct (resolve_status _ _ _ _ _ c status) as [e|st]; [discriminate|].
    injection H as <- <-. simpl. split; [done|].
    assert (Hstored : resolve_activity Status Activity Activity_create c activity
                      ≠ StoredNone).
    { unfold resolve_activity.
      destruct activity as [|s|a]; [|destruct (String.eqb s "")|];
        by destruct (_activity _ _ c). }
    unfold resolve_status, kept_status. simpl.
    by destruct (resolve_activity Status Activity Activity_create c activity).
Qed.

End Presences.

End PresenceFacts.
